(** * Car Combat Arena: the server-side simulation core

    A shallow embedding of the TypeScript simulation code (physics,
    collision, combat, power-ups, win condition, players, rooms and
    matchmaking, with the math, vector and wall utilities they use)
    together with the properties its specification states about it
    and further properties that the code itself shows.

    Number model.  A TypeScript [number] that carries a geometric or
    gameplay quantity (positions, velocities, angles, health, shield,
    damage) is modelled as a real number [R]: [Math.sqrt], [Math.cos],
    [Math.sin], [Math.floor] become [sqrt], [cos], [sin], [Zfloor].
    Rounding of IEEE doubles, infinities and NaN are not modelled:
    where the source divides by a quantity that can be zero, the
    properties are stated for the non-zero case.  One effect of
    rounding is modelled, because it decides whether a function
    returns at all: a double of magnitude above 2^56 is unchanged by
    adding or subtracting [2 * Math.PI], so the angle normalisation
    loops never end on it (see [ABSORBS_TURN]); a function that runs
    such a loop returns an [option], [None] standing for a call that
    does not return.  Values produced by
    [Date.now()] and the millisecond constants compared against them
    are integers ([Z]); so is the score, which only ever receives the
    integer per-hit and per-kill awards.

    Object model.  A JavaScript object that several places hold a
    reference to (the cars in [gameState.players]) lives in a store, an
    insertion-ordered map from its key to its value, and a reference to
    it is its key.  Fields that are cosmetic only (colours, names, wing
    style, customization presets) are left out of the records. *)

From Stdlib Require Import Reals Lra Lia ZArith Ascii String List Bool.
From Stdlib Require Import DecimalString DecimalNat.
From stdpp Require Import gmap strings list fin_maps.
From Equations Require Import Equations.

Local Open Scope R_scope.

(** ** Comparisons on numbers, as booleans *)

Definition Rltb (a b : R) : bool := if Rlt_dec a b then true else false.
Definition Rgtb (a b : R) : bool := Rltb b a.
Definition Rleb (a b : R) : bool := negb (Rltb b a).
Definition Rgeb (a b : R) : bool := negb (Rltb a b).

(** [a === b] on numbers. *)
Definition Reqb (a b : R) : bool := if Req_dec_T a b then true else false.

(** [Math.round]: the nearest integer, halves rounded up. *)
Definition round (v : R) : R := IZR (Zfloor (v + 0.5)).

(** [Math.floor]. *)
Definition floor (v : R) : R := IZR (Zfloor v).

(** ** Insertion-ordered maps

    A JavaScript [Map], and an object with string keys that are not
    array indices, enumerate their entries in insertion order; writing
    to an existing key keeps its place. *)

Section OrderedMap.
Context {K V : Type} `{EqDecision K}.

Fixpoint mget (k : K) (m : list (K * V)) : option V :=
    match m with
    | [] => None
    | (k', v) :: rest => if decide (k = k') then Some v else mget k rest
    end.

Fixpoint mset (k : K) (v : V) (m : list (K * V)) : list (K * V) :=
    match m with
    | [] => [(k, v)]
    | (k', v') :: rest =>
        if decide (k = k') then (k, v) :: rest else (k', v') :: mset k v rest
    end.

Fixpoint mdelete (k : K) (m : list (K * V)) : list (K * V) :=
    match m with
    | [] => []
    | (k', v') :: rest =>
        if decide (k = k') then rest else (k', v') :: mdelete k rest
    end.

Definition mhas (k : K) (m : list (K * V)) : bool :=
    match mget k m with Some _ => true | None => false end.

Definition mkeys (m : list (K * V)) : list K := map fst m.
Definition mvalues (m : list (K * V)) : list V := map snd m.
End OrderedMap.

(** ** Constants (shared/constants) *)

Definition GAME_WIDTH : R := 1200.
Definition GAME_HEIGHT : R := 800.
Definition CAR_WIDTH : R := 50.
Definition CAR_HEIGHT : R := 30.
Definition CAR_FRICTION : R := 0.98.

Inductive WeaponType := cannon | machinegun.

Definition CANNON_BULLET_SPEED : R := 12.
Definition CANNON_BULLET_DAMAGE : R := 35.
Definition CANNON_BULLET_SIZE : R := 10.
Definition CANNON_COOLDOWN : Z := 1200.
Definition MACHINEGUN_BULLET_SPEED : R := 18.
Definition MACHINEGUN_BULLET_DAMAGE : R := 5.
Definition MACHINEGUN_BULLET_SIZE : R := 3.
Definition MACHINEGUN_COOLDOWN : Z := 100.
Definition BULLET_SIZE : R := 5.

Definition SHIELD_RECHARGE_DELAY : R := 3000.
Definition MAX_PLAYERS : nat := 2.
Definition SCORE_PER_HIT : Z := 10.
Definition SCORE_PER_KILL : Z := 100.

Definition COLLISION_DAMAGE_THRESHOLD : R := 3.
Definition COLLISION_DAMAGE_MULTIPLIER : R := 2.

Inductive WallMaterial := concrete | wood | metal | glass.

Module WallMaterialConfig.
Record t := mk { health : R; damageResistance : R }.
End WallMaterialConfig.

Definition WALL_MATERIALS (m : WallMaterial) : WallMaterialConfig.t :=
  match m with
  | concrete => WallMaterialConfig.mk 200 0.3
  | wood => WallMaterialConfig.mk 80 0
  | metal => WallMaterialConfig.mk 300 0.5
  | glass => WallMaterialConfig.mk 40 0
  end.

Module BoonType.
Inductive t := health | shield | speed | damage | rapidfire.
End BoonType.

Definition BOON_PICKUP_RADIUS : R := 35.
Definition BOON_SPAWN_INTERVAL : Z := 5000.
Definition BOON_MAX_COUNT : nat := 3.
Definition BOON_LIFETIME : Z := 15000.
Definition BOON_SPAWN_MARGIN : R := 100.

Definition PLAYER_SPAWN_POSITIONS : list (R * R) :=
  [(150, GAME_HEIGHT / 2); (GAME_WIDTH - 150, GAME_HEIGHT / 2)].

(** [BOON_EFFECTS[type].value] *)
Definition BOON_EFFECTS (t : BoonType.t) : R :=
  match t with
  | BoonType.health => 40
  | BoonType.shield => 30
  | BoonType.speed => 5000
  | BoonType.damage => 8000
  | BoonType.rapidfire => 6000
  end.

(** [Object.entries(BOON_SPAWN_WEIGHTS)], in declaration order. *)
Definition BOON_SPAWN_WEIGHTS : list (BoonType.t * R) :=
  [(BoonType.health, 30); (BoonType.shield, 25); (BoonType.speed, 20);
   (BoonType.damage, 15); (BoonType.rapidfire, 10)].

(** ** Entities (shared/types) *)

Module Vector2.
Record t := mk { x : R; y : R }.
End Vector2.

Module CarState.
Record t := mk {
    id : string;
    x : R;
    y : R;
    angle : R;
    velocityX : R;
    velocityY : R;
    health : R;
    maxHealth : R;
    shield : R;
    maxShield : R;
    shieldRechargeTimer : R;
    score : Z;
    isBoosting : bool;
    boostFuel : R;
    maxBoostFuel : R;
    boostRechargeTimer : R;
    maxSpeed : R;
    boostSpeed : R;
    acceleration : R;
    turnSpeed : R;
    bulletDamageMultiplier : R;
    gunEffectId : string
  }.

Definition with_x (v : R) (c : t) : t :=
    mk (id c) v (y c) (angle c) (velocityX c) (velocityY c) (health c)
       (maxHealth c) (shield c) (maxShield c) (shieldRechargeTimer c)
       (score c) (isBoosting c) (boostFuel c) (maxBoostFuel c)
       (boostRechargeTimer c) (maxSpeed c) (boostSpeed c) (acceleration c)
       (turnSpeed c) (bulletDamageMultiplier c) (gunEffectId c).
Definition with_y (v : R) (c : t) : t :=
    mk (id c) (x c) v (angle c) (velocityX c) (velocityY c) (health c)
       (maxHealth c) (shield c) (maxShield c) (shieldRechargeTimer c)
       (score c) (isBoosting c) (boostFuel c) (maxBoostFuel c)
       (boostRechargeTimer c) (maxSpeed c) (boostSpeed c) (acceleration c)
       (turnSpeed c) (bulletDamageMultiplier c) (gunEffectId c).
Definition with_angle (v : R) (c : t) : t :=
    mk (id c) (x c) (y c) v (velocityX c) (velocityY c) (health c)
       (maxHealth c) (shield c) (maxShield c) (shieldRechargeTimer c)
       (score c) (isBoosting c) (boostFuel c) (maxBoostFuel c)
       (boostRechargeTimer c) (maxSpeed c) (boostSpeed c) (acceleration c)
       (turnSpeed c) (bulletDamageMultiplier c) (gunEffectId c).
Definition with_velocityX (v : R) (c : t) : t :=
    mk (id c) (x c) (y c) (angle c) v (velocityY c) (health c)
       (maxHealth c) (shield c) (maxShield c) (shieldRechargeTimer c)
       (score c) (isBoosting c) (boostFuel c) (maxBoostFuel c)
       (boostRechargeTimer c) (maxSpeed c) (boostSpeed c) (acceleration c)
       (turnSpeed c) (bulletDamageMultiplier c) (gunEffectId c).
Definition with_velocityY (v : R) (c : t) : t :=
    mk (id c) (x c) (y c) (angle c) (velocityX c) v (health c)
       (maxHealth c) (shield c) (maxShield c) (shieldRechargeTimer c)
       (score c) (isBoosting c) (boostFuel c) (maxBoostFuel c)
       (boostRechargeTimer c) (maxSpeed c) (boostSpeed c) (acceleration c)
       (turnSpeed c) (bulletDamageMultiplier c) (gunEffectId c).
Definition with_health (v : R) (c : t) : t :=
    mk (id c) (x c) (y c) (angle c) (velocityX c) (velocityY c) v
       (maxHealth c) (shield c) (maxShield c) (shieldRechargeTimer c)
       (score c) (isBoosting c) (boostFuel c) (maxBoostFuel c)
       (boostRechargeTimer c) (maxSpeed c) (boostSpeed c) (acceleration c)
       (turnSpeed c) (bulletDamageMultiplier c) (gunEffectId c).
Definition with_shield (v : R) (c : t) : t :=
    mk (id c) (x c) (y c) (angle c) (velocityX c) (velocityY c) (health c)
       (maxHealth c) v (maxShield c) (shieldRechargeTimer c)
       (score c) (isBoosting c) (boostFuel c) (maxBoostFuel c)
       (boostRechargeTimer c) (maxSpeed c) (boostSpeed c) (acceleration c)
       (turnSpeed c) (bulletDamageMultiplier c) (gunEffectId c).
Definition with_shieldRechargeTimer (v : R) (c : t) : t :=
    mk (id c) (x c) (y c) (angle c) (velocityX c) (velocityY c) (health c)
       (maxHealth c) (shield c) (maxShield c) v
       (score c) (isBoosting c) (boostFuel c) (maxBoostFuel c)
       (boostRechargeTimer c) (maxSpeed c) (boostSpeed c) (acceleration c)
       (turnSpeed c) (bulletDamageMultiplier c) (gunEffectId c).
Definition with_score (v : Z) (c : t) : t :=
    mk (id c) (x c) (y c) (angle c) (velocityX c) (velocityY c) (health c)
       (maxHealth c) (shield c) (maxShield c) (shieldRechargeTimer c)
       v (isBoosting c) (boostFuel c) (maxBoostFuel c)
       (boostRechargeTimer c) (maxSpeed c) (boostSpeed c) (acceleration c)
       (turnSpeed c) (bulletDamageMultiplier c) (gunEffectId c).
End CarState.

Module Bullet.
Record t := mk {
    id : string;
    ownerId : string;
    x : R;
    y : R;
    velocityX : R;
    velocityY : R;
    angle : R;
    damage : R;
    weaponType : WeaponType;
    size : R;
    gunEffectId : string
  }.

Definition with_x (v : R) (b : t) : t :=
    mk (id b) (ownerId b) v (y b) (velocityX b) (velocityY b) (angle b)
       (damage b) (weaponType b) (size b) (gunEffectId b).
Definition with_y (v : R) (b : t) : t :=
    mk (id b) (ownerId b) (x b) v (velocityX b) (velocityY b) (angle b)
       (damage b) (weaponType b) (size b) (gunEffectId b).
End Bullet.

Module Wall.
Record t := mk {
    id : string;
    x : R;
    y : R;
    width : R;
    height : R;
    material : WallMaterial;
    health : R;
    maxHealth : R
  }.

Definition with_health (v : R) (w : t) : t :=
    mk (id w) (x w) (y w) (width w) (height w) (material w) v (maxHealth w).
End Wall.

Module Boon.
Record t := mk {
    id : string;
    x : R;
    y : R;
    type : BoonType.t;
    spawnTime : Z;
    lifetime : Z
  }.
End Boon.

Inductive GameStatus := waiting | playing | gameover.

Module PlayerInput.
Record t := mk {
    forward : bool;
    backward : bool;
    left : bool;
    right : bool;
    shoot : bool;
    shootCannon : bool;
    shootMachineGun : bool;
    boost : bool;
    targetAngle : option R;
    useMouseControl : bool
  }.
End PlayerInput.

(** The cars of a game, keyed by player id, in insertion order. *)
Abbreviation Players := (list (string * CarState.t)).

Module GameState.
Record t := mk {
    players : Players;
    bullets : list Bullet.t;
    walls : list Wall.t;
    boons : list Boon.t;
    gameStatus : GameStatus;
    winner : option string
  }.
End GameState.

Definition createInitialGameState : GameState.t :=
  GameState.mk [] [] [] [] waiting None.

(** ** Vector utilities (shared/utils/vector) *)

Module Vector.
Definition add (a b : Vector2.t) : Vector2.t :=
  Vector2.mk (Vector2.x a + Vector2.x b) (Vector2.y a + Vector2.y b).

Definition subtract (a b : Vector2.t) : Vector2.t :=
  Vector2.mk (Vector2.x a - Vector2.x b) (Vector2.y a - Vector2.y b).

Definition scale (v : Vector2.t) (scalar : R) : Vector2.t :=
  Vector2.mk (Vector2.x v * scalar) (Vector2.y v * scalar).

Definition magnitude (v : Vector2.t) : R :=
  sqrt (Vector2.x v * Vector2.x v + Vector2.y v * Vector2.y v).

Definition magnitudeSquared (v : Vector2.t) : R :=
  Vector2.x v * Vector2.x v + Vector2.y v * Vector2.y v.

Definition normalize (v : Vector2.t) : Vector2.t :=
  let mag := magnitude v in
  if Reqb mag 0 then Vector2.mk 0 0
  else Vector2.mk (Vector2.x v / mag) (Vector2.y v / mag).

Definition distance (a b : Vector2.t) : R := magnitude (subtract a b).

Definition distanceSquared (a b : Vector2.t) : R :=
  magnitudeSquared (subtract a b).

Definition dot (a b : Vector2.t) : R :=
  Vector2.x a * Vector2.x b + Vector2.y a * Vector2.y b.

Definition fromAngle (angle magnitude : R) : Vector2.t :=
  Vector2.mk (cos angle * magnitude) (sin angle * magnitude).

Definition clampMagnitude (v : Vector2.t) (maxMagnitude : R) : Vector2.t :=
  let mag := magnitude v in
  if Rgtb mag maxMagnitude then scale (normalize v) maxMagnitude else v.

Definition lerp (a b : Vector2.t) (t : R) : Vector2.t :=
  Vector2.mk (Vector2.x a + (Vector2.x b - Vector2.x a) * t)
    (Vector2.y a + (Vector2.y b - Vector2.y a) * t).
End Vector.

(** ** Wall utilities (shared/utils) *)

Definition rectangleIntersectsWall (rx ry rWidth rHeight : R) (wall : Wall.t)
  : bool :=
  negb (Rltb (rx + rWidth / 2) (Wall.x wall - Wall.width wall / 2)
        || Rgtb (rx - rWidth / 2) (Wall.x wall + Wall.width wall / 2)
        || Rltb (ry + rHeight / 2) (Wall.y wall - Wall.height wall / 2)
        || Rgtb (ry - rHeight / 2) (Wall.y wall + Wall.height wall / 2)).

(** ** PhysicsSystem (server/systems/PhysicsSystem.ts) *)

Module PhysicsSystem.

(** 2^56.  Doubles above it are at least 16 apart, more than twice
    [2 * Math.PI]: for such an [x], [x - 2 * Math.PI] rounds back to
    [x], and [-x + 2 * Math.PI] to [-x].  At 2^56 itself and below,
    the subtraction reaches a smaller double (2^56 - 8 is the one
    next to 2^56), and the loop ends after a number of iterations
    proportional to its argument. *)
Definition ABSORBS_TURN : R := 72057594037927936.

(** The two normalisation loops of [rotateTowardsTarget]:
    [while (angleDiff > Math.PI) angleDiff -= 2 * Math.PI] and
    [while (angleDiff < -Math.PI) angleDiff += 2 * Math.PI].  A loop
    whose variable the step leaves unchanged never ends: [None].
    Otherwise the number of iterations left bounds the recursion. *)
Equations? normalizeDown (angleDiff : R) : option R
  by wf (Z.to_nat (up ((angleDiff - PI) / (2 * PI)))) lt :=
  normalizeDown angleDiff with Rlt_dec PI angleDiff => {
    | right _ := Some angleDiff;
    | left _ with Rlt_dec ABSORBS_TURN angleDiff => {
        | left _ := None;
        | right _ := normalizeDown (angleDiff - 2 * PI) } }.
Proof.
  assert (HPI := PI_RGT_0).
  replace ((angleDiff - 2 * PI - PI) / (2 * PI))
    with ((angleDiff - PI) / (2 * PI) + IZR (-1)) by (field; lra).
  rewrite up_Zfloor, Zfloor_addz, up_Zfloor.
  assert (0 <= Zfloor ((angleDiff - PI) / (2 * PI)))%Z.
  { apply Zfloor_lub. apply Rmult_le_pos; [lra|].
    apply Rlt_le, Rinv_0_lt_compat; lra. }
  lia.
Qed.

Equations? normalizeUp (angleDiff : R) : option R
  by wf (Z.to_nat (up ((- PI - angleDiff) / (2 * PI)))) lt :=
  normalizeUp angleDiff with Rlt_dec angleDiff (- PI) => {
    | right _ := Some angleDiff;
    | left _ with Rlt_dec angleDiff (- ABSORBS_TURN) => {
        | left _ := None;
        | right _ := normalizeUp (angleDiff + 2 * PI) } }.
Proof.
  assert (HPI := PI_RGT_0).
  replace ((- PI - (angleDiff + 2 * PI)) / (2 * PI))
    with ((- PI - angleDiff) / (2 * PI) + IZR (-1)) by (field; lra).
  rewrite up_Zfloor, Zfloor_addz, up_Zfloor.
  assert (0 <= Zfloor ((- PI - angleDiff) / (2 * PI)))%Z.
  { apply Zfloor_lub. apply Rmult_le_pos; [lra|].
    apply Rlt_le, Rinv_0_lt_compat; lra. }
  lia.
Qed.

(** [None]: one of the two loops does not end, and neither does the
    call. *)
Definition rotateTowardsTarget (car : CarState.t) (targetAngle turnSpeed : R)
  : option CarState.t :=
  let angleDiff := targetAngle - CarState.angle car in
  match normalizeDown angleDiff with
  | None => None
  | Some angleDiff =>
      match normalizeUp angleDiff with
      | None => None
      | Some angleDiff =>
          Some
            (if Rltb (Rabs angleDiff) turnSpeed then
               CarState.with_angle targetAngle car
             else if Rgtb angleDiff 0 then
               CarState.with_angle (CarState.angle car + turnSpeed) car
             else
               CarState.with_angle (CarState.angle car - turnSpeed) car)
      end
  end.

Definition applyRotation (car : CarState.t) (input : PlayerInput.t)
  : option CarState.t :=
  let turnSpeed := CarState.turnSpeed car in
  match PlayerInput.useMouseControl input, PlayerInput.targetAngle input with
  | true, Some targetAngle => rotateTowardsTarget car targetAngle turnSpeed
  | _, _ =>
      let car :=
        if PlayerInput.left input
        then CarState.with_angle (CarState.angle car - turnSpeed) car
        else car in
      Some
        (if PlayerInput.right input
         then CarState.with_angle (CarState.angle car + turnSpeed) car
         else car)
  end.

Definition applyAcceleration (car : CarState.t) (input : PlayerInput.t)
  : CarState.t :=
  let acceleration := CarState.acceleration car in
  let car :=
    if PlayerInput.forward input then
      CarState.with_velocityY
        (CarState.velocityY car + sin (CarState.angle car) * acceleration)
        (CarState.with_velocityX
           (CarState.velocityX car + cos (CarState.angle car) * acceleration)
           car)
    else car in
  if PlayerInput.backward input then
    let reverseMultiplier := 0.5 in
    CarState.with_velocityY
      (CarState.velocityY car
       - sin (CarState.angle car) * acceleration * reverseMultiplier)
      (CarState.with_velocityX
         (CarState.velocityX car
          - cos (CarState.angle car) * acceleration * reverseMultiplier)
         car)
  else car.

Definition applyFriction (car : CarState.t) : CarState.t :=
  CarState.with_velocityY (CarState.velocityY car * CAR_FRICTION)
    (CarState.with_velocityX (CarState.velocityX car * CAR_FRICTION) car).

Definition getSpeed (car : CarState.t) : R :=
  sqrt (CarState.velocityX car ^ 2 + CarState.velocityY car ^ 2).

Definition limitSpeed (car : CarState.t) (isBoosting : bool) : CarState.t :=
  let maxSpeed :=
    if isBoosting then CarState.boostSpeed car else CarState.maxSpeed car in
  let speed := sqrt (CarState.velocityX car ^ 2 + CarState.velocityY car ^ 2) in
  if Rgtb speed maxSpeed then
    let ratio := maxSpeed / speed in
    CarState.with_velocityY (CarState.velocityY car * ratio)
      (CarState.with_velocityX (CarState.velocityX car * ratio) car)
  else car.

Definition updatePosition (car : CarState.t) : CarState.t :=
  CarState.with_y (CarState.y car + CarState.velocityY car)
    (CarState.with_x (CarState.x car + CarState.velocityX car) car).

Definition constrainToBounds (car : CarState.t) : CarState.t :=
  let halfWidth := CAR_WIDTH / 2 in
  let halfHeight := CAR_HEIGHT / 2 in
  let car :=
    CarState.with_x
      (Rmax halfWidth (Rmin (GAME_WIDTH - halfWidth) (CarState.x car))) car in
  CarState.with_y
    (Rmax halfHeight (Rmin (GAME_HEIGHT - halfHeight) (CarState.y car))) car.

(** The steps after the rotation run once the rotation has returned. *)
Definition updateCar (car : CarState.t) (input : PlayerInput.t)
  : option CarState.t :=
  match applyRotation car input with
  | None => None
  | Some car =>
      let car := applyAcceleration car input in
      let car := applyFriction car in
      let car := limitSpeed car (PlayerInput.boost input) in
      let car := updatePosition car in
      Some (constrainToBounds car)
  end.

Definition getRelativeSpeed (car1 car2 : CarState.t) : R :=
  let relVelX := CarState.velocityX car1 - CarState.velocityX car2 in
  let relVelY := CarState.velocityY car1 - CarState.velocityY car2 in
  sqrt (relVelX ^ 2 + relVelY ^ 2).

End PhysicsSystem.

(** ** CollisionSystem (server/systems/CollisionSystem.ts) *)

Module CollisionResult.
Record t := mk { occurred : bool; damage : option R }.
End CollisionResult.

Module CollisionSystem.

Definition checkBulletCarCollision (bullet : Bullet.t) (car : CarState.t)
  : bool :=
  let dx := Rabs (Bullet.x bullet - CarState.x car) in
  let dy := Rabs (Bullet.y bullet - CarState.y car) in
  let hitBoxPadding := 5 in
  Rltb dx (CAR_WIDTH / 2 + hitBoxPadding)
  && Rltb dy (CAR_HEIGHT / 2 + hitBoxPadding).

Definition isBulletOutOfBounds (bullet : Bullet.t) (width height : R) : bool :=
  Rltb (Bullet.x bullet) 0 || Rgtb (Bullet.x bullet) width
  || Rltb (Bullet.y bullet) 0 || Rgtb (Bullet.y bullet) height.

Definition applyBounce (car1 car2 : CarState.t) : CarState.t * CarState.t :=
  let bounceMultiplier := 0.5 in
  let tempVx := CarState.velocityX car1 * bounceMultiplier in
  let tempVy := CarState.velocityY car1 * bounceMultiplier in
  let car1 :=
    CarState.with_velocityX (CarState.velocityX car2 * bounceMultiplier) car1 in
  let car1 :=
    CarState.with_velocityY (CarState.velocityY car2 * bounceMultiplier) car1 in
  let car2 := CarState.with_velocityX tempVx car2 in
  let car2 := CarState.with_velocityY tempVy car2 in
  (car1, car2).

(** [checkCarCollision] mutates both cars; the model returns them. *)
Definition checkCarCollision (car1 car2 : CarState.t)
  : CarState.t * CarState.t * CollisionResult.t :=
  let dx := CarState.x car1 - CarState.x car2 in
  let dy := CarState.y car1 - CarState.y car2 in
  let distance := sqrt (dx * dx + dy * dy) in
  let minDistance := CAR_WIDTH in
  if Rgeb distance minDistance then
    (car1, car2, CollisionResult.mk false None)
  else
    let overlap := minDistance - distance in
    let pushX := (dx / distance) * overlap * 0.5 in
    let pushY := (dy / distance) * overlap * 0.5 in
    let car1 := CarState.with_x (CarState.x car1 + pushX) car1 in
    let car1 := CarState.with_y (CarState.y car1 + pushY) car1 in
    let car2 := CarState.with_x (CarState.x car2 - pushX) car2 in
    let car2 := CarState.with_y (CarState.y car2 - pushY) car2 in
    let relativeSpeed := PhysicsSystem.getRelativeSpeed car1 car2 in
    let '(car1, car2, damage) :=
      if Rgtb relativeSpeed COLLISION_DAMAGE_THRESHOLD then
        let damage := floor (relativeSpeed * COLLISION_DAMAGE_MULTIPLIER) in
        (CarState.with_health (CarState.health car1 - damage) car1,
         CarState.with_health (CarState.health car2 - damage) car2,
         damage)
      else (car1, car2, 0) in
    let '(car1, car2) := applyBounce car1 car2 in
    (car1, car2, CollisionResult.mk true (Some damage)).

(** The body of the inner loop of [checkAllCarCollisions], for the cars
    referenced by [k1] and [k2]. *)
Definition collidePair (k1 k2 : string)
    (acc : Players * list CollisionResult.t)
  : Players * list CollisionResult.t :=
  let '(players, results) := acc in
  match mget k1 players, mget k2 players with
  | Some car1, Some car2 =>
      if Rleb (CarState.health car1) 0 || Rleb (CarState.health car2) 0
      then acc
      else
        let '(car1, car2, result) := checkCarCollision car1 car2 in
        let players := mset k2 car2 (mset k1 car1 players) in
        if CollisionResult.occurred result
        then (players, results ++ [result])
        else (players, results)
  | _, _ => acc
  end.

(** [for i ... for j = i + 1 ...] over the array of car references. *)
Fixpoint checkAllCarCollisionsFrom (cars : list string)
    (acc : Players * list CollisionResult.t)
  : Players * list CollisionResult.t :=
  match cars with
  | [] => acc
  | k1 :: rest =>
      checkAllCarCollisionsFrom rest
        (fold_left (fun acc k2 => collidePair k1 k2 acc) rest acc)
  end.

Definition checkAllCarCollisions (cars : list string) (players : Players)
  : Players * list CollisionResult.t :=
  checkAllCarCollisionsFrom cars (players, []).

Definition checkCarWallCollision (car : CarState.t) (wall : Wall.t) : bool :=
  rectangleIntersectsWall (CarState.x car) (CarState.y car)
    CAR_WIDTH CAR_HEIGHT wall.

Definition resolveCarWallCollision (car : CarState.t) (wall : Wall.t)
  : CarState.t :=
  let carLeft := CarState.x car - CAR_WIDTH / 2 in
  let carRight := CarState.x car + CAR_WIDTH / 2 in
  let carTop := CarState.y car - CAR_HEIGHT / 2 in
  let carBottom := CarState.y car + CAR_HEIGHT / 2 in
  let wallLeft := Wall.x wall - Wall.width wall / 2 in
  let wallRight := Wall.x wall + Wall.width wall / 2 in
  let wallTop := Wall.y wall - Wall.height wall / 2 in
  let wallBottom := Wall.y wall + Wall.height wall / 2 in
  let overlapLeft := carRight - wallLeft in
  let overlapRight := wallRight - carLeft in
  let overlapTop := carBottom - wallTop in
  let overlapBottom := wallBottom - carTop in
  let minOverlapX := Rmin overlapLeft overlapRight in
  let minOverlapY := Rmin overlapTop overlapBottom in
  if Rltb minOverlapX minOverlapY then
    if Rltb overlapLeft overlapRight then
      CarState.with_velocityX (- Rabs (CarState.velocityX car) * 0.3)
        (CarState.with_x (wallLeft - CAR_WIDTH / 2) car)
    else
      CarState.with_velocityX (Rabs (CarState.velocityX car) * 0.3)
        (CarState.with_x (wallRight + CAR_WIDTH / 2) car)
  else
    if Rltb overlapTop overlapBottom then
      CarState.with_velocityY (- Rabs (CarState.velocityY car) * 0.3)
        (CarState.with_y (wallTop - CAR_HEIGHT / 2) car)
    else
      CarState.with_velocityY (Rabs (CarState.velocityY car) * 0.3)
        (CarState.with_y (wallBottom + CAR_HEIGHT / 2) car).

Definition checkAllCarWallCollisions (cars : list string) (walls : list Wall.t)
    (players : Players) : Players :=
  fold_left
    (fun players k =>
       match mget k players with
       | Some car =>
           if Rleb (CarState.health car) 0 then players
           else
             mset k
               (fold_left
                  (fun car wall =>
                     if checkCarWallCollision car wall
                     then resolveCarWallCollision car wall
                     else car)
                  walls car)
               players
       | None => players
       end)
    cars players.

Definition checkBulletWallCollision (bullet : Bullet.t) (wall : Wall.t)
  : bool :=
  rectangleIntersectsWall (Bullet.x bullet) (Bullet.y bullet)
    BULLET_SIZE BULLET_SIZE wall.

(** The inner loop of [getBulletsHittingWalls]: it stops at the first
    wall that the bullet overlaps. *)
Fixpoint hitsSomeWall (bullet : Bullet.t) (walls : list Wall.t) : bool :=
  match walls with
  | [] => false
  | wall :: rest =>
      if checkBulletWallCollision bullet wall then true
      else hitsSomeWall bullet rest
  end.

(** The outer loop, with the ids pushed so far. *)
Fixpoint getBulletsHittingWallsFrom (hitBulletIds : list string)
    (bullets : list Bullet.t) (walls : list Wall.t) : list string :=
  match bullets with
  | [] => hitBulletIds
  | bullet :: rest =>
      getBulletsHittingWallsFrom
        (if hitsSomeWall bullet walls
         then hitBulletIds ++ [Bullet.id bullet] else hitBulletIds)
        rest walls
  end.

Definition getBulletsHittingWalls (bullets : list Bullet.t)
    (walls : list Wall.t) : list string :=
  getBulletsHittingWallsFrom [] bullets walls.

End CollisionSystem.

(** ** CombatSystem (server/systems/CombatSystem.ts) *)

Module WallDamageResult.
Record t := mk { wallId : string; damage : R; destroyed : bool }.
End WallDamageResult.

Module WeaponConfig.
Record t := mk { speed : R; damage : R; size : R; cooldown : Z }.
End WeaponConfig.

Definition WEAPON_CONFIGS (w : WeaponType) : WeaponConfig.t :=
  match w with
  | cannon =>
      WeaponConfig.mk CANNON_BULLET_SPEED CANNON_BULLET_DAMAGE
        CANNON_BULLET_SIZE CANNON_COOLDOWN
  | machinegun =>
      WeaponConfig.mk MACHINEGUN_BULLET_SPEED MACHINEGUN_BULLET_DAMAGE
        MACHINEGUN_BULLET_SIZE MACHINEGUN_COOLDOWN
  end.

(** [createBulletIdGenerator]: the closure's counter is the state. *)
Definition generateBulletId (counter : nat) : string * nat :=
  (String.append "bullet_" (NilEmpty.string_of_uint (Nat.to_uint counter)),
   S counter).

Module CombatSystem.

Record t := mk {
  bulletCounter : nat;
  lastCannonShootTimes : gmap string Z;
  lastMachineGunShootTimes : gmap string Z;
  lastWallDamageResults : list WallDamageResult.t
}.

Definition createBullet (car : CarState.t) (weaponType : WeaponType)
    (counter : nat) : Bullet.t * nat :=
  let config := WEAPON_CONFIGS weaponType in
  let spawnOffset := CAR_WIDTH / 2 + 10 in
  let position :=
    Vector.add (Vector2.mk (CarState.x car) (CarState.y car))
      (Vector.fromAngle (CarState.angle car) spawnOffset) in
  let velocity :=
    Vector.fromAngle (CarState.angle car) (WeaponConfig.speed config) in
  let scaledDamage :=
    round (WeaponConfig.damage config * CarState.bulletDamageMultiplier car) in
  let '(bulletId, counter) := generateBulletId counter in
  (Bullet.mk bulletId (CarState.id car) (Vector2.x position)
     (Vector2.y position) (Vector2.x velocity) (Vector2.y velocity)
     (CarState.angle car) scaledDamage weaponType (WeaponConfig.size config)
     (CarState.gunEffectId car),
   counter).

(** The spawn point of a bullet, offset forward from the car. *)
Definition spawnPosition (car : CarState.t) : Vector2.t :=
  let spawnOffset := CAR_WIDTH / 2 + 10 in
  Vector.add (Vector2.mk (CarState.x car) (CarState.y car))
    (Vector.fromAngle (CarState.angle car) spawnOffset).

(** [tryShootWeapon], at the instant [now] that [Date.now()] returns.
    The bullet array and the cooldown map are mutated by the source and
    returned by the model, with the id counter. *)
Definition tryShootWeapon (now : Z) (car : CarState.t)
    (bullets : list Bullet.t) (walls : list Wall.t) (weaponType : WeaponType)
    (cooldownMap : gmap string Z) (counter : nat)
  : bool * list Bullet.t * gmap string Z * nat :=
  let lastShoot := default 0%Z (cooldownMap !! CarState.id car) in
  let config := WEAPON_CONFIGS weaponType in
  if (now - lastShoot <? WeaponConfig.cooldown config)%Z then
    (false, bullets, cooldownMap, counter)
  else
    let spawnPosition := spawnPosition car in
    if existsb
         (fun wall =>
            rectangleIntersectsWall (Vector2.x spawnPosition)
              (Vector2.y spawnPosition) (WeaponConfig.size config)
              (WeaponConfig.size config) wall)
         walls
    then (false, bullets, cooldownMap, counter)
    else
      let cooldownMap := <[CarState.id car := now]> cooldownMap in
      let '(bullet, counter) := createBullet car weaponType counter in
      (true, bullets ++ [bullet], cooldownMap, counter).

Definition tryShootCannon (now : Z) (car : CarState.t)
    (bullets : list Bullet.t) (walls : list Wall.t) (cs : t)
  : bool * list Bullet.t * t :=
  let '(fired, bullets, cooldownMap, counter) :=
    tryShootWeapon now car bullets walls cannon (lastCannonShootTimes cs)
      (bulletCounter cs) in
  (fired, bullets,
   mk counter cooldownMap (lastMachineGunShootTimes cs)
     (lastWallDamageResults cs)).

Definition tryShootMachineGun (now : Z) (car : CarState.t)
    (bullets : list Bullet.t) (walls : list Wall.t) (cs : t)
  : bool * list Bullet.t * t :=
  let '(fired, bullets, cooldownMap, counter) :=
    tryShootWeapon now car bullets walls machinegun
      (lastMachineGunShootTimes cs) (bulletCounter cs) in
  (fired, bullets,
   mk counter (lastCannonShootTimes cs) cooldownMap
     (lastWallDamageResults cs)).

(** The legacy shoot method: the cannon. *)
Definition tryShoot (now : Z) (car : CarState.t)
    (bullets : list Bullet.t) (walls : list Wall.t) (cs : t)
  : bool * list Bullet.t * t :=
  tryShootCannon now car bullets walls cs.

Definition applyWallDamage (bullet : Bullet.t) (wall : Wall.t)
  : Wall.t * WallDamageResult.t :=
  let materialConfig := WALL_MATERIALS (Wall.material wall) in
  let effectiveDamage :=
    floor (Bullet.damage bullet
           * (1 - WallMaterialConfig.damageResistance materialConfig)) in
  let wall := Wall.with_health (Wall.health wall - effectiveDamage) wall in
  let destroyed := Rleb (Wall.health wall) 0 in
  (wall, WallDamageResult.mk (Wall.id wall) effectiveDamage destroyed).

(** What [applyDamage] does to the target object. *)
Definition damageTarget (bullet : Bullet.t) (target : CarState.t)
  : CarState.t :=
  let remainingDamage := Bullet.damage bullet in
  let '(target, remainingDamage) :=
    if Rgtb (CarState.shield target) 0 then
      let shieldDamage := Rmin (CarState.shield target) remainingDamage in
      (CarState.with_shield (CarState.shield target - shieldDamage) target,
       remainingDamage - shieldDamage)
    else (target, remainingDamage) in
  let target :=
    if Rgtb remainingDamage 0
    then CarState.with_health (CarState.health target - remainingDamage) target
    else target in
  CarState.with_shieldRechargeTimer SHIELD_RECHARGE_DELAY target.

(** [applyDamage(bullet, target, gameState)]: [targetKey] is the
    reference to the target; the shooter is looked up in the same store
    afterwards, as [gameState.players[bullet.ownerId]]. *)
Definition applyDamage (bullet : Bullet.t) (targetKey : string)
    (players : Players) : Players :=
  match mget targetKey players with
  | None => players
  | Some target =>
      let target := damageTarget bullet target in
      let players := mset targetKey target players in
      match mget (Bullet.ownerId bullet) players with
      | Some shooter =>
          let shooter :=
            CarState.with_score (CarState.score shooter + SCORE_PER_HIT)
              shooter in
          let shooter :=
            if Rleb (CarState.health target) 0
            then
              CarState.with_score (CarState.score shooter + SCORE_PER_KILL)
                shooter
            else shooter in
          mset (Bullet.ownerId bullet) shooter players
      | None => players
      end
  end.

(** The wall loop of [updateBullets] for one bullet: the first wall, in
    array order, that is not yet in [wallsToRemove] and that the bullet
    overlaps takes the damage and ends the loop. *)
Fixpoint wallLoop (bullet : Bullet.t) (wallsToRemove : gset string)
    (walls : list Wall.t) : option (list Wall.t * WallDamageResult.t) :=
  match walls with
  | [] => None
  | wall :: rest =>
      if decide (Wall.id wall ∈ wallsToRemove) then
        match wallLoop bullet wallsToRemove rest with
        | Some (rest, r) => Some (wall :: rest, r)
        | None => None
        end
      else if CollisionSystem.checkBulletWallCollision bullet wall then
        let '(wall, damageResult) := applyWallDamage bullet wall in
        Some (wall :: rest, damageResult)
      else
        match wallLoop bullet wallsToRemove rest with
        | Some (rest, r) => Some (wall :: rest, r)
        | None => None
        end
  end.

(** The player loop of [updateBullets] for one bullet, over the keys
    of [gameState.players]: the first living player other than the
    owner that the bullet overlaps takes the damage and ends the loop. *)
Fixpoint playerLoop (bullet : Bullet.t) (keys : list string)
    (players : Players) : option Players :=
  match keys with
  | [] => None
  | playerId :: rest =>
      if decide (playerId = Bullet.ownerId bullet) then
        playerLoop bullet rest players
      else
        match mget playerId players with
        | None => playerLoop bullet rest players
        | Some target =>
            if Rleb (CarState.health target) 0 then
              playerLoop bullet rest players
            else if CollisionSystem.checkBulletCarCollision bullet target then
              Some (applyDamage bullet playerId players)
            else playerLoop bullet rest players
        end
  end.

(** The state that the bullet loop of [updateBullets] works on. *)
Module Loop.
Record t := mk {
  players : Players;
  walls : list Wall.t;
  bulletsToRemove : gset string;
  wallsToRemove : gset string;
  results : list WallDamageResult.t
}.
End Loop.

(** [bullet.x += bullet.velocityX; bullet.y += bullet.velocityY] *)
Definition moveBullet (bullet : Bullet.t) : Bullet.t :=
  Bullet.with_y (Bullet.y bullet + Bullet.velocityY bullet)
    (Bullet.with_x (Bullet.x bullet + Bullet.velocityX bullet) bullet).

(** One iteration of the bullet loop, for the bullet as stored. *)
Definition bulletStep (st : Loop.t) (bullet : Bullet.t) : Loop.t :=
  let bullet := moveBullet bullet in
  if CollisionSystem.isBulletOutOfBounds bullet GAME_WIDTH GAME_HEIGHT then
    Loop.mk (Loop.players st) (Loop.walls st)
      ({[Bullet.id bullet]} ∪ Loop.bulletsToRemove st)
      (Loop.wallsToRemove st) (Loop.results st)
  else
    let st :=
      match wallLoop bullet (Loop.wallsToRemove st) (Loop.walls st) with
      | Some (walls, damageResult) =>
          Loop.mk (Loop.players st) walls
            ({[Bullet.id bullet]} ∪ Loop.bulletsToRemove st)
            (if WallDamageResult.destroyed damageResult
             then {[WallDamageResult.wallId damageResult]}
                  ∪ Loop.wallsToRemove st
             else Loop.wallsToRemove st)
            (Loop.results st ++ [damageResult])
      | None => st
      end in
    if decide (Bullet.id bullet ∈ Loop.bulletsToRemove st) then st
    else
      match playerLoop bullet (mkeys (Loop.players st)) (Loop.players st) with
      | Some players =>
          Loop.mk players (Loop.walls st)
            ({[Bullet.id bullet]} ∪ Loop.bulletsToRemove st)
            (Loop.wallsToRemove st) (Loop.results st)
      | None => st
      end.

Definition bulletLoop (gameState : GameState.t) : Loop.t :=
  fold_left bulletStep (GameState.bullets gameState)
    (Loop.mk (GameState.players gameState) (GameState.walls gameState)
       ∅ ∅ []).

Definition updateBullets (cs : t) (gameState : GameState.t)
  : t * GameState.t :=
  let st := bulletLoop gameState in
  (mk (bulletCounter cs) (lastCannonShootTimes cs)
     (lastMachineGunShootTimes cs) (Loop.results st),
   GameState.mk (Loop.players st)
     (filter (fun b => Bullet.id b ∉ Loop.bulletsToRemove st)
        (map moveBullet (GameState.bullets gameState)))
     (filter (fun w => Wall.id w ∉ Loop.wallsToRemove st) (Loop.walls st))
     (GameState.boons gameState) (GameState.gameStatus gameState)
     (GameState.winner gameState)).

Definition resetPlayer (playerId : string) (cs : t) : t :=
  mk (bulletCounter cs) (delete playerId (lastCannonShootTimes cs))
    (delete playerId (lastMachineGunShootTimes cs))
    (lastWallDamageResults cs).

Definition reset (cs : t) : t := mk 0 ∅ ∅ (lastWallDamageResults cs).

End CombatSystem.

(** ** The platform: random numbers and the clock

    [Math.random()] and [Date.now()] read the world: an infinite supply
    of random numbers and of clock readings, and how many of each have
    been consumed.  [toString36] is the platform's rendering of a number
    in base 36.  A computation maps a world to its result and the world
    after it, or to [None] when a loop whose end the code leaves to
    chance has not ended within the fuel given to it. *)

Module World.
Record t := mk {
  random : nat -> R;
  randomCalls : nat;
  clock : nat -> Z;
  clockCalls : nat;
  toString36 : R -> string
}.

(** The world after one more random number, or clock reading, has been
    consumed. *)
Definition afterRandom (w : t) : t :=
  mk (random w) (S (randomCalls w)) (clock w) (clockCalls w) (toString36 w).

Definition afterClock (w : t) : t :=
  mk (random w) (randomCalls w) (clock w) (S (clockCalls w)) (toString36 w).
End World.

Definition M (A : Type) : Type := World.t -> option (A * World.t).

Definition ret {A : Type} (a : A) : M A := fun w => Some (a, w).

Definition bind {A B : Type} (m : M A) (f : A -> M B) : M B :=
  fun w => match m w with
           | Some (a, w') => f a w'
           | None => None
           end.

Declare Scope world_scope.
Delimit Scope world_scope with world.
Notation "x <- m ;; f" := (bind m (fun x => f))
  (at level 100, m at next level, right associativity) : world_scope.
Local Open Scope world_scope.

Definition Math_random : M R :=
  fun w => Some (World.random w (World.randomCalls w), World.afterRandom w).

Definition Date_now : M Z :=
  fun w => Some (World.clock w (World.clockCalls w), World.afterClock w).

Definition Number_toString36 (v : R) : M string :=
  fun w => Some (World.toString36 w v, w).

Definition diverge {A : Type} : M A := fun _ => None.

(** ** Id generation (shared/utils/id) *)

(** [`${prefix}_${Date.now()}_${Math.random().toString(36).substring(2, 11)}`] *)
Definition generateId (prefix : string) : M string :=
  now <- Date_now ;;
  r <- Math_random ;;
  s <- Number_toString36 r ;;
  ret (String.append prefix
         (String.append "_"
            (String.append (NilZero.string_of_int (Z.to_int now))
               (String.append "_" (String.substring 2 9 s))))).

Definition generatePlayerId : M string := generateId "player".

(** ** BoonManager (server/managers/BoonManager.ts) *)

Module BoonPickupEvent.
Record t := mk { playerId : string; boon : Boon.t; effectValue : R }.
End BoonPickupEvent.

Module BoonManager.

Record t := mk {
  boons : list Boon.t;
  lastSpawnTime : Z;
  spawnInterval : Z
}.

Definition reset (self : t) : t := mk [] 0 (spawnInterval self).

(** [new BoonManager()] *)
Definition create : t := reset (mk [] 0 BOON_SPAWN_INTERVAL).

Definition isValidSpawnLocation (self : t) (x y : R) (walls : list Wall.t)
  : bool :=
  if existsb
       (fun spawn : R * R =>
          let dx := x - fst spawn in
          let dy := y - snd spawn in
          let dist := sqrt (dx * dx + dy * dy) in
          Rltb dist BOON_SPAWN_MARGIN)
       PLAYER_SPAWN_POSITIONS
  then false
  else if existsb
            (fun boon =>
               let dx := x - Boon.x boon in
               let dy := y - Boon.y boon in
               let dist := sqrt (dx * dx + dy * dy) in
               Rltb dist (BOON_PICKUP_RADIUS * 2))
            (boons self)
  then false
  else if existsb
            (fun wall =>
               let wallLeft :=
                 Wall.x wall - Wall.width wall / 2 - BOON_SPAWN_MARGIN / 2 in
               let wallRight :=
                 Wall.x wall + Wall.width wall / 2 + BOON_SPAWN_MARGIN / 2 in
               let wallTop :=
                 Wall.y wall - Wall.height wall / 2 - BOON_SPAWN_MARGIN / 2 in
               let wallBottom :=
                 Wall.y wall + Wall.height wall / 2 + BOON_SPAWN_MARGIN / 2 in
               Rgeb x wallLeft && Rleb x wallRight
               && Rgeb y wallTop && Rleb y wallBottom)
            walls
  then false
  else true.

(** The loop of [selectRandomBoonType] over the weight entries. *)
Fixpoint pickWeighted (random : R) (entries : list (BoonType.t * R))
  : BoonType.t :=
  match entries with
  | [] => BoonType.health
  | (type, weight) :: rest =>
      let random := random - weight in
      if Rleb random 0 then type else pickWeighted random rest
  end.

Definition selectRandomBoonType : M BoonType.t :=
  let totalWeight :=
    fold_left (fun a b => a + b) (map snd BOON_SPAWN_WEIGHTS) 0 in
  r <- Math_random ;;
  ret (pickWeighted (r * totalWeight) BOON_SPAWN_WEIGHTS).

(** [EntityFactory.createBoon]: the spawn time is read from the clock. *)
Definition createBoon (id : string) (x y : R) (type : BoonType.t)
    (lifetime : Z) : M Boon.t :=
  now <- Date_now ;;
  ret (Boon.mk id x y type now lifetime).

(** [trySpawnBoon], with the number of attempts left. *)
Fixpoint trySpawnBoonFrom (attempts : nat) (self : t) (walls : list Wall.t)
  : M (option Boon.t) :=
  match attempts with
  | O => ret None
  | S attempts =>
      rx <- Math_random ;;
      let x := BOON_SPAWN_MARGIN + rx * (GAME_WIDTH - BOON_SPAWN_MARGIN * 2) in
      ry <- Math_random ;;
      let y := BOON_SPAWN_MARGIN + ry * (GAME_HEIGHT - BOON_SPAWN_MARGIN * 2) in
      if isValidSpawnLocation self x y walls then
        type <- selectRandomBoonType ;;
        id <- generateId "boon" ;;
        boon <- createBoon id x y type BOON_LIFETIME ;;
        ret (Some boon)
      else trySpawnBoonFrom attempts self walls
  end.

Definition trySpawnBoon (self : t) (walls : list Wall.t) : M (option Boon.t) :=
  trySpawnBoonFrom 20 self walls.

(** The boons that [update] keeps at the instant [now]. *)
Definition unexpired (now : Z) (boons : list Boon.t) : list Boon.t :=
  List.filter
    (fun boon => (now - Boon.spawnTime boon <? Boon.lifetime boon)%Z) boons.

Definition update (self : t) (walls : list Wall.t) : M t :=
  now <- Date_now ;;
  let self :=
    mk (unexpired now (boons self)) (lastSpawnTime self)
      (spawnInterval self) in
  if Nat.ltb (length (boons self)) BOON_MAX_COUNT
     && (now - lastSpawnTime self >=? spawnInterval self)%Z
  then
    newBoon <- trySpawnBoon self walls ;;
    match newBoon with
    | Some newBoon =>
        ret (mk (boons self ++ [newBoon]) now (spawnInterval self))
    | None => ret self
    end
  else ret self.

(** The loop of [checkPickup]: the first boon within reach, and the
    list without it. *)
Fixpoint pickupLoop (car : CarState.t) (boons : list Boon.t)
  : option (Boon.t * list Boon.t) :=
  match boons with
  | [] => None
  | boon :: rest =>
      let dx := CarState.x car - Boon.x boon in
      let dy := CarState.y car - Boon.y boon in
      let dist := sqrt (dx * dx + dy * dy) in
      if Rltb dist (BOON_PICKUP_RADIUS + CAR_WIDTH / 2) then Some (boon, rest)
      else
        match pickupLoop car rest with
        | Some (found, rest) => Some (found, boon :: rest)
        | None => None
        end
  end.

Definition checkPickup (self : t) (car : CarState.t)
  : option BoonPickupEvent.t * t :=
  if Rleb (CarState.health car) 0 then (None, self)
  else
    match pickupLoop car (boons self) with
    | Some (boon, rest) =>
        (Some (BoonPickupEvent.mk (CarState.id car) boon
                 (BOON_EFFECTS (Boon.type boon))),
         mk rest (lastSpawnTime self) (spawnInterval self))
    | None => (None, self)
    end.

Definition applyBoonEffect (car : CarState.t) (boon : Boon.t) : CarState.t :=
  let effect := BOON_EFFECTS (Boon.type boon) in
  match Boon.type boon with
  | BoonType.health =>
      CarState.with_health
        (Rmin (CarState.maxHealth car) (CarState.health car + effect)) car
  | BoonType.shield =>
      CarState.with_shield
        (Rmin (CarState.maxShield car) (CarState.shield car + effect)) car
  | BoonType.speed | BoonType.damage | BoonType.rapidfire =>
      CarState.with_health
        (Rmin (CarState.maxHealth car) (CarState.health car + 10)) car
  end.

Definition removeBoon (boonId : string) (self : t) : t :=
  mk (List.filter (fun b => negb (String.eqb (Boon.id b) boonId)) (boons self))
    (lastSpawnTime self) (spawnInterval self).

Definition clear (self : t) : t :=
  mk [] (lastSpawnTime self) (spawnInterval self).

End BoonManager.

(** ** GameStateManager (server/managers/GameStateManager.ts) *)

Module WinCheck.
Record t := mk { hasWinner : bool; winnerId : option string }.
End WinCheck.

Module GameStateManager.

Definition setStatus (status : GameStatus) (state : GameState.t)
  : GameState.t :=
  GameState.mk (GameState.players state) (GameState.bullets state)
    (GameState.walls state) (GameState.boons state) status
    (GameState.winner state).

Definition setWinner (winnerId : option string) (state : GameState.t)
  : GameState.t :=
  GameState.mk (GameState.players state) (GameState.bullets state)
    (GameState.walls state) (GameState.boons state)
    (GameState.gameStatus state) winnerId.

Definition setPlayers (players : Players) (state : GameState.t)
  : GameState.t :=
  GameState.mk players (GameState.bullets state)
    (GameState.walls state) (GameState.boons state)
    (GameState.gameStatus state) (GameState.winner state).

Definition setBoons (boons : list Boon.t) (state : GameState.t)
  : GameState.t :=
  GameState.mk (GameState.players state) (GameState.bullets state)
    (GameState.walls state) boons (GameState.gameStatus state)
    (GameState.winner state).

Definition addPlayer (car : CarState.t) (state : GameState.t) : GameState.t :=
  setPlayers (mset (CarState.id car) car (GameState.players state)) state.

Definition removePlayer (playerId : string) (state : GameState.t)
  : GameState.t :=
  setPlayers (mdelete playerId (GameState.players state)) state.

Definition getAllPlayers (state : GameState.t) : list CarState.t :=
  mvalues (GameState.players state).

Definition isPlaying (state : GameState.t) : bool :=
  match GameState.gameStatus state with playing => true | _ => false end.

Definition checkWinCondition (state : GameState.t) : WinCheck.t :=
  let players := getAllPlayers state in
  if Nat.ltb (length players) 2 then WinCheck.mk false None
  else
    let alivePlayers :=
      List.filter (fun p => Rgtb (CarState.health p) 0) players in
    let deadPlayers :=
      List.filter (fun p => Rleb (CarState.health p) 0) players in
    if Nat.eqb (length deadPlayers) 0 then WinCheck.mk false None
    else
      match alivePlayers with
      | [winner] => WinCheck.mk true (Some (CarState.id winner))
      | [] => WinCheck.mk true (Some "draw"%string)
      | _ => WinCheck.mk false None
      end.

Definition getPlayer (playerId : string) (state : GameState.t)
  : option CarState.t :=
  mget playerId (GameState.players state).

Definition getPlayerCount (state : GameState.t) : nat :=
  length (mkeys (GameState.players state)).

Definition clearBullets (state : GameState.t) : GameState.t :=
  GameState.mk (GameState.players state) [] (GameState.walls state)
    (GameState.boons state) (GameState.gameStatus state)
    (GameState.winner state).

Definition clearWalls (state : GameState.t) : GameState.t :=
  GameState.mk (GameState.players state) (GameState.bullets state) []
    (GameState.boons state) (GameState.gameStatus state)
    (GameState.winner state).

Definition clearBoons (state : GameState.t) : GameState.t :=
  setBoons [] state.

Definition isWaiting (state : GameState.t) : bool :=
  match GameState.gameStatus state with waiting => true | _ => false end.

Definition reset (state : GameState.t) : GameState.t :=
  createInitialGameState.

End GameStateManager.

(** ** GameEngine (server/core/GameEngine.ts) *)

Inductive GameEvent :=
| onGameStart
| onGameUpdate
| onGameOver (winnerId : string).

Definition TICKS_PER_NETWORK_UPDATE : nat := 3.

Definition SHIELD_RECHARGE_RATE : R := 5.
Definition TICK_RATE : R := 60.
Definition TICK_INTERVAL : R := 1000 / TICK_RATE.

Module GameEngine.

(** The engine's own state, its systems' and managers' states, and the
    events it has emitted to its listener, oldest first. *)
Record t := mk {
  combatSystem : CombatSystem.t;
  boonManager : BoonManager.t;
  stateManager : GameState.t;
  tickCounter : nat;
  events : list GameEvent
}.

Definition endGame (winnerId : string) (e : t) : t :=
  let state := GameStateManager.setStatus gameover (stateManager e) in
  let state :=
    GameStateManager.setWinner
      (if String.eqb winnerId "draw" then None else Some winnerId) state in
  mk (combatSystem e) (boonManager e) state (tickCounter e)
    (events e ++ [onGameOver winnerId]).

Definition checkWinCondition (e : t) : t :=
  let result := GameStateManager.checkWinCondition (stateManager e) in
  match WinCheck.hasWinner result, WinCheck.winnerId result with
  | true, Some winnerId => endGame winnerId e
  | _, _ => e
  end.

(** The body of the loop of [updateShields], for one car. *)
Definition updateShieldOf (car : CarState.t) : CarState.t :=
  let deltaTime := TICK_INTERVAL / 1000 in
  if Rleb (CarState.health car) 0 then car
  else
    let car :=
      if Rgtb (CarState.shieldRechargeTimer car) 0
      then
        CarState.with_shieldRechargeTimer
          (CarState.shieldRechargeTimer car - TICK_INTERVAL) car
      else car in
    if Rleb (CarState.shieldRechargeTimer car) 0
       && Rltb (CarState.shield car) (CarState.maxShield car)
    then
      CarState.with_shield
        (Rmin (CarState.maxShield car)
           (CarState.shield car + SHIELD_RECHARGE_RATE * deltaTime)) car
    else car.

(** [updateShields]: [for (const playerId in state.players)], each car
    looked up and mutated in the store. *)
Definition updateShields (state : GameState.t) : GameState.t :=
  GameStateManager.setPlayers
    (fold_left
       (fun (players : Players) playerId =>
          match mget playerId players with
          | Some car => mset playerId (updateShieldOf car) players
          | None => players
          end)
       (mkeys (GameState.players state)) (GameState.players state))
    state.

(** [checkBoonPickups]: the cars are references into the players. *)
Definition checkBoonPickups (cars : list string)
    (acc : BoonManager.t * GameState.t) : BoonManager.t * GameState.t :=
  fold_left
    (fun (acc : BoonManager.t * GameState.t) k =>
       let '(bm, state) := acc in
       match mget k (GameState.players state) with
       | Some car =>
           match BoonManager.checkPickup bm car with
           | (Some pickup, bm) =>
               let car :=
                 BoonManager.applyBoonEffect car
                   (BoonPickupEvent.boon pickup) in
               let state :=
                 GameStateManager.setPlayers
                   (mset k car (GameState.players state)) state in
               (bm, GameStateManager.setBoons (BoonManager.boons bm) state)
           | (None, bm) => (bm, state)
           end
       | None => acc
       end)
    cars acc.

(** The part of [tick] that follows the per-player updates (inputs,
    physics, weapon fire, shield and boost timers): bullets, car and
    wall collisions, boons, pickups, the win condition and the
    decimated broadcast. *)
Definition tickFromBullets (e : t) : M t :=
  let '(cs, state) :=
    CombatSystem.updateBullets (combatSystem e) (stateManager e) in
  let cars :=
    map fst
      (List.filter (fun kc : string * CarState.t =>
                      Rgtb (CarState.health (snd kc)) 0)
         (GameState.players state)) in
  let '(players, _) :=
    CollisionSystem.checkAllCarCollisions cars (GameState.players state) in
  let walls := GameState.walls state in
  let players :=
    CollisionSystem.checkAllCarWallCollisions cars walls players in
  let state := GameStateManager.setPlayers players state in
  bm <- BoonManager.update (boonManager e) walls ;;
  let state := GameStateManager.setBoons (BoonManager.boons bm) state in
  let '(bm, state) := checkBoonPickups cars (bm, state) in
  let e := checkWinCondition (mk cs bm state (tickCounter e) (events e)) in
  let counter := S (tickCounter e) in
  if GameStateManager.isPlaying (stateManager e)
     && Nat.leb TICKS_PER_NETWORK_UPDATE counter
  then
    ret (mk (combatSystem e) (boonManager e) (stateManager e) 0
           (events e ++ [onGameUpdate]))
  else
    ret (mk (combatSystem e) (boonManager e) (stateManager e) counter
           (events e)).

End GameEngine.
(** ** Math utilities (shared/utils/math) *)

Definition clamp (value min max : R) : R := Rmax min (Rmin max value).

Definition lerp (start end_ t : R) : R := start + (end_ - start) * t.

Definition randomRange (min max : R) : M R :=
  r <- Math_random ;;
  ret (r * (max - min) + min).

Definition randomInt (min max : R) : M R :=
  r <- Math_random ;;
  ret (floor (r * (max - min + 1)) + min).

Definition degToRad (degrees : R) : R := degrees * (PI / 180).

Definition radToDeg (radians : R) : R := radians * (180 / PI).

(** [while (angle > Math.PI) angle -= 2 * Math.PI;
     while (angle < -Math.PI) angle += 2 * Math.PI]: the two loops are
    those of [rotateTowardsTarget], and like them they do not end on
    an angle that a full turn leaves unchanged. *)
Definition normalizeAngle (angle : R) : option R :=
  match PhysicsSystem.normalizeDown angle with
  | None => None
  | Some angle => PhysicsSystem.normalizeUp angle
  end.

(** ** Wall generation (shared/utils/walls) *)

Definition WALL_THICKNESS : R := 20.
Definition WALL_MIN_LENGTH : R := 80.
Definition WALL_MAX_LENGTH : R := 180.
Definition WALL_COUNT : nat := 8.
Definition WALL_SPAWN_MARGIN : R := 200.

(** [Object.keys(WALL_MATERIAL_WEIGHTS)] with the weights, in
    declaration order. *)
Definition WALL_MATERIAL_WEIGHTS : list (WallMaterial * R) :=
  [(concrete, 35); (wood, 30); (metal, 20); (glass, 15)].

(** The loop of [selectRandomMaterial]: [None] when no entry brings
    [random] to 0 or below. *)
Fixpoint pickMaterial (random : R) (entries : list (WallMaterial * R))
  : option WallMaterial :=
  match entries with
  | [] => None
  | (material, weight) :: rest =>
      let random := random - weight in
      if Rleb random 0 then Some material else pickMaterial random rest
  end.

Definition selectRandomMaterial : M WallMaterial :=
  let materials := map fst WALL_MATERIAL_WEIGHTS in
  let totalWeight :=
    fold_left (fun a b => a + b) (map snd WALL_MATERIAL_WEIGHTS) 0 in
  r <- Math_random ;;
  ret (match pickMaterial (r * totalWeight) WALL_MATERIAL_WEIGHTS with
       | Some material => material
       | None => hd concrete materials
       end).

Definition isTooCloseToSpawn (x y : R) : bool :=
  existsb
    (fun spawn : R * R =>
       let dx := x - fst spawn in
       let dy := y - snd spawn in
       let distance := sqrt (dx * dx + dy * dy) in
       Rltb distance WALL_SPAWN_MARGIN)
    PLAYER_SPAWN_POSITIONS.

Definition wallsOverlap (wall1 wall2 : Wall.t) (padding : R) : bool :=
  negb
    (Rltb (Wall.x wall1 + Wall.width wall1 / 2 + padding)
       (Wall.x wall2 - Wall.width wall2 / 2)
     || Rgtb (Wall.x wall1 - Wall.width wall1 / 2 - padding)
          (Wall.x wall2 + Wall.width wall2 / 2)
     || Rltb (Wall.y wall1 + Wall.height wall1 / 2 + padding)
          (Wall.y wall2 - Wall.height wall2 / 2)
     || Rgtb (Wall.y wall1 - Wall.height wall1 / 2 - padding)
          (Wall.y wall2 + Wall.height wall2 / 2)).

(** The padding is left at its default, 30. *)
Definition overlapsExisting (wall : Wall.t) (existingWalls : list Wall.t)
  : bool :=
  existsb (fun existing => wallsOverlap wall existing 30) existingWalls.

(** [EntityFactory.createWall]; the colour is left out. *)
Definition createWall (id : string) (x y width height : R)
    (material : WallMaterial) (health : R) : Wall.t :=
  Wall.mk id x y width height material health health.

(** [generateRandomWall], with the number of attempts left. *)
Fixpoint generateRandomWall (existingWalls : list Wall.t) (maxAttempts : nat)
  : M (option Wall.t) :=
  match maxAttempts with
  | O => ret None
  | S maxAttempts =>
      r <- Math_random ;;
      let isHorizontal := Rgtb r 0.5 in
      length <- randomRange WALL_MIN_LENGTH WALL_MAX_LENGTH ;;
      let width := if isHorizontal then length else WALL_THICKNESS in
      let height := if isHorizontal then WALL_THICKNESS else length in
      let margin := 80 in
      x <- randomRange (margin + width / 2)
             (GAME_WIDTH - margin - width / 2) ;;
      y <- randomRange (margin + height / 2)
             (GAME_HEIGHT - margin - height / 2) ;;
      if isTooCloseToSpawn x y then
        generateRandomWall existingWalls maxAttempts
      else
        material <- selectRandomMaterial ;;
        let materialConfig := WALL_MATERIALS material in
        id <- generateId "wall" ;;
        let wall :=
          createWall id x y width height material
            (WallMaterialConfig.health materialConfig) in
        if overlapsExisting wall existingWalls then
          generateRandomWall existingWalls maxAttempts
        else ret (Some wall)
  end.

Definition createCenterWall : M Wall.t :=
  let centerX := GAME_WIDTH / 2 in
  let centerY := GAME_HEIGHT / 2 in
  let length := 200 in
  let materialConfig := WALL_MATERIALS metal in
  id <- generateId "wall" ;;
  ret (createWall id centerX centerY WALL_THICKNESS length metal
         (WallMaterialConfig.health materialConfig)).

(** The loop of [generateWalls], with the number of walls still to
    try. *)
Fixpoint generateWallsFrom (n : nat) (walls : list Wall.t)
  : M (list Wall.t) :=
  match n with
  | O => ret walls
  | S n =>
      wall <- generateRandomWall walls 50 ;;
      generateWallsFrom n
        (match wall with
         | Some wall => walls ++ [wall]
         | None => walls
         end)
  end.

(** [generateWalls(count)], for a count that is a natural number. *)
Definition generateWalls (count : nat) : M (list Wall.t) :=
  center <- createCenterWall ;;
  generateWallsFrom (count - 1) [center].

Definition isPointInWall (x y : R) (wall : Wall.t) : bool :=
  Rgeb x (Wall.x wall - Wall.width wall / 2)
  && Rleb x (Wall.x wall + Wall.width wall / 2)
  && Rgeb y (Wall.y wall - Wall.height wall / 2)
  && Rleb y (Wall.y wall + Wall.height wall / 2).
(** ** PlayerManager (server/managers/PlayerManager.ts) *)

Definition createDefaultInput : PlayerInput.t :=
  PlayerInput.mk false false false false false false false false None false.

Module PlayerData.
Record t := mk {
  id : string;
  playerNumber : nat;
  input : PlayerInput.t;
  lastShootTime : Z;
  gliderTier : nat
}.

Definition with_playerNumber (v : nat) (p : t) : t :=
  mk (id p) v (input p) (lastShootTime p) (gliderTier p).
Definition with_input (v : PlayerInput.t) (p : t) : t :=
  mk (id p) (playerNumber p) v (lastShootTime p) (gliderTier p).
Definition with_lastShootTime (v : Z) (p : t) : t :=
  mk (id p) (playerNumber p) (input p) v (gliderTier p).
Definition with_gliderTier (v : nat) (p : t) : t :=
  mk (id p) (playerNumber p) (input p) (lastShootTime p) v.
End PlayerData.

Module PlayerManager.

(** The [players] map, in insertion order. *)
Abbreviation t := (list (string * PlayerData.t)).

Definition canAddPlayer (players : t) : bool :=
  Nat.ltb (length players) MAX_PLAYERS.

Definition getNextPlayerNumber (players : t) : nat :=
  let usedNumbers := map PlayerData.playerNumber (mvalues players) in
  match
    List.find (fun i => negb (existsb (Nat.eqb i) usedNumbers))
      (seq 1 MAX_PLAYERS)
  with
  | Some i => i
  | None => length players + 1
  end.

Definition addPlayer (gliderTier : nat) (players : t)
  : M (option PlayerData.t * t) :=
  if negb (canAddPlayer players) then ret (None, players)
  else
    let playerNumber := getNextPlayerNumber players in
    playerId <- generatePlayerId ;;
    let playerData :=
      PlayerData.mk playerId playerNumber createDefaultInput 0 gliderTier in
    ret (Some playerData, mset playerId playerData players).

Definition getPlayerCount (players : t) : nat := length players.

(** [const player = this.players.get(playerId); if (player) ...]: the
    common shape of the setters. *)
Definition updatePlayer (playerId : string)
    (f : PlayerData.t -> PlayerData.t) (players : t) : t :=
  match mget playerId players with
  | Some player => mset playerId (f player) players
  | None => players
  end.

Definition setGliderTier (playerId : string) (tier : nat) (players : t) : t :=
  updatePlayer playerId (PlayerData.with_gliderTier tier) players.

(** [Map.prototype.delete] reports whether the key was there. *)
Definition removePlayer (playerId : string) (players : t) : bool * t :=
  (mhas playerId players, mdelete playerId players).

Definition getPlayer (playerId : string) (players : t)
  : option PlayerData.t :=
  mget playerId players.

Definition getAllPlayers (players : t) : list PlayerData.t :=
  mvalues players.

Definition updateInput (playerId : string) (input : PlayerInput.t)
    (players : t) : t :=
  updatePlayer playerId (PlayerData.with_input input) players.

Definition resetShootTime (playerId : string) (players : t) : t :=
  updatePlayer playerId (PlayerData.with_lastShootTime 0) players.

Definition updateShootTime (playerId : string) (time : Z) (players : t) : t :=
  updatePlayer playerId (PlayerData.with_lastShootTime time) players.

(** [let num = 1; for (const player of this.players.values())
    player.playerNumber = num++], from the number [num] on. *)
Fixpoint reassignPlayerNumbersFrom (num : nat) (players : t) : t :=
  match players with
  | [] => []
  | (playerId, player) :: rest =>
      (playerId, PlayerData.with_playerNumber num player)
      :: reassignPlayerNumbersFrom (S num) rest
  end.

Definition reassignPlayerNumbers (players : t) : t :=
  reassignPlayerNumbersFrom 1 players.

Definition clear (players : t) : t := [].

End PlayerManager.

(** ** RoomManager (server/managers/RoomManager.ts) *)

(** A socket is known by its identity. *)
Definition WebSocket := nat.

Inductive ServerMessage :=
| matchmakingStatus (status : string) (queuePosition : option nat)
| matchFound (roomCode : string)
| waitingMessage (message : string).

(** [String.prototype.charAt] at the integer [i]. *)
Definition charAt (s : string) (i : Z) : string :=
  if (i <? 0)%Z then EmptyString
  else
    match String.get (Z.to_nat i) s with
    | Some c => String c EmptyString
    | None => EmptyString
    end.

Definition roomCodeChars : string := "ABCDEFGHJKLMNPQRSTUVWXYZ23456789".

Fixpoint generateRoomCodeFrom (n : nat) (code : string) : M string :=
  match n with
  | O => ret code
  | S n =>
      r <- Math_random ;;
      generateRoomCodeFrom n
        (String.append code
           (charAt roomCodeChars
              (Zfloor (r * INR (String.length roomCodeChars)))))
  end.

Definition generateRoomCode : M string := generateRoomCodeFrom 6 EmptyString.

(** [toUpperCase] and [trim] on the ASCII range. *)
Definition upperAscii (c : ascii) : ascii :=
  let n := nat_of_ascii c in
  if Nat.leb 97 n && Nat.leb n 122 then ascii_of_nat (n - 32) else c.

Fixpoint toUpperCase (s : string) : string :=
  match s with
  | EmptyString => EmptyString
  | String c rest => String (upperAscii c) (toUpperCase rest)
  end.

Definition isWhitespace (c : ascii) : bool :=
  let n := nat_of_ascii c in
  Nat.leb 9 n && Nat.leb n 13 || Nat.eqb n 32.

Fixpoint trimStart (s : string) : string :=
  match s with
  | EmptyString => EmptyString
  | String c rest => if isWhitespace c then trimStart rest else s
  end.

Fixpoint trimEnd (s : string) : string :=
  match s with
  | EmptyString => EmptyString
  | String c rest =>
      match trimEnd rest with
      | EmptyString => if isWhitespace c then EmptyString
                       else String c EmptyString
      | rest' => String c rest'
      end
  end.

Definition trim (s : string) : string := trimEnd (trimStart s).

Module GameRoom.
(** The room's engine, state manager and bot manager are left out: the
    registry and the matchmaking queue never read them. *)
Record t := mk {
  code : string;
  hostPlayerId : string;
  playerManager : PlayerManager.t;
  connections : list (string * WebSocket);
  createdAt : Z
}.
End GameRoom.

Module QueuedPlayer.
Record t := mk { ws : WebSocket; joinedAt : Z }.
End QueuedPlayer.

Module MatchResult.
Record t := mk {
  matched : bool;
  roomCode : option string;
  playerId : option string
}.
End MatchResult.

Module RoomManager.

(** [sent] collects the messages handed to [events.onSendToSocket],
    oldest first. *)
Record t := mk {
  rooms : gmap string GameRoom.t;
  playerToRoom : gmap string string;
  matchmakingQueue : list (WebSocket * QueuedPlayer.t);
  sent : list (WebSocket * ServerMessage)
}.

Definition setQueue (queue : list (WebSocket * QueuedPlayer.t)) (self : t) : t :=
  mk (rooms self) (playerToRoom self) queue (sent self).

Definition send (ws : WebSocket) (message : ServerMessage) (self : t) : t :=
  mk (rooms self) (playerToRoom self) (matchmakingQueue self)
    (sent self ++ [(ws, message)]).

(** [while (this.rooms.has(roomCode)) roomCode = generateRoomCode()] *)
Fixpoint freshRoomCode (fuel : nat) (rooms : gmap string GameRoom.t)
    (roomCode : string) : M string :=
  match rooms !! roomCode with
  | None => ret roomCode
  | Some _ =>
      match fuel with
      | O => diverge
      | S fuel =>
          roomCode <- generateRoomCode ;;
          freshRoomCode fuel rooms roomCode
      end
  end.

Definition createRoom (fuel : nat) (hostWs : WebSocket) (self : t)
  : M (option (string * string) * t) :=
  roomCode <- generateRoomCode ;;
  roomCode <- freshRoomCode fuel (rooms self) roomCode ;;
  added <- PlayerManager.addPlayer 3 [] ;;
  match added with
  | (None, _) => ret (None, self)
  | (Some hostData, playerManager) =>
      now <- Date_now ;;
      let room :=
        GameRoom.mk roomCode (PlayerData.id hostData) playerManager
          [(PlayerData.id hostData, hostWs)] now in
      ret (Some (roomCode, PlayerData.id hostData),
           mk (<[roomCode := room]> (rooms self))
             (<[PlayerData.id hostData := roomCode]> (playerToRoom self))
             (matchmakingQueue self) (sent self))
  end.

Definition joinRoom (ws : WebSocket) (roomCode : string) (self : t)
  : M (option (string * nat) * t) :=
  let normalizedCode := trim (toUpperCase roomCode) in
  match rooms self !! normalizedCode with
  | None => ret (None, self)
  | Some room =>
      if negb (PlayerManager.canAddPlayer (GameRoom.playerManager room))
      then ret (None, self)
      else
        added <- PlayerManager.addPlayer 3 (GameRoom.playerManager room) ;;
        match added with
        | (None, _) => ret (None, self)
        | (Some playerData, playerManager) =>
            let room :=
              GameRoom.mk (GameRoom.code room) (GameRoom.hostPlayerId room)
                playerManager
                (mset (PlayerData.id playerData) ws (GameRoom.connections room))
                (GameRoom.createdAt room) in
            let self :=
              mk (<[normalizedCode := room]> (rooms self))
                (<[PlayerData.id playerData := normalizedCode]>
                   (playerToRoom self))
                (matchmakingQueue self) (sent self) in
            let self :=
              match mget (GameRoom.hostPlayerId room)
                      (GameRoom.connections room) with
              | Some hostWs =>
                  send hostWs
                    (waitingMessage "Opponent joined! Starting game...") self
              | None => self
              end in
            ret (Some (PlayerData.id playerData,
                       PlayerManager.getPlayerCount playerManager),
                 self)
        end
  end.

(** The first queued socket, in queue order, other than [newPlayerWs]. *)
Fixpoint findOther (newPlayerWs : WebSocket)
    (queue : list (WebSocket * QueuedPlayer.t))
  : option (WebSocket * QueuedPlayer.t) :=
  match queue with
  | [] => None
  | (ws, player) :: rest =>
      if decide (ws <> newPlayerWs) then Some (ws, player)
      else findOther newPlayerWs rest
  end.

Definition tryMatchPlayers (fuel : nat) (newPlayerWs : WebSocket) (self : t)
  : M (MatchResult.t * t) :=
  if Nat.ltb (length (matchmakingQueue self)) 2 then
    ret (MatchResult.mk false None None, self)
  else
    match findOther newPlayerWs (matchmakingQueue self) with
    | None => ret (MatchResult.mk false None None, self)
    | Some (otherWs, otherPlayer) =>
        let self :=
          setQueue
            (mdelete otherWs (mdelete newPlayerWs (matchmakingQueue self)))
            self in
        created <- createRoom fuel otherWs self ;;
        match created with
        | (None, self) =>
            now1 <- Date_now ;;
            let self :=
              setQueue
                (mset newPlayerWs (QueuedPlayer.mk newPlayerWs now1)
                   (matchmakingQueue self)) self in
            now2 <- Date_now ;;
            let self :=
              setQueue
                (mset otherWs (QueuedPlayer.mk otherWs now2)
                   (matchmakingQueue self)) self in
            ret (MatchResult.mk false None None, self)
        | (Some (roomCode, _), self) =>
            let self := send otherWs (matchFound roomCode) self in
            joined <- joinRoom newPlayerWs roomCode self ;;
            match joined with
            | (None, self) => ret (MatchResult.mk false None None, self)
            | (Some (playerId, _), self) =>
                let self := send newPlayerWs (matchFound roomCode) self in
                ret (MatchResult.mk true (Some roomCode) (Some playerId), self)
            end
        end
    end.

Definition joinMatchmaking (fuel : nat) (ws : WebSocket) (self : t)
  : M (MatchResult.t * t) :=
  if mhas ws (matchmakingQueue self) then
    ret (MatchResult.mk false None None, self)
  else
    now <- Date_now ;;
    let self :=
      setQueue (mset ws (QueuedPlayer.mk ws now) (matchmakingQueue self))
        self in
    let self :=
      send ws
        (matchmakingStatus "searching"
           (Some (length (matchmakingQueue self)))) self in
    tryMatchPlayers fuel ws self.

Definition leaveMatchmaking (ws : WebSocket) (self : t) : t :=
  if mhas ws (matchmakingQueue self) then
    send ws (matchmakingStatus "cancelled" None)
      (setQueue (mdelete ws (matchmakingQueue self)) self)
  else self.

Definition isInMatchmaking (ws : WebSocket) (self : t) : bool :=
  mhas ws (matchmakingQueue self).

Definition getPlayerRoom (playerId : string) (self : t) : option string :=
  playerToRoom self !! playerId.

Definition getRoom (roomCode : string) (self : t) : option GameRoom.t :=
  rooms self !! toUpperCase roomCode.

Definition getPlayerSocket (playerId : string) (self : t)
  : option WebSocket :=
  match playerToRoom self !! playerId with
  | None => None
  | Some roomCode =>
      match rooms self !! roomCode with
      | None => None
      | Some room => mget playerId (GameRoom.connections room)
      end
  end.

End RoomManager.
(** ** Concrete scenarios *)

(** A tier-3 car at rest, facing along the x axis. *)
Definition exampleCar (id : string) (x y health shield : R) : CarState.t :=
  CarState.mk id x y 0 0 0 health 100 shield 50 0 0 false 100 100 0
    8 12 0.3 0.06 1 "default".

Definition exampleBullet (id ownerId : string) (x y velocityX damage : R)
  : Bullet.t :=
  Bullet.mk id ownerId x y velocityX 0 0 damage cannon CANNON_BULLET_SIZE
    "default".

Definition emptyCombat : CombatSystem.t := CombatSystem.mk 0 ∅ ∅ [].

(** Scenario C: player p2, at 10 health and 0 shield, is about to be hit
    by a 15-damage projectile of player p1. *)
Definition scenarioC : GameState.t :=
  GameState.mk
    [("p1"%string, exampleCar "p1" 150 400 100 50);
     ("p2"%string, exampleCar "p2" 1050 400 10 0)]
    [exampleBullet "bullet_0" "p1" 1028 400 12 15]
    [] [] playing None.

(** ** Vocabulary of the properties *)

(** The bounds that damage keeps: the shield within [[0, max]], and the
    health at most its maximum. *)
Definition carBounded (c : CarState.t) : Prop :=
  0 <= CarState.shield c <= CarState.maxShield c
  /\ CarState.health c <= CarState.maxHealth c.

Definition playersBounded (players : Players) : Prop :=
  Forall (fun kc => carBounded (snd kc)) players.

(** What a hit can change on its target. *)
Definition vitals (c : CarState.t) : R * R * R :=
  (CarState.health c, CarState.shield c, CarState.shieldRechargeTimer c).

(** A wall takes a bullet's hit when it has not been destroyed earlier
    in the same update and the bullet overlaps it. *)
Definition wallHit (b : Bullet.t) (wallsToRemove : gset string) (w : Wall.t)
  : Prop :=
  (Wall.id w ∉ wallsToRemove)
  /\ CollisionSystem.checkBulletWallCollision b w = true.

(** A player takes a bullet's hit when it is not the owner, is alive
    and the bullet overlaps it. *)
Definition hittable (b : Bullet.t) (players : Players) (k : string) : Prop :=
  k <> Bullet.ownerId b
  /\ exists c, mget k players = Some c
               /\ 0 < CarState.health c
               /\ CollisionSystem.checkBulletCarCollision b c = true.

(** The score that [applyDamage] leaves the shooter with. *)
Definition awarded (target shooter : CarState.t) : CarState.t :=
  let shooter :=
    CarState.with_score (CarState.score shooter + SCORE_PER_HIT) shooter in
  if Rleb (CarState.health target) 0
  then CarState.with_score (CarState.score shooter + SCORE_PER_KILL) shooter
  else shooter.

(** The distance between the centres of two cars. *)
Definition centerDistance (car1 car2 : CarState.t) : R :=
  let dx := CarState.x car1 - CarState.x car2 in
  let dy := CarState.y car1 - CarState.y car2 in
  sqrt (dx * dx + dy * dy).

(** Scenario B: a heavy-weapon projectile with damage 35 is about to
    reach a metal wall (damage resistance 0.5) of 300 health; player p2
    stands right behind the wall, within the projectile's reach. *)
Definition metalWall : Wall.t :=
  Wall.mk "wall_0" 1040 400 20 100 metal 300 300.

Definition scenarioB : GameState.t :=
  GameState.mk
    [("p1"%string, exampleCar "p1" 150 400 100 50);
     ("p2"%string, exampleCar "p2" 1050 400 100 50)]
    [exampleBullet "bullet_0" "p1" 1028 400 12 35]
    [metalWall] [] playing None.

(** The state the bullet loop starts from. *)
Definition loopStart (gs : GameState.t) : CombatSystem.Loop.t :=
  CombatSystem.Loop.mk (GameState.players gs) (GameState.walls gs) ∅ ∅ [].

(** What the loop keeps true of its walls: their ids are distinct, and
    a wall is marked for removal exactly when its health is at or
    below 0. *)
Definition wallsInvariant (st : CombatSystem.Loop.t) : Prop :=
  List.NoDup (map Wall.id (CombatSystem.Loop.walls st))
  /\ forall w, In w (CombatSystem.Loop.walls st) ->
       (Wall.id w ∈ CombatSystem.Loop.wallsToRemove st <-> Wall.health w <= 0).

(** The states a boon manager can be in: a fresh one, and whatever its
    methods make of a state it can be in. *)
Inductive boonsReachable : BoonManager.t -> Prop :=
| reach_create : boonsReachable BoonManager.create
| reach_update self walls w self' w' :
    boonsReachable self ->
    BoonManager.update self walls w = Some (self', w') ->
    boonsReachable self'
| reach_checkPickup self car :
    boonsReachable self ->
    boonsReachable (snd (BoonManager.checkPickup self car))
| reach_removeBoon self boonId :
    boonsReachable self -> boonsReachable (BoonManager.removeBoon boonId self)
| reach_clear self :
    boonsReachable self -> boonsReachable (BoonManager.clear self)
| reach_reset self :
    boonsReachable self -> boonsReachable (BoonManager.reset self).

(** A world whose clock stands at 0 and whose random numbers are all 0. *)
Definition stillWorld : World.t :=
  World.mk (fun _ => 0) 0 (fun _ => 0%Z) 0 (fun _ => EmptyString).

(** Scenario E: a boon manager that holds three power-ups, spawned at
    time 0. *)
Definition threeBoons : BoonManager.t :=
  BoonManager.mk
    [Boon.mk "boon_a" 300 200 BoonType.health 0 BOON_LIFETIME;
     Boon.mk "boon_b" 600 600 BoonType.shield 0 BOON_LIFETIME;
     Boon.mk "boon_c" 900 200 BoonType.speed 0 BOON_LIFETIME]
    0 BOON_SPAWN_INTERVAL.

(** A world whose clock stands at 20000 and whose random numbers are
    all 0. *)
Definition lateWorld : World.t :=
  World.mk (fun _ => 0) 0 (fun _ => 20000%Z) 0 (fun _ => EmptyString).

(** A boon manager that holds three power-ups, the first of which is
    older than its lifetime when the clock stands at 20000. *)
Definition agingBoons : BoonManager.t :=
  BoonManager.mk
    [Boon.mk "boon_a" 300 200 BoonType.health 0 BOON_LIFETIME;
     Boon.mk "boon_b" 600 600 BoonType.shield 10000 BOON_LIFETIME;
     Boon.mk "boon_c" 900 200 BoonType.speed 12000 BOON_LIFETIME]
    0 BOON_SPAWN_INTERVAL.

(** The tick ends the match with [winnerId]: status [gameover], the
    winner recorded (none for a draw), and the game-over event emitted. *)
Definition judgedOver (e : GameEngine.t) (w : World.t) (winnerId : string)
  : Prop :=
  exists e' w',
    GameEngine.tickFromBullets e w = Some (e', w')
    /\ GameState.gameStatus (GameEngine.stateManager e') = gameover
    /\ GameState.winner (GameEngine.stateManager e')
       = (if String.eqb winnerId "draw" then None else Some winnerId)
    /\ GameEngine.events e' = GameEngine.events e ++ [onGameOver winnerId].

(** The double hit: each player, at 10 health and 0 shield, is about
    to be hit by a 15-damage projectile of the other. *)
Definition doubleHit : GameState.t :=
  GameState.mk
    [("p1"%string, exampleCar "p1" 150 400 10 0);
     ("p2"%string, exampleCar "p2" 1050 400 10 0)]
    [exampleBullet "bullet_0" "p1" 1028 400 12 15;
     exampleBullet "bullet_1" "p2" 172 400 (-12) 15]
    [] [] playing None.

Definition engineOf (gs : GameState.t) : GameEngine.t :=
  GameEngine.mk emptyCombat BoonManager.create gs 0 [].

(** Two shots at one wall: a glass wall down to 10 health, player p2
    right behind it, and two projectiles of p1 that reach the wall in
    the same update, the cannon shell first. *)
Definition glassWall : Wall.t :=
  Wall.mk "wall_0" 1040 400 20 100 glass 10 40.

Definition secondShot : Bullet.t := exampleBullet "bullet_1" "p1" 1022 400 18 5.

Definition twoShots : GameState.t :=
  GameState.mk
    [("p1"%string, exampleCar "p1" 150 400 100 50);
     ("p2"%string, exampleCar "p2" 1050 400 100 50)]
    [exampleBullet "bullet_0" "p1" 1028 400 12 35; secondShot]
    [glassWall] [] playing None.

(** The weapon is still cooling down for the car at the instant [now]. *)
Definition coolingDown (now : Z) (car : CarState.t) (weaponType : WeaponType)
    (cooldownMap : gmap string Z) : Prop :=
  (now - default 0%Z (cooldownMap !! CarState.id car)
   < WeaponConfig.cooldown (WEAPON_CONFIGS weaponType))%Z.

(** The spawn point of the car's bullet overlaps some wall. *)
Definition spawnBlocked (car : CarState.t) (weaponType : WeaponType)
    (walls : list Wall.t) : Prop :=
  exists wall,
    In wall walls
    /\ rectangleIntersectsWall
         (Vector2.x (CombatSystem.spawnPosition car))
         (Vector2.y (CombatSystem.spawnPosition car))
         (WeaponConfig.size (WEAPON_CONFIGS weaponType))
         (WeaponConfig.size (WEAPON_CONFIGS weaponType)) wall = true.

(** Player p1's car, at its spawn position. *)
Definition carP1 : CarState.t := exampleCar "p1" 150 400 100 50.

(** A wall right in front of player p1's spawn position. *)
Definition blockingWall : Wall.t :=
  Wall.mk "wall_1" 185 400 20 100 concrete 200 200.

(** Two cars 5 apart, closing in on each other at relative speed 5. *)
Definition rammer : CarState.t :=
  CarState.with_velocityX 4 (exampleCar "p1" 100 100 100 50).

Definition rammed : CarState.t :=
  CarState.with_velocityY 3 (exampleCar "p2" 103 104 100 50).



(** The angle difference that [rotateTowardsTarget] steers by, once
    its two loops have returned. *)
Definition normalizedDiff (car : CarState.t) (targetAngle : R) : option R :=
  match PhysicsSystem.normalizeDown (targetAngle - CarState.angle car) with
  | None => None
  | Some angleDiff => PhysicsSystem.normalizeUp angleDiff
  end.

(** The input of a client that steers by mouse towards [targetAngle]
    and holds nothing else. *)
Definition aimingAt (targetAngle : R) : PlayerInput.t :=
  PlayerInput.mk false false false false false false false false
    (Some targetAngle) true.



(** A string of characters that are neither white space nor lower
    case: [toUpperCase] and [trim] leave it as it is. *)
Fixpoint plainCode (s : string) : bool :=
  match s with
  | EmptyString => true
  | String c rest =>
      negb (isWhitespace c) && Ascii.eqb (upperAscii c) c && plainCode rest
  end.

(** A world whose clock advances by one at every reading. *)
Definition tickingWorld : World.t :=
  World.mk (fun _ => 0) 0 (fun n => Z.of_nat n) 0 (fun _ => "0"%string).

(** A room registry with no room and socket 7 waiting for a match. *)
Definition waitingManager : RoomManager.t :=
  RoomManager.mk ∅ ∅ [(7%nat, QueuedPlayer.mk 7%nat 0%Z)] [].

(** A world whose random numbers all lie in [[0, 1)], as those of
    [Math.random] do. *)
Definition fairWorld (w : World.t) : Prop :=
  forall n, 0 <= World.random w n < 1.

(** A wall that lies within the arena, at least [margin] away from
    its edges. *)
Definition wallInside (margin : R) (wall : Wall.t) : Prop :=
  margin <= Wall.x wall - Wall.width wall / 2
  /\ Wall.x wall + Wall.width wall / 2 <= GAME_WIDTH - margin
  /\ margin <= Wall.y wall - Wall.height wall / 2
  /\ Wall.y wall + Wall.height wall / 2 <= GAME_HEIGHT - margin.

(** What [generateRandomWall] makes sure of before it returns a wall:
    it overlaps none of the walls that exist, padding included, keeps
    clear of the spawn points, is at full health for its material and
    has the standard thickness one way or the other. *)
Definition freshWall (existingWalls : list Wall.t) (wall : Wall.t) : Prop :=
  overlapsExisting wall existingWalls = false
  /\ isTooCloseToSpawn (Wall.x wall) (Wall.y wall) = false
  /\ Wall.health wall = Wall.maxHealth wall
  /\ Wall.health wall
     = WallMaterialConfig.health (WALL_MATERIALS (Wall.material wall))
  /\ (Wall.height wall = WALL_THICKNESS \/ Wall.width wall = WALL_THICKNESS).

(** A car that has driven 5 deep into [blockingWall]. *)
Definition carInWall : CarState.t :=
  CarState.with_velocityX 4 (exampleCar "p1" 155 400 100 50).

(** What neither collisions with walls nor the physics step touch. *)
Definition combatStats (c : CarState.t) : string * R * R * R * R * Z :=
  (CarState.id c, CarState.health c, CarState.maxHealth c, CarState.shield c,
   CarState.maxShield c, CarState.score c).

(** The stats of a car that its glider tier fixes. *)
Definition tuning (c : CarState.t) : R * R * R * R :=
  (CarState.maxSpeed c, CarState.boostSpeed c, CarState.acceleration c,
   CarState.turnSpeed c).

(** A boon is within a car's reach when their centres are less than
    the pickup radius plus half a car width apart. *)
Definition inReach (car : CarState.t) (boon : Boon.t) : Prop :=
  sqrt ((CarState.x car - Boon.x boon) * (CarState.x car - Boon.x boon)
        + (CarState.y car - Boon.y boon) * (CarState.y car - Boon.y boon))
  < BOON_PICKUP_RADIUS + CAR_WIDTH / 2.

(** The distance between two points of the arena. *)
Definition pointDistance (x1 y1 x2 y2 : R) : R :=
  sqrt ((x1 - x2) * (x1 - x2) + (y1 - y2) * (y1 - y2)).
(** * Properties *)

(** ** Basic facts about the comparisons and the ordered maps *)

Lemma Rltb_true_iff (a b : R) : Rltb a b = true <-> a < b.
Proof. unfold Rltb. destruct (Rlt_dec a b); split; intros; try easy. Qed.

Lemma Rltb_false_iff (a b : R) : Rltb a b = false <-> b <= a.
Proof.
  unfold Rltb. destruct (Rlt_dec a b); split; intros; try easy; lra.
Qed.

Lemma Rleb_true_iff (a b : R) : Rleb a b = true <-> a <= b.
Proof. unfold Rleb. rewrite negb_true_iff. apply Rltb_false_iff. Qed.

Lemma Rleb_false_iff (a b : R) : Rleb a b = false <-> b < a.
Proof. unfold Rleb. rewrite negb_false_iff. apply Rltb_true_iff. Qed.

Lemma Rgtb_true_iff (a b : R) : Rgtb a b = true <-> a > b.
Proof. unfold Rgtb. rewrite Rltb_true_iff. lra. Qed.

Lemma Rgtb_false_iff (a b : R) : Rgtb a b = false <-> a <= b.
Proof. unfold Rgtb. apply Rltb_false_iff. Qed.

Lemma Rgeb_true_iff (a b : R) : Rgeb a b = true <-> a >= b.
Proof. unfold Rgeb. rewrite negb_true_iff, Rltb_false_iff. lra. Qed.

Lemma Rgeb_false_iff (a b : R) : Rgeb a b = false <-> a < b.
Proof. unfold Rgeb. rewrite negb_false_iff. apply Rltb_true_iff. Qed.

(** Decide, innermost first, every comparison of the goal whose outcome
    linear arithmetic settles. *)
Ltac no_decision t :=
  lazymatch t with
  | context [Rcase_abs _] => fail
  | context [Rle_dec _ _] => fail
  | context [Rlt_dec _ _] => fail
  | _ => idtac
  end.

Ltac rcases :=
  unfold Rgeb, Rleb, Rgtb, Rltb, Rabs, Rmin, Rmax in *;
  repeat match goal with
    | |- context [Rcase_abs ?a] =>
        no_decision a; destruct (Rcase_abs a); try lra
    | |- context [Rle_dec ?a ?b] =>
        no_decision a; no_decision b; destruct (Rle_dec a b); try lra
    | |- context [Rlt_dec ?a ?b] =>
        no_decision a; no_decision b; destruct (Rlt_dec a b); try lra
    end.

(** The same for the comparisons that the hypotheses hold. *)
Ltac rhyps :=
  unfold Rgeb, Rleb, Rgtb, Rltb, Rabs, Rmin, Rmax in *;
  repeat match goal with
    | H : context [Rcase_abs ?a] |- _ =>
        no_decision a; destruct (Rcase_abs a); try lra
    | H : context [Rle_dec ?a ?b] |- _ =>
        no_decision a; no_decision b; destruct (Rle_dec a b); try lra
    | H : context [Rlt_dec ?a ?b] |- _ =>
        no_decision a; no_decision b; destruct (Rlt_dec a b); try lra
    end.

Lemma half_decimal : 0.5 = 1 / 2.
Proof. lra. Qed.

Lemma floor_le (v : R) : floor v <= v.
Proof. unfold floor. apply Zfloor_bound. Qed.

Lemma floor_nonneg (v : R) : 0 <= v -> 0 <= floor v.
Proof.
  intros H. unfold floor. apply IZR_le. apply Zfloor_lub. exact H.
Qed.

Section OrderedMapFacts.
Context {K V : Type} `{EqDecision K}.
Implicit Types (m : list (K * V)) (k : K) (v : V).

Lemma mget_mset_eq k v m : mget k (mset k v m) = Some v.
Proof.
  induction m as [|[k' v'] m IH]; simpl.
  - destruct (decide (k = k)); congruence.
  - destruct (decide (k = k')) as [->|Hne]; simpl.
    + destruct (decide (k' = k')); congruence.
    + destruct (decide (k = k')); [contradiction|exact IH].
Qed.

Lemma mget_mset_ne k k' v m : k <> k' -> mget k' (mset k v m) = mget k' m.
Proof.
  intros Hne. induction m as [|[k0 v0] m IH]; simpl.
  - destruct (decide (k' = k)); congruence.
  - destruct (decide (k = k0)) as [->|Hne0]; simpl.
    + destruct (decide (k' = k0)); congruence.
    + destruct (decide (k' = k0)); [reflexivity|exact IH].
Qed.

Lemma mkeys_mset_present k v m :
  is_Some (mget k m) -> mkeys (mset k v m) = mkeys m.
Proof.
  induction m as [|[k0 v0] m IH]; simpl; intros [x Hx]; [discriminate|].
  destruct (decide (k = k0)) as [->|Hne]; simpl; [reflexivity|].
  f_equal. apply IH. eauto.
Qed.

Lemma mget_Some_In k v m : mget k m = Some v -> In (k, v) m.
Proof.
  induction m as [|[k0 v0] m IH]; simpl; [discriminate|].
  destruct (decide (k = k0)) as [->|Hne]; intros Hg.
  - left. congruence.
  - right. auto.
Qed.

Lemma mget_None_keys k m : mget k m = None <-> ~ In k (mkeys m).
Proof.
  induction m as [|[k0 v0] m IH]; simpl; [tauto|].
  destruct (decide (k = k0)) as [->|Hne].
  - split; [discriminate|]. intros Hn. exfalso. apply Hn. now left.
  - rewrite IH. split; intros Hn; [intros [?|?]; [congruence|tauto]|tauto].
Qed.

Lemma mset_Forall (P : K * V -> Prop) k v m :
  Forall P m -> P (k, v) -> Forall P (mset k v m).
Proof.
  intros Hm Hkv. induction Hm as [|[k0 v0] m Hx Hm IH]; simpl.
  - constructor; [exact Hkv|constructor].
  - destruct (decide (k = k0)); constructor; assumption.
Qed.

Lemma mset_In_inv k v m k' v' :
  In (k', v') (mset k v m) -> (k' = k /\ v' = v) \/ In (k', v') m.
Proof.
  induction m as [|[k0 v0] m IH]; simpl.
  - intros [Heq|[]]. left. split; congruence.
  - destruct (decide (k = k0)) as [->|Hne]; simpl.
    + intros [Heq|Hin]; [left; split; congruence|right; now right].
    + intros [Heq|Hin]; [right; now left|].
      destruct (IH Hin) as [?|?]; [now left|right; now right].
Qed.

End OrderedMapFacts.

Section OrderedMapKeys.
Context {K V : Type} `{EqDecision K}.
Implicit Types (m : list (K * V)) (k : K) (v : V).

Lemma mhas_true_iff k m : mhas k m = true <-> In k (mkeys m).
Proof.
  unfold mhas. destruct (mget k m) as [v|] eqn:Hg.
  - split; [intros _|reflexivity].
    apply mget_Some_In in Hg. change k with (fst (k, v)). now apply in_map.
  - apply mget_None_keys in Hg. split; [discriminate|contradiction].
Qed.

Lemma mkeys_mset k v m :
  mkeys (mset k v m) = if mhas k m then mkeys m else mkeys m ++ [k].
Proof.
  unfold mhas, mkeys. induction m as [|[k0 v0] m IH]; cbn; [reflexivity|].
  destruct (decide (k = k0)) as [->|Hne]; cbn; [reflexivity|].
  rewrite IH. destruct (mget k m); reflexivity.
Qed.

Lemma mkeys_mdelete_In k k' m :
  In k' (mkeys (mdelete k m)) -> In k' (mkeys m).
Proof.
  unfold mkeys. induction m as [|[k0 v0] m IH]; cbn; [tauto|].
  destruct (decide (k = k0)); cbn; [tauto|]. intros [?|?]; auto.
Qed.

Lemma mset_NoDup k v m :
  List.NoDup (mkeys m) -> List.NoDup (mkeys (mset k v m)).
Proof.
  intros Hnd. rewrite mkeys_mset. destruct (mhas k m) eqn:Hh; [exact Hnd|].
  assert (Hnin : ~ In k (mkeys m)).
  { intros Hin. apply mhas_true_iff in Hin. congruence. }
  clear Hh. induction (mkeys m) as [|a l IH]; cbn.
  - constructor; [intros []|constructor].
  - inversion Hnd as [|? ? Ha Hl]; subst. constructor.
    + rewrite in_app_iff. cbn. intros [?|[?|[]]]; [contradiction|].
      subst. apply Hnin. now left.
    + apply IH; [exact Hl|]. intros Hin. apply Hnin. now right.
Qed.

Lemma mdelete_NoDup k m :
  List.NoDup (mkeys m) -> List.NoDup (mkeys (mdelete k m)).
Proof.
  induction m as [|[k0 v0] m IH]; intros Hnd; [exact Hnd|].
  inversion Hnd as [|? ? Ha Hl]; subst. cbn [mdelete].
  destruct (decide (k = k0)); [exact Hl|].
  constructor; [|now apply IH].
  intros Hin. apply Ha. now apply (mkeys_mdelete_In k).
Qed.

Lemma mdelete_keys k m k' :
  List.NoDup (mkeys m) ->
  (In k' (mkeys (mdelete k m)) <-> In k' (mkeys m) /\ k' <> k).
Proof.
  induction m as [|[k0 v0] m IH]; intros Hnd; [cbn; tauto|].
  inversion Hnd as [|? ? Ha Hl]; subst. cbn [mdelete].
  destruct (decide (k = k0)) as [->|Hne];
    change (mkeys ((k0, v0) :: m)) with (k0 :: mkeys m);
    [|change (mkeys ((k0, v0) :: mdelete k m)) with (k0 :: mkeys (mdelete k m))];
    cbn [In].
  - split.
    + intros Hin. split; [now right|]. intros ->. contradiction.
    + intros [[?|?] Hn]; [congruence|assumption].
  - rewrite (IH Hl). split.
    + intros [<-|[? ?]]; [split; [now left|congruence]|split; [now right|assumption]].
    + intros [[?|?] Hn]; [now left|right; auto].
Qed.

End OrderedMapKeys.

Section OrderedMapDelete.
Context {K V : Type} `{EqDecision K}.
Implicit Types (m : list (K * V)) (k : K) (v : V).

Lemma mdelete_mset_fresh k v m :
  ~ In k (mkeys m) -> mdelete k (mset k v m) = m.
Proof.
  unfold mkeys. induction m as [|[k0 v0] m IH]; cbn; intros Hnin.
  - destruct (decide (k = k)); [reflexivity|congruence].
  - destruct (decide (k = k0)) as [->|Hne]; [tauto|]. cbn.
    destruct (decide (k = k0)); [congruence|]. rewrite IH; [reflexivity|tauto].
Qed.

End OrderedMapDelete.

(** ** Damage from a bullet hit *)

Lemma damageTarget_spec (b : Bullet.t) (c : CarState.t) :
  0 <= Bullet.damage b -> 0 <= CarState.shield c ->
  let c' := CombatSystem.damageTarget b c in
  CarState.shield c' = CarState.shield c - Rmin (CarState.shield c) (Bullet.damage b)
  /\ CarState.health c'
     = CarState.health c - (Bullet.damage b - Rmin (CarState.shield c) (Bullet.damage b))
  /\ CarState.shieldRechargeTimer c' = SHIELD_RECHARGE_DELAY
  /\ CarState.maxHealth c' = CarState.maxHealth c
  /\ CarState.maxShield c' = CarState.maxShield c
  /\ CarState.id c' = CarState.id c
  /\ CarState.score c' = CarState.score c.
Proof.
  intros Hd Hs. unfold CombatSystem.damageTarget.
  destruct (Rgtb (CarState.shield c) 0) eqn:E1; cbn.
  - apply Rgtb_true_iff in E1.
    destruct (Rgtb (Bullet.damage b - Rmin (CarState.shield c) (Bullet.damage b)) 0)
      eqn:E2; cbn; repeat split; try reflexivity; try lra.
    apply Rgtb_false_iff in E2.
    unfold Rmin in *.
    destruct (Rle_dec (CarState.shield c) (Bullet.damage b)); lra.
  - apply Rgtb_false_iff in E1.
    assert (Hz : CarState.shield c = 0) by lra.
    assert (Hm : Rmin (CarState.shield c) (Bullet.damage b) = 0).
    { rewrite Hz. unfold Rmin. destruct (Rle_dec 0 (Bullet.damage b)); lra. }
    destruct (Rgtb (Bullet.damage b) 0) eqn:E2; cbn;
      repeat split; try reflexivity; try lra.
    apply Rgtb_false_iff in E2. lra.
Qed.

Lemma damageTarget_bounded (b : Bullet.t) (c : CarState.t) :
  0 <= Bullet.damage b -> carBounded c ->
  carBounded (CombatSystem.damageTarget b c).
Proof.
  intros Hd [[Hs0 Hs1] Hh].
  destruct (damageTarget_spec b c Hd Hs0) as (E1 & E2 & _ & E4 & E5 & _).
  unfold carBounded. rewrite E1, E2, E4, E5.
  unfold Rmin. destruct (Rle_dec (CarState.shield c) (Bullet.damage b)); lra.
Qed.

(** ** The store after [applyDamage] *)

Lemma applyDamage_lookup (b : Bullet.t) (t : string) (ps : Players)
    (c : CarState.t) (k : string) :
  mget t ps = Some c -> t <> Bullet.ownerId b ->
  mget k (CombatSystem.applyDamage b t ps)
  = if decide (k = Bullet.ownerId b) then
      awarded (CombatSystem.damageTarget b c) <$> mget k ps
    else if decide (k = t) then Some (CombatSystem.damageTarget b c)
    else mget k ps.
Proof.
  intros Ht Hne. unfold CombatSystem.applyDamage. rewrite Ht.
  rewrite (mget_mset_ne t (Bullet.ownerId b)) by exact Hne.
  destruct (decide (k = Bullet.ownerId b)) as [->|Hko].
  - destruct (mget (Bullet.ownerId b) ps) as [s|] eqn:Hs; cbn.
    + rewrite mget_mset_eq. reflexivity.
    + rewrite mget_mset_ne by exact Hne. exact Hs.
  - destruct (decide (k = t)) as [->|Hkt].
    + destruct (mget (Bullet.ownerId b) ps) as [s|] eqn:Hs.
      * rewrite mget_mset_ne by congruence. apply mget_mset_eq.
      * apply mget_mset_eq.
    + destruct (mget (Bullet.ownerId b) ps) as [s|] eqn:Hs.
      * rewrite mget_mset_ne by congruence.
        apply mget_mset_ne. congruence.
      * apply mget_mset_ne. congruence.
Qed.

Lemma applyDamage_lookup_target (b : Bullet.t) (t : string) (ps : Players)
    (c : CarState.t) :
  mget t ps = Some c -> t <> Bullet.ownerId b ->
  mget t (CombatSystem.applyDamage b t ps)
  = Some (CombatSystem.damageTarget b c).
Proof.
  intros Ht Hne. rewrite (applyDamage_lookup b t ps c t Ht Hne).
  destruct (decide (t = Bullet.ownerId b)); [contradiction|].
  destruct (decide (t = t)); [reflexivity|contradiction].
Qed.

Lemma applyDamage_lookup_owner (b : Bullet.t) (t : string) (ps : Players)
    (c : CarState.t) :
  mget t ps = Some c -> t <> Bullet.ownerId b ->
  mget (Bullet.ownerId b) (CombatSystem.applyDamage b t ps)
  = awarded (CombatSystem.damageTarget b c) <$> mget (Bullet.ownerId b) ps.
Proof.
  intros Ht Hne.
  rewrite (applyDamage_lookup b t ps c (Bullet.ownerId b) Ht Hne).
  destruct (decide (Bullet.ownerId b = Bullet.ownerId b));
    [reflexivity|contradiction].
Qed.

Lemma awarded_vitals (t s : CarState.t) : vitals (awarded t s) = vitals s.
Proof. unfold awarded. destruct (Rleb (CarState.health t) 0); reflexivity. Qed.

Lemma awarded_bounded (t s : CarState.t) : carBounded s -> carBounded (awarded t s).
Proof.
  unfold awarded, carBounded.
  destruct (Rleb (CarState.health t) 0); cbn; tauto.
Qed.

Lemma applyDamage_keys (b : Bullet.t) (t : string) (ps : Players) :
  mkeys (CombatSystem.applyDamage b t ps) = mkeys ps.
Proof.
  unfold CombatSystem.applyDamage.
  destruct (mget t ps) as [c|] eqn:Ht; [|reflexivity].
  destruct (mget (Bullet.ownerId b) (mset t (CombatSystem.damageTarget b c) ps))
    as [s|] eqn:Hs.
  - rewrite mkeys_mset_present by eauto.
    apply mkeys_mset_present. eauto.
  - apply mkeys_mset_present. eauto.
Qed.

Lemma applyDamage_bounded (b : Bullet.t) (t : string) (ps : Players) :
  0 <= Bullet.damage b -> playersBounded ps ->
  playersBounded (CombatSystem.applyDamage b t ps).
Proof.
  intros Hd Hps. unfold CombatSystem.applyDamage.
  destruct (mget t ps) as [c|] eqn:Ht; [|exact Hps].
  assert (Hc : carBounded c).
  { apply mget_Some_In in Ht.
    unfold playersBounded in Hps. rewrite List.Forall_forall in Hps.
    exact (Hps _ Ht). }
  assert (Hps1 : playersBounded (mset t (CombatSystem.damageTarget b c) ps)).
  { apply mset_Forall; [exact Hps|]. cbn. now apply damageTarget_bounded. }
  destruct (mget (Bullet.ownerId b) (mset t (CombatSystem.damageTarget b c) ps))
    as [s|] eqn:Hs; [|exact Hps1].
  apply mset_Forall; [exact Hps1|]. cbn.
  apply (awarded_bounded (CombatSystem.damageTarget b c) s).
  apply mget_Some_In in Hs.
  unfold playersBounded in Hps1. rewrite List.Forall_forall in Hps1.
  exact (Hps1 _ Hs).
Qed.

(** ** The two inner loops of [updateBullets] *)

Lemma wallLoop_first (b : Bullet.t) (rm : gset string)
    (pre : list Wall.t) (w : Wall.t) (post : list Wall.t) :
  (forall w0, In w0 pre -> ~ wallHit b rm w0) -> wallHit b rm w ->
  CombatSystem.wallLoop b rm (pre ++ w :: post)
  = Some (pre ++ fst (CombatSystem.applyWallDamage b w) :: post,
          snd (CombatSystem.applyWallDamage b w)).
Proof.
  intros Hpre [Hw1 Hw2]. induction pre as [|w0 pre IH]; cbn.
  - destruct (decide (Wall.id w ∈ rm)); [contradiction|].
    rewrite Hw2. destruct (CombatSystem.applyWallDamage b w); reflexivity.
  - rewrite IH by (intros; apply Hpre; now right).
    destruct (decide (Wall.id w0 ∈ rm)); [reflexivity|].
    destruct (CollisionSystem.checkBulletWallCollision b w0) eqn:E;
      [|reflexivity].
    exfalso. apply (Hpre w0); [now left|]. split; assumption.
Qed.

Lemma wallLoop_None (b : Bullet.t) (rm : gset string) (walls : list Wall.t) :
  CombatSystem.wallLoop b rm walls = None
  <-> (forall w, In w walls -> ~ wallHit b rm w).
Proof.
  induction walls as [|w walls IH]; cbn.
  - split; [intros _ w []|reflexivity].
  - destruct (decide (Wall.id w ∈ rm)) as [Hin|Hnin].
    + destruct (CombatSystem.wallLoop b rm walls) as [[ws r]|] eqn:E.
      * split; [discriminate|]. intros H.
        assert (Some (ws, r) = None)
          by (apply IH; intros; apply H; now right).
        discriminate.
      * split; [|reflexivity]. intros _ w0 [<-|Hin0].
        -- intros [Hn _]. contradiction.
        -- apply IH; [reflexivity|exact Hin0].
    + destruct (CollisionSystem.checkBulletWallCollision b w) eqn:Ec.
      * destruct (CombatSystem.applyWallDamage b w) as [w' r].
        split; [discriminate|]. intros H. exfalso.
        apply (H w); [now left|]. split; assumption.
      * destruct (CombatSystem.wallLoop b rm walls) as [[ws r]|] eqn:E.
        -- split; [discriminate|]. intros H.
           assert (Some (ws, r) = None)
             by (apply IH; intros; apply H; now right).
           discriminate.
        -- split; [|reflexivity]. intros _ w0 [<-|Hin0].
           ++ intros [_ Hc]. congruence.
           ++ apply IH; [reflexivity|exact Hin0].
Qed.

Lemma wallLoop_Some (b : Bullet.t) (rm : gset string) (walls walls' : list Wall.t)
    (r : WallDamageResult.t) :
  CombatSystem.wallLoop b rm walls = Some (walls', r) ->
  exists pre w post,
    walls = pre ++ w :: post
    /\ (forall w0, In w0 pre -> ~ wallHit b rm w0)
    /\ wallHit b rm w
    /\ walls' = pre ++ fst (CombatSystem.applyWallDamage b w) :: post
    /\ r = snd (CombatSystem.applyWallDamage b w).
Proof.
  revert walls'. induction walls as [|w walls IH]; cbn; intros walls' H;
    [discriminate|].
  destruct (decide (Wall.id w ∈ rm)) as [Hin|Hnin].
  - destruct (CombatSystem.wallLoop b rm walls) as [[ws r0]|] eqn:E;
      [|discriminate].
    injection H as <- <-.
    destruct (IH ws eq_refl) as (pre & w1 & post & -> & Hpre & Hw & -> & ->).
    exists (w :: pre), w1, post. repeat split; try reflexivity; try apply Hw.
    intros w0 [<-|Hin0]; [intros [Hn _]; contradiction|now apply Hpre].
  - destruct (CollisionSystem.checkBulletWallCollision b w) eqn:Ec.
    + injection H as <- <-.
      exists [], w, walls. repeat split; try assumption; try reflexivity.
      intros w0 [].
    + destruct (CombatSystem.wallLoop b rm walls) as [[ws r0]|] eqn:E;
        [|discriminate].
      injection H as <- <-.
      destruct (IH ws eq_refl) as (pre & w1 & post & -> & Hpre & Hw & -> & ->).
      exists (w :: pre), w1, post. repeat split; try reflexivity; try apply Hw.
      intros w0 [<-|Hin0]; [intros [_ Hc]; congruence|now apply Hpre].
Qed.

Lemma playerLoop_first (b : Bullet.t) (ps : Players)
    (pre : list string) (t : string) (post : list string) :
  (forall k, In k pre -> ~ hittable b ps k) -> hittable b ps t ->
  CombatSystem.playerLoop b (pre ++ t :: post) ps
  = Some (CombatSystem.applyDamage b t ps).
Proof.
  intros Hpre (Hne & c & Hc & Hh & Hx). induction pre as [|k pre IH]; cbn.
  - destruct (decide (t = Bullet.ownerId b)); [contradiction|].
    rewrite Hc. replace (Rleb (CarState.health c) 0) with false
      by (symmetry; now apply Rleb_false_iff).
    rewrite Hx. reflexivity.
  - rewrite IH by (intros; apply Hpre; now right).
    destruct (decide (k = Bullet.ownerId b)); [reflexivity|].
    destruct (mget k ps) as [ck|] eqn:Hk; [|reflexivity].
    destruct (Rleb (CarState.health ck) 0) eqn:Hd; [reflexivity|].
    destruct (CollisionSystem.checkBulletCarCollision b ck) eqn:Hcoll;
      [|reflexivity].
    exfalso. apply (Hpre k); [now left|]. split; [assumption|].
    exists ck. apply Rleb_false_iff in Hd. auto.
Qed.

Lemma playerLoop_None (b : Bullet.t) (ps : Players) (keys : list string) :
  CombatSystem.playerLoop b keys ps = None
  <-> (forall k, In k keys -> ~ hittable b ps k).
Proof.
  induction keys as [|k keys IH]; cbn.
  - split; [intros _ k []|reflexivity].
  - destruct (decide (k = Bullet.ownerId b)) as [Ho|Ho].
    + rewrite IH. split.
      * intros H k0 [<-|Hin]; [intros [Hn _]; contradiction|now apply H].
      * intros H k0 Hin. apply H. now right.
    + destruct (mget k ps) as [ck|] eqn:Hk.
      * destruct (Rleb (CarState.health ck) 0) eqn:Hd.
        -- rewrite IH. apply Rleb_true_iff in Hd. split.
           ++ intros H k0 [<-|Hin]; [|now apply H].
              intros (_ & c & Hc & Hh & _). rewrite Hk in Hc.
              injection Hc as <-. lra.
           ++ intros H k0 Hin. apply H. now right.
        -- apply Rleb_false_iff in Hd.
           destruct (CollisionSystem.checkBulletCarCollision b ck) eqn:Hcoll.
           ++ split; [discriminate|]. intros H. exfalso.
              apply (H k); [now left|]. split; [assumption|]. eauto.
           ++ rewrite IH. split.
              ** intros H k0 [<-|Hin]; [|now apply H].
                 intros (_ & c & Hc & _ & Hx). rewrite Hk in Hc.
                 injection Hc as <-. congruence.
              ** intros H k0 Hin. apply H. now right.
      * rewrite IH. split.
        -- intros H k0 [<-|Hin]; [|now apply H].
           intros (_ & c & Hc & _). congruence.
        -- intros H k0 Hin. apply H. now right.
Qed.

Lemma playerLoop_Some (b : Bullet.t) (ps ps' : Players) (keys : list string) :
  CombatSystem.playerLoop b keys ps = Some ps' ->
  exists pre t post,
    keys = pre ++ t :: post
    /\ (forall k, In k pre -> ~ hittable b ps k)
    /\ hittable b ps t
    /\ ps' = CombatSystem.applyDamage b t ps.
Proof.
  induction keys as [|k keys IH]; cbn; intros H; [discriminate|].
  assert (Hrec : CombatSystem.playerLoop b keys ps = Some ps' ->
                 ~ hittable b ps k ->
                 exists pre t post,
                   k :: keys = pre ++ t :: post
                   /\ (forall k, In k pre -> ~ hittable b ps k)
                   /\ hittable b ps t
                   /\ ps' = CombatSystem.applyDamage b t ps).
  { intros Hl Hk. destruct (IH Hl) as (pre & t & post & -> & Hpre & Ht & ->).
    exists (k :: pre), t, post. repeat split; try apply Ht.
    intros k0 [<-|Hin]; [exact Hk|now apply Hpre]. }
  destruct (decide (k = Bullet.ownerId b)) as [Ho|Ho].
  { apply Hrec; [exact H|]. intros [Hn _]. contradiction. }
  destruct (mget k ps) as [ck|] eqn:Hk.
  2:{ apply Hrec; [exact H|]. intros (_ & c & Hc & _). congruence. }
  destruct (Rleb (CarState.health ck) 0) eqn:Hd.
  { apply Hrec; [exact H|]. apply Rleb_true_iff in Hd.
    intros (_ & c & Hc & Hh & _). rewrite Hk in Hc. injection Hc as <-. lra. }
  destruct (CollisionSystem.checkBulletCarCollision b ck) eqn:Hcoll.
  - injection H as <-. exists [], k, keys. apply Rleb_false_iff in Hd.
    repeat split; try assumption; [intros k0 []|]. eauto.
  - apply Hrec; [exact H|].
    intros (_ & c & Hc & _ & Hx). rewrite Hk in Hc. injection Hc as <-.
    congruence.
Qed.

(** ** One iteration of the bullet loop, case by case *)

Section BulletStep.
Variable st : CombatSystem.Loop.t.
Variable bullet : Bullet.t.
Let b := CombatSystem.moveBullet bullet.

Lemma bulletStep_oob :
  CollisionSystem.isBulletOutOfBounds b GAME_WIDTH GAME_HEIGHT = true ->
  CombatSystem.bulletStep st bullet
  = CombatSystem.Loop.mk (CombatSystem.Loop.players st)
      (CombatSystem.Loop.walls st)
      ({[Bullet.id b]} ∪ CombatSystem.Loop.bulletsToRemove st)
      (CombatSystem.Loop.wallsToRemove st) (CombatSystem.Loop.results st).
Proof.
  intros H. unfold CombatSystem.bulletStep. fold b. rewrite H. reflexivity.
Qed.

Lemma bulletStep_wall (walls' : list Wall.t) (r : WallDamageResult.t) :
  CollisionSystem.isBulletOutOfBounds b GAME_WIDTH GAME_HEIGHT = false ->
  CombatSystem.wallLoop b (CombatSystem.Loop.wallsToRemove st)
    (CombatSystem.Loop.walls st) = Some (walls', r) ->
  CombatSystem.bulletStep st bullet
  = CombatSystem.Loop.mk (CombatSystem.Loop.players st) walls'
      ({[Bullet.id b]} ∪ CombatSystem.Loop.bulletsToRemove st)
      (if WallDamageResult.destroyed r
       then {[WallDamageResult.wallId r]} ∪ CombatSystem.Loop.wallsToRemove st
       else CombatSystem.Loop.wallsToRemove st)
      (CombatSystem.Loop.results st ++ [r]).
Proof.
  intros H Hw. unfold CombatSystem.bulletStep. fold b. rewrite H, Hw. cbn.
  match goal with |- context [decide ?P] => destruct (decide P) as [_|Hn] end;
    [reflexivity|].
  exfalso. apply Hn. set_solver.
Qed.

Lemma bulletStep_player (players' : Players) :
  CollisionSystem.isBulletOutOfBounds b GAME_WIDTH GAME_HEIGHT = false ->
  CombatSystem.wallLoop b (CombatSystem.Loop.wallsToRemove st)
    (CombatSystem.Loop.walls st) = None ->
  Bullet.id b ∉ CombatSystem.Loop.bulletsToRemove st ->
  CombatSystem.playerLoop b (mkeys (CombatSystem.Loop.players st))
    (CombatSystem.Loop.players st) = Some players' ->
  CombatSystem.bulletStep st bullet
  = CombatSystem.Loop.mk players' (CombatSystem.Loop.walls st)
      ({[Bullet.id b]} ∪ CombatSystem.Loop.bulletsToRemove st)
      (CombatSystem.Loop.wallsToRemove st) (CombatSystem.Loop.results st).
Proof.
  intros H Hw Hid Hp. unfold CombatSystem.bulletStep. fold b.
  rewrite H, Hw.
  destruct (decide (Bullet.id b ∈ CombatSystem.Loop.bulletsToRemove st));
    [contradiction|].
  rewrite Hp. reflexivity.
Qed.

Lemma bulletStep_miss :
  CollisionSystem.isBulletOutOfBounds b GAME_WIDTH GAME_HEIGHT = false ->
  CombatSystem.wallLoop b (CombatSystem.Loop.wallsToRemove st)
    (CombatSystem.Loop.walls st) = None ->
  CombatSystem.playerLoop b (mkeys (CombatSystem.Loop.players st))
    (CombatSystem.Loop.players st) = None ->
  CombatSystem.bulletStep st bullet = st.
Proof.
  intros H Hw Hp. unfold CombatSystem.bulletStep. fold b.
  rewrite H, Hw, Hp.
  destruct (decide (Bullet.id b ∈ CombatSystem.Loop.bulletsToRemove st));
    reflexivity.
Qed.

Lemma bulletStep_duplicate :
  CollisionSystem.isBulletOutOfBounds b GAME_WIDTH GAME_HEIGHT = false ->
  CombatSystem.wallLoop b (CombatSystem.Loop.wallsToRemove st)
    (CombatSystem.Loop.walls st) = None ->
  Bullet.id b ∈ CombatSystem.Loop.bulletsToRemove st ->
  CombatSystem.bulletStep st bullet = st.
Proof.
  intros H Hw Hid. unfold CombatSystem.bulletStep. fold b.
  rewrite H, Hw.
  destruct (decide (Bullet.id b ∈ CombatSystem.Loop.bulletsToRemove st));
    [reflexivity|contradiction].
Qed.

(** The players after the step: untouched, or the first hittable player
    damaged, and then no wall was hit. *)
Lemma bulletStep_players :
  CombatSystem.Loop.players (CombatSystem.bulletStep st bullet)
  = CombatSystem.Loop.players st
  \/ exists t, hittable b (CombatSystem.Loop.players st) t
       /\ CombatSystem.Loop.players (CombatSystem.bulletStep st bullet)
          = CombatSystem.applyDamage b t (CombatSystem.Loop.players st).
Proof.
  destruct (CollisionSystem.isBulletOutOfBounds b GAME_WIDTH GAME_HEIGHT) eqn:Ho.
  { left. now rewrite bulletStep_oob. }
  destruct (CombatSystem.wallLoop b (CombatSystem.Loop.wallsToRemove st)
              (CombatSystem.Loop.walls st)) as [[ws r]|] eqn:Hw.
  { left. now rewrite (bulletStep_wall ws r). }
  destruct (decide (Bullet.id b ∈ CombatSystem.Loop.bulletsToRemove st)) as [Hid|Hid].
  { left. now rewrite bulletStep_duplicate. }
  destruct (CombatSystem.playerLoop b (mkeys (CombatSystem.Loop.players st))
              (CombatSystem.Loop.players st)) as [ps'|] eqn:Hp.
  - right. rewrite (bulletStep_player ps') by assumption. cbn.
    destruct (playerLoop_Some _ _ _ _ Hp) as (pre & t & post & _ & _ & Ht & ->).
    exists t. split; [exact Ht|reflexivity].
  - left. now rewrite bulletStep_miss.
Qed.

(** The walls after the step: untouched, or the first wall that takes
    the hit damaged and, when destroyed, marked for removal. *)
Lemma bulletStep_walls :
  (CombatSystem.Loop.walls (CombatSystem.bulletStep st bullet)
   = CombatSystem.Loop.walls st
   /\ CombatSystem.Loop.wallsToRemove (CombatSystem.bulletStep st bullet)
      = CombatSystem.Loop.wallsToRemove st)
  \/ exists pre w post,
       CombatSystem.Loop.walls st = pre ++ w :: post
       /\ wallHit b (CombatSystem.Loop.wallsToRemove st) w
       /\ CombatSystem.Loop.walls (CombatSystem.bulletStep st bullet)
          = pre ++ fst (CombatSystem.applyWallDamage b w) :: post
       /\ CombatSystem.Loop.wallsToRemove (CombatSystem.bulletStep st bullet)
          = if WallDamageResult.destroyed (snd (CombatSystem.applyWallDamage b w))
            then {[Wall.id w]} ∪ CombatSystem.Loop.wallsToRemove st
            else CombatSystem.Loop.wallsToRemove st.
Proof.
  destruct (CollisionSystem.isBulletOutOfBounds b GAME_WIDTH GAME_HEIGHT) eqn:Ho.
  { left. now rewrite bulletStep_oob. }
  destruct (CombatSystem.wallLoop b (CombatSystem.Loop.wallsToRemove st)
              (CombatSystem.Loop.walls st)) as [[ws r]|] eqn:Hw.
  { right. rewrite (bulletStep_wall ws r) by assumption. cbn.
    destruct (wallLoop_Some _ _ _ _ _ Hw) as (pre & w & post & E & _ & Hh & -> & ->).
    exists pre, w, post. repeat split; try assumption; try apply Hh. }
  left.
  destruct (decide (Bullet.id b ∈ CombatSystem.Loop.bulletsToRemove st)) as [Hid|Hid].
  { now rewrite bulletStep_duplicate. }
  destruct (CombatSystem.playerLoop b (mkeys (CombatSystem.Loop.players st))
              (CombatSystem.Loop.players st)) as [ps'|] eqn:Hp.
  - now rewrite (bulletStep_player ps').
  - now rewrite bulletStep_miss.
Qed.

End BulletStep.

(** A property of the loop state that every iteration keeps holds when
    the loop ends. *)
Lemma bulletLoop_invariant (P : CombatSystem.Loop.t -> Prop)
    (bullets : list Bullet.t) (st : CombatSystem.Loop.t) :
  P st ->
  (forall st b, In b bullets -> P st -> P (CombatSystem.bulletStep st b)) ->
  P (fold_left CombatSystem.bulletStep bullets st).
Proof.
  revert st. induction bullets as [|b bullets IH]; cbn; intros st H0 Hstep.
  - exact H0.
  - apply IH.
    + apply Hstep; [now left|exact H0].
    + intros st' b' Hin. apply Hstep. now right.
Qed.

(** ** Car-car collisions *)

Lemma checkCarCollision_far (car1 car2 : CarState.t) :
  CAR_WIDTH <= centerDistance car1 car2 ->
  CollisionSystem.checkCarCollision car1 car2
  = (car1, car2, CollisionResult.mk false None).
Proof.
  intros H. unfold CollisionSystem.checkCarCollision.
  fold (centerDistance car1 car2).
  replace (Rgeb (centerDistance car1 car2) CAR_WIDTH) with true; [reflexivity|].
  symmetry. apply Rgeb_true_iff. lra.
Qed.

(** The fields of both cars after a collision that is resolved. *)
Lemma checkCarCollision_near (car1 car2 : CarState.t) :
  centerDistance car1 car2 < CAR_WIDTH ->
  let d := centerDistance car1 car2 in
  let dx := CarState.x car1 - CarState.x car2 in
  let dy := CarState.y car1 - CarState.y car2 in
  let rs := PhysicsSystem.getRelativeSpeed car1 car2 in
  let damage :=
    if Rgtb rs COLLISION_DAMAGE_THRESHOLD
    then floor (rs * COLLISION_DAMAGE_MULTIPLIER) else 0 in
  let '(c1, c2, r) := CollisionSystem.checkCarCollision car1 car2 in
  r = CollisionResult.mk true (Some damage)
  /\ CarState.x c1 = CarState.x car1 + dx / d * (CAR_WIDTH - d) * 0.5
  /\ CarState.y c1 = CarState.y car1 + dy / d * (CAR_WIDTH - d) * 0.5
  /\ CarState.x c2 = CarState.x car2 - dx / d * (CAR_WIDTH - d) * 0.5
  /\ CarState.y c2 = CarState.y car2 - dy / d * (CAR_WIDTH - d) * 0.5
  /\ CarState.velocityX c1 = CarState.velocityX car2 * 0.5
  /\ CarState.velocityY c1 = CarState.velocityY car2 * 0.5
  /\ CarState.velocityX c2 = CarState.velocityX car1 * 0.5
  /\ CarState.velocityY c2 = CarState.velocityY car1 * 0.5
  /\ (CarState.health c1
      = if Rgtb rs COLLISION_DAMAGE_THRESHOLD
        then CarState.health car1 - damage else CarState.health car1)
  /\ (CarState.health c2
      = if Rgtb rs COLLISION_DAMAGE_THRESHOLD
        then CarState.health car2 - damage else CarState.health car2)
  /\ CarState.shield c1 = CarState.shield car1
  /\ CarState.shield c2 = CarState.shield car2
  /\ CarState.shieldRechargeTimer c1 = CarState.shieldRechargeTimer car1
  /\ CarState.shieldRechargeTimer c2 = CarState.shieldRechargeTimer car2
  /\ CarState.maxHealth c1 = CarState.maxHealth car1
  /\ CarState.maxHealth c2 = CarState.maxHealth car2
  /\ CarState.maxShield c1 = CarState.maxShield car1
  /\ CarState.maxShield c2 = CarState.maxShield car2
  /\ CarState.id c1 = CarState.id car1
  /\ CarState.id c2 = CarState.id car2
  /\ CarState.score c1 = CarState.score car1
  /\ CarState.score c2 = CarState.score car2.
Proof.
  intros H d dx dy rs damage.
  unfold CollisionSystem.checkCarCollision.
  fold (centerDistance car1 car2). fold d.
  replace (Rgeb d CAR_WIDTH) with false
    by (symmetry; apply Rgeb_false_iff; exact H).
  cbv zeta.
  set (p1 := CarState.with_y _ (CarState.with_x _ car1)).
  set (p2 := CarState.with_y _ (CarState.with_x _ car2)).
  change (PhysicsSystem.getRelativeSpeed p1 p2) with rs.
  unfold damage.
  destruct (Rgtb rs COLLISION_DAMAGE_THRESHOLD); cbn;
    repeat split; reflexivity.
Qed.

Lemma collision_damage_nonneg (rs : R) :
  rs > COLLISION_DAMAGE_THRESHOLD ->
  6 <= floor (rs * COLLISION_DAMAGE_MULTIPLIER).
Proof.
  unfold COLLISION_DAMAGE_THRESHOLD, COLLISION_DAMAGE_MULTIPLIER, floor.
  intros H. apply IZR_le. apply Zfloor_lub. lra.
Qed.

Lemma checkCarCollision_bounded (car1 car2 : CarState.t) :
  carBounded car1 -> carBounded car2 ->
  let '(c1, c2, _) := CollisionSystem.checkCarCollision car1 car2 in
  carBounded c1 /\ carBounded c2
  /\ CarState.health c1 <= CarState.health car1
  /\ CarState.health c2 <= CarState.health car2.
Proof.
  intros B1 B2.
  destruct (Rlt_dec (centerDistance car1 car2) CAR_WIDTH) as [Hn|Hf].
  - pose proof (checkCarCollision_near car1 car2 Hn) as S.
    destruct (CollisionSystem.checkCarCollision car1 car2) as [[c1 c2] r].
    cbv beta iota zeta in S.
    destruct S as (_ & _ & _ & _ & _ & _ & _ & _ & _ & Hh1 & Hh2 & Hs1 & Hs2
                   & _ & _ & Hm1 & Hm2 & Hx1 & Hx2 & _).
    unfold carBounded in *.
    rewrite Hs1, Hs2, Hm1, Hm2, Hx1, Hx2, Hh1, Hh2.
    destruct (Rgtb (PhysicsSystem.getRelativeSpeed car1 car2)
                COLLISION_DAMAGE_THRESHOLD) eqn:E.
    + apply Rgtb_true_iff in E. apply collision_damage_nonneg in E. lra.
    + lra.
  - rewrite checkCarCollision_far by lra. unfold carBounded in *. lra.
Qed.

Lemma collidePair_bounded (k1 k2 : string)
    (acc : Players * list CollisionResult.t) :
  playersBounded (fst acc) ->
  playersBounded (fst (CollisionSystem.collidePair k1 k2 acc)).
Proof.
  destruct acc as [ps rs]. cbn. intros Hps.
  unfold CollisionSystem.collidePair.
  destruct (mget k1 ps) as [c1|] eqn:H1; [|exact Hps].
  destruct (mget k2 ps) as [c2|] eqn:H2; [|exact Hps].
  destruct (Rleb (CarState.health c1) 0 || Rleb (CarState.health c2) 0);
    [exact Hps|].
  assert (B1 : carBounded c1).
  { apply mget_Some_In in H1. unfold playersBounded in Hps.
    rewrite List.Forall_forall in Hps. exact (Hps _ H1). }
  assert (B2 : carBounded c2).
  { apply mget_Some_In in H2. unfold playersBounded in Hps.
    rewrite List.Forall_forall in Hps. exact (Hps _ H2). }
  pose proof (checkCarCollision_bounded c1 c2 B1 B2) as S.
  destruct (CollisionSystem.checkCarCollision c1 c2) as [[c1' c2'] r].
  destruct S as (B1' & B2' & _).
  assert (playersBounded (mset k2 c2' (mset k1 c1' ps))).
  { apply mset_Forall; [apply mset_Forall|]; assumption. }
  destruct (CollisionResult.occurred r); cbn; assumption.
Qed.

Lemma checkAllCarCollisions_bounded (cars : list string) (ps : Players) :
  playersBounded ps ->
  playersBounded (fst (CollisionSystem.checkAllCarCollisions cars ps)).
Proof.
  unfold CollisionSystem.checkAllCarCollisions.
  generalize (@nil CollisionResult.t) as rs. revert ps.
  assert (Hinner : forall k1 rest acc,
             playersBounded (fst acc) ->
             playersBounded
               (fst (fold_left
                       (fun acc k2 => CollisionSystem.collidePair k1 k2 acc)
                       rest acc))).
  { intros k1 rest. induction rest as [|k2 rest IH]; cbn; intros acc Hacc.
    - exact Hacc.
    - apply IH. now apply collidePair_bounded. }
  induction cars as [|k1 rest IH]; cbn; intros ps rs Hps.
  - exact Hps.
  - pose proof (Hinner k1 rest (ps, rs) Hps) as Hb.
    destruct (fold_left (fun acc k2 => CollisionSystem.collidePair k1 k2 acc)
                rest (ps, rs)) as [ps' rs'].
    apply IH. exact Hb.
Qed.

(** ** The power-up manager *)

Lemma generateId_total (prefix : string) (w : World.t) :
  exists id,
    generateId prefix w
    = Some (id, World.afterRandom (World.afterClock w)).
Proof. eexists. reflexivity. Qed.

(** A spawn attempt always returns, and consumes random numbers. *)
Lemma trySpawnBoonFrom_total (attempts : nat) (self : BoonManager.t)
    (walls : list Wall.t) (w : World.t) :
  exists r w',
    BoonManager.trySpawnBoonFrom attempts self walls w = Some (r, w')
    /\ (attempts <> O -> (World.randomCalls w + 2 <= World.randomCalls w')%nat)
    /\ (World.randomCalls w <= World.randomCalls w')%nat.
Proof.
  revert w. induction attempts as [|n IH]; intros w.
  - exists None, w. cbn. split; [reflexivity|]. split; [congruence|lia].
  - cbn [BoonManager.trySpawnBoonFrom]. unfold bind at 1. cbn [Math_random].
    unfold bind at 1. cbn [Math_random].
    match goal with
    | |- context [BoonManager.isValidSpawnLocation ?s ?x ?y ?ws] =>
        destruct (BoonManager.isValidSpawnLocation s x y ws)
    end.
    + eexists _, _. split; [reflexivity|]. cbn. split; intros; lia.
    + destruct (IH (World.afterRandom (World.afterRandom w)))
        as (r & w' & Hr & _ & Hle).
      exists r, w'. split; [exact Hr|]. cbn in Hle. split; intros; lia.
Qed.

(** [update] unfolded: the clock is read once, expired boons go, and
    only then is the spawn decision taken, on what remains. *)
Lemma update_unfold (self : BoonManager.t) (walls : list Wall.t) (w : World.t) :
  let now := World.clock w (World.clockCalls w) in
  let kept :=
    BoonManager.mk (BoonManager.unexpired now (BoonManager.boons self))
      (BoonManager.lastSpawnTime self) (BoonManager.spawnInterval self) in
  BoonManager.update self walls w
  = if Nat.ltb (length (BoonManager.boons kept)) BOON_MAX_COUNT
       && (now - BoonManager.lastSpawnTime self
           >=? BoonManager.spawnInterval self)%Z
    then
      match BoonManager.trySpawnBoon kept walls (World.afterClock w) with
      | Some (Some newBoon, w') =>
          Some (BoonManager.mk (BoonManager.boons kept ++ [newBoon]) now
                  (BoonManager.spawnInterval self), w')
      | Some (None, w') => Some (kept, w')
      | None => None
      end
    else Some (kept, World.afterClock w).
Proof.
  cbv zeta. unfold BoonManager.update, bind at 1. cbn [Date_now].
  cbn [BoonManager.boons BoonManager.lastSpawnTime BoonManager.spawnInterval].
  match goal with
  | |- context [(?a && ?b)%bool] => destruct (a && b)%bool
  end; [|reflexivity].
  unfold bind.
  destruct (BoonManager.trySpawnBoon _ walls (World.afterClock w))
    as [[[newBoon|] w']|]; reflexivity.
Qed.

Lemma update_total (self : BoonManager.t) (walls : list Wall.t) (w : World.t) :
  exists self' w', BoonManager.update self walls w = Some (self', w').
Proof.
  rewrite update_unfold. cbv zeta.
  match goal with
  | |- context [(?a && ?b)%bool] => destruct (a && b)%bool
  end; [|eauto].
  unfold BoonManager.trySpawnBoon.
  match goal with
  | |- context [BoonManager.trySpawnBoonFrom ?n ?s ?ws ?w0] =>
      destruct (trySpawnBoonFrom_total n s ws w0) as (r & w' & -> & _)
  end.
  destruct r; eauto.
Qed.

(** ** The win condition *)

Lemma alive_dead_length (ps : list CarState.t) :
  (length (List.filter (fun p => Rgtb (CarState.health p) 0) ps)
   + length (List.filter (fun p => Rleb (CarState.health p) 0) ps)
   = length ps)%nat.
Proof.
  induction ps as [|p ps IH]; cbn; [reflexivity|].
  unfold Rleb, Rgtb in *.
  destruct (Rltb 0 (CarState.health p)); cbn; lia.
Qed.

Lemma checkWinCondition_cases (state : GameState.t) :
  let players := GameStateManager.getAllPlayers state in
  let alive := List.filter (fun p => Rgtb (CarState.health p) 0) players in
  ((length players < 2)%nat ->
   GameStateManager.checkWinCondition state = WinCheck.mk false None)
  /\ ((2 <= length players)%nat ->
      forall winner, alive = [winner] ->
      GameStateManager.checkWinCondition state
      = WinCheck.mk true (Some (CarState.id winner)))
  /\ ((2 <= length players)%nat -> alive = [] ->
      GameStateManager.checkWinCondition state
      = WinCheck.mk true (Some "draw"%string))
  /\ ((2 <= length players)%nat -> (2 <= length alive)%nat ->
      GameStateManager.checkWinCondition state = WinCheck.mk false None).
Proof.
  intros players alive.
  pose proof (alive_dead_length players) as Hlen.
  unfold GameStateManager.checkWinCondition.
  set (dead := List.filter (fun p => Rleb (CarState.health p) 0) _) in *.
  fold players. fold alive. fold alive in Hlen.
  clearbody dead alive players.
  repeat split.
  - intros H. apply Nat.ltb_lt in H. now rewrite H.
  - intros H winner ->.
    replace (Nat.ltb (length players) 2) with false
      by (symmetry; apply Nat.ltb_ge; exact H).
    destruct dead as [|d ds]; cbn in *; [lia|reflexivity].
  - intros H ->.
    replace (Nat.ltb (length players) 2) with false
      by (symmetry; apply Nat.ltb_ge; exact H).
    destruct dead as [|d ds]; cbn in *; [lia|reflexivity].
  - intros H Ha.
    replace (Nat.ltb (length players) 2) with false
      by (symmetry; apply Nat.ltb_ge; exact H).
    destruct (Nat.eqb _ 0); [reflexivity|].
    destruct alive as [|a [|a' rest]]; cbn in Ha; try lia. reflexivity.
Qed.

Lemma bulletLoop_keys (gs : GameState.t) :
  mkeys (CombatSystem.Loop.players (CombatSystem.bulletLoop gs))
  = mkeys (GameState.players gs).
Proof.
  unfold CombatSystem.bulletLoop.
  apply (bulletLoop_invariant
           (fun st => mkeys (CombatSystem.Loop.players st)
                      = mkeys (GameState.players gs))).
  - reflexivity.
  - intros st b _ Hst.
    destruct (bulletStep_players st b) as [->|(t & _ & ->)]; [exact Hst|].
    now rewrite applyDamage_keys.
Qed.

Lemma two_players_shape (ps : Players) (k1 k2 : string) :
  mkeys ps = [k1; k2] -> exists d1 d2, ps = [(k1, d1); (k2, d2)].
Proof.
  destruct ps as [|[a d1] [|[b d2] [|? ?]]]; cbn; intros H; try discriminate.
  injection H as -> ->. eauto.
Qed.

Lemma resolveCarWallCollision_keeps (car : CarState.t) (wall : Wall.t) :
  let car' := CollisionSystem.resolveCarWallCollision car wall in
  CarState.health car' = CarState.health car
  /\ CarState.id car' = CarState.id car
  /\ CarState.maxHealth car' = CarState.maxHealth car.
Proof.
  cbv zeta. unfold CollisionSystem.resolveCarWallCollision.
  repeat match goal with
         | |- context [Rltb ?a ?b] => destruct (Rltb a b)
         end; cbn; auto.
Qed.

Lemma wallFold_keeps (walls : list Wall.t) (car : CarState.t) :
  let car' :=
    fold_left
      (fun car wall =>
         if CollisionSystem.checkCarWallCollision car wall
         then CollisionSystem.resolveCarWallCollision car wall
         else car)
      walls car in
  CarState.health car' = CarState.health car
  /\ CarState.id car' = CarState.id car
  /\ CarState.maxHealth car' = CarState.maxHealth car.
Proof.
  cbv zeta. revert car. induction walls as [|wall walls IH]; cbn; intros car.
  - auto.
  - destruct (CollisionSystem.checkCarWallCollision car wall).
    + destruct (IH (CollisionSystem.resolveCarWallCollision car wall))
        as (H1 & H2 & H3).
      destruct (resolveCarWallCollision_keeps car wall) as (G1 & G2 & G3).
      cbv zeta in G1, G2, G3. rewrite H1, H2, H3. auto.
    + apply IH.
Qed.

Lemma applyBoonEffect_alive (car : CarState.t) (boon : Boon.t) :
  0 < CarState.health car -> 0 < CarState.maxHealth car ->
  let car' := BoonManager.applyBoonEffect car boon in
  0 < CarState.health car'
  /\ CarState.id car' = CarState.id car
  /\ CarState.maxHealth car' = CarState.maxHealth car.
Proof.
  intros Hh Hm. cbv zeta. unfold BoonManager.applyBoonEffect, BOON_EFFECTS.
  destruct (Boon.type boon); cbn; repeat split; try assumption;
    unfold Rmin;
    match goal with
    | |- context [Rle_dec ?a ?b] => destruct (Rle_dec a b); lra
    end.
Qed.

Lemma mset_same {K V : Type} `{EqDecision K} (k : K) (v : V)
    (m : list (K * V)) :
  mget k m = Some v -> mset k v m = m.
Proof.
  induction m as [|[k0 v0] m IH]; cbn; [discriminate|].
  destruct (decide (k = k0)) as [->|Hne]; intros H.
  - congruence.
  - f_equal. now apply IH.
Qed.

Lemma wallCollisions_single (k : string) (d : CarState.t) (walls : list Wall.t)
    (ps : Players) :
  mget k ps = Some d -> 0 < CarState.health d ->
  exists d',
    CollisionSystem.checkAllCarWallCollisions [k] walls ps = mset k d' ps
    /\ CarState.health d' = CarState.health d
    /\ CarState.id d' = CarState.id d
    /\ CarState.maxHealth d' = CarState.maxHealth d.
Proof.
  intros Hk Hh. unfold CollisionSystem.checkAllCarWallCollisions.
  cbn [fold_left]. rewrite Hk.
  replace (Rleb (CarState.health d) 0) with false
    by (symmetry; now apply Rleb_false_iff).
  eexists. split; [reflexivity|]. apply wallFold_keeps.
Qed.

(** What the pickups of the only living car leave behind. *)
Lemma checkBoonPickups_single (k : string) (d : CarState.t)
    (bm : BoonManager.t) (state : GameState.t) :
  mget k (GameState.players state) = Some d ->
  0 < CarState.health d -> 0 < CarState.maxHealth d ->
  exists bm' d' boons',
    GameEngine.checkBoonPickups [k] (bm, state)
    = (bm', GameStateManager.setBoons boons'
              (GameStateManager.setPlayers
                 (mset k d' (GameState.players state)) state))
    /\ 0 < CarState.health d'
    /\ CarState.id d' = CarState.id d.
Proof.
  intros Hk Hh Hm. unfold GameEngine.checkBoonPickups.
  cbn [fold_left]. rewrite Hk.
  destruct (BoonManager.checkPickup bm d) as [[pickup|] bm'] eqn:Hp.
  - destruct (applyBoonEffect_alive d (BoonPickupEvent.boon pickup) Hh Hm)
      as (Hh' & Hid' & _).
    eexists bm', _, _. split; [|split; [exact Hh'|exact Hid']].
    unfold GameStateManager.setBoons, GameStateManager.setPlayers. cbn.
    reflexivity.
  - exists bm', d, (GameState.boons state).
    split; [|split; [exact Hh|reflexivity]].
    rewrite (mset_same _ _ _ Hk).
    unfold GameStateManager.setBoons, GameStateManager.setPlayers.
    destruct state; reflexivity.
Qed.

(** The judgement at the end of the tick, on the players that the
    pickups left. *)
Lemma endGame_fields (winnerId : string) (e : GameEngine.t) :
  let e' := GameEngine.endGame winnerId e in
  GameState.gameStatus (GameEngine.stateManager e') = gameover
  /\ GameState.winner (GameEngine.stateManager e')
     = (if String.eqb winnerId "draw" then None else Some winnerId)
  /\ GameEngine.events e' = GameEngine.events e ++ [onGameOver winnerId].
Proof. cbn. auto. Qed.

Lemma tick_judged (e : GameEngine.t) (w : World.t) (winnerId : string)
    (cars : list string) :
  let '(cs, state) :=
    CombatSystem.updateBullets (GameEngine.combatSystem e)
      (GameEngine.stateManager e) in
  cars = map fst
           (List.filter (fun kc : string * CarState.t =>
                           Rgtb (CarState.health (snd kc)) 0)
              (GameState.players state)) ->
  (forall bm w',
      BoonManager.update (GameEngine.boonManager e) (GameState.walls state) w
      = Some (bm, w') ->
      GameStateManager.checkWinCondition
        (snd (GameEngine.checkBoonPickups cars
                (bm,
                 GameStateManager.setBoons (BoonManager.boons bm)
                   (GameStateManager.setPlayers
                      (CollisionSystem.checkAllCarWallCollisions cars
                         (GameState.walls state)
                         (fst (CollisionSystem.checkAllCarCollisions cars
                                 (GameState.players state))))
                      state))))
      = WinCheck.mk true (Some winnerId)) ->
  exists e' w',
    GameEngine.tickFromBullets e w = Some (e', w')
    /\ GameState.gameStatus (GameEngine.stateManager e') = gameover
    /\ GameState.winner (GameEngine.stateManager e')
       = (if String.eqb winnerId "draw" then None else Some winnerId)
    /\ GameEngine.events e' = GameEngine.events e ++ [onGameOver winnerId].
Proof.
  unfold GameEngine.tickFromBullets.
  destruct (CombatSystem.updateBullets _ _) as [cs state].
  intros -> Hjudge.
  set (cars := map fst _) in *.
  destruct (CollisionSystem.checkAllCarCollisions cars (GameState.players state))
    as [players results] eqn:Hcoll.
  cbn [fst] in Hjudge.
  destruct (update_total (GameEngine.boonManager e) (GameState.walls state) w)
    as (bm & w' & Hu).
  specialize (Hjudge bm w' Hu).
  unfold bind. rewrite Hu.
  destruct (GameEngine.checkBoonPickups cars _) as [bm' state'] eqn:Hp.
  cbn [snd] in Hjudge.
  unfold GameEngine.checkWinCondition.
  cbn [GameEngine.stateManager]. rewrite Hjudge. cbn [WinCheck.hasWinner WinCheck.winnerId].
  eexists _, _. split; [reflexivity|].
  cbn. auto.
Qed.

(** ** The physics steps *)

Lemma ABSORBS_TURN_PI : PI < PhysicsSystem.ABSORBS_TURN.
Proof. pose proof PI_4. unfold PhysicsSystem.ABSORBS_TURN. lra. Qed.

(** The first loop returns exactly on a value that a full turn still
    changes, or that needs no turn; it then returns the value brought
    down by whole turns to at most [PI]. *)
Lemma normalizeDown_spec (d : R) :
  (d <= PI -> PhysicsSystem.normalizeDown d = Some d)
  /\ (PhysicsSystem.ABSORBS_TURN < d -> PhysicsSystem.normalizeDown d = None)
  /\ (PI < d <= PhysicsSystem.ABSORBS_TURN ->
      exists (r : R) (k : nat),
        PhysicsSystem.normalizeDown d = Some r
        /\ - PI < r <= PI /\ r = d - 2 * PI * INR k).
Proof.
  funelim (PhysicsSystem.normalizeDown d); clear Heqcall;
    assert (HPI := PI_RGT_0); assert (HA := ABSORBS_TURN_PI).
  - split; [reflexivity|]. split; intros; lra.
  - split; [intros; lra|]. split; [reflexivity|intros; lra].
  - match goal with
    | IH : _ /\ _ |- _ => destruct IH as (H1 & _ & H3)
    end.
    split; [intros; lra|]. split; [intros; lra|]. intros _.
    destruct (Rle_dec (angleDiff - 2 * PI) PI) as [Hle|Hgt].
    + exists (angleDiff - 2 * PI), 1%nat. rewrite (H1 Hle). cbn.
      split; [reflexivity|]. lra.
    + destruct H3 as (r1 & k & Hr & Hrange & Hk); [lra|].
      exists r1, (S k). rewrite Hr, S_INR.
      split; [reflexivity|]. lra.
Qed.

Lemma normalizeUp_spec (d : R) :
  (- PI <= d -> PhysicsSystem.normalizeUp d = Some d)
  /\ (d < - PhysicsSystem.ABSORBS_TURN -> PhysicsSystem.normalizeUp d = None)
  /\ (- PhysicsSystem.ABSORBS_TURN <= d < - PI ->
      exists (r : R) (k : nat),
        PhysicsSystem.normalizeUp d = Some r
        /\ - PI <= r < PI /\ r = d + 2 * PI * INR k).
Proof.
  funelim (PhysicsSystem.normalizeUp d); clear Heqcall;
    assert (HPI := PI_RGT_0); assert (HA := ABSORBS_TURN_PI).
  - split; [reflexivity|]. split; intros; lra.
  - split; [intros; lra|]. split; [reflexivity|intros; lra].
  - match goal with
    | IH : _ /\ _ |- _ => destruct IH as (H1 & _ & H3)
    end.
    split; [intros; lra|]. split; [intros; lra|]. intros _.
    destruct (Rle_dec (- PI) (angleDiff + 2 * PI)) as [Hle|Hgt].
    + exists (angleDiff + 2 * PI), 1%nat. rewrite (H1 Hle). cbn.
      split; [reflexivity|]. lra.
    + destruct H3 as (r1 & k & Hr & Hrange & Hk); [lra|].
      exists r1, (S k). rewrite Hr, S_INR.
      split; [reflexivity|]. lra.
Qed.

(** The two loops one after the other, as [rotateTowardsTarget] and
    [normalizeAngle] run them. *)
Lemma normalize_both_spec (d : R) :
  let both :=
    match PhysicsSystem.normalizeDown d with
    | None => None
    | Some d' => PhysicsSystem.normalizeUp d'
    end in
  (PhysicsSystem.ABSORBS_TURN < Rabs d -> both = None)
  /\ (Rabs d <= PhysicsSystem.ABSORBS_TURN ->
      exists nd : R,
        both = Some nd
        /\ - PI <= nd <= PI
        /\ exists k : Z, nd = d + 2 * PI * IZR k)
  /\ (- PI <= d <= PI -> both = Some d).
Proof.
  assert (HPI := PI_RGT_0). assert (HA := ABSORBS_TURN_PI).
  cbv zeta.
  destruct (normalizeDown_spec d) as (D1 & D2 & D3).
  destruct (normalizeUp_spec d) as (U1 & U2 & U3).
  split; [|split].
  - intros Habs. unfold Rabs in Habs.
    destruct (Rcase_abs d) as [Hneg|Hpos].
    + rewrite D1 by lra. apply U2. lra.
    + now rewrite D2.
  - intros Habs.
    assert (Hd : - PhysicsSystem.ABSORBS_TURN <= d <= PhysicsSystem.ABSORBS_TURN)
      by (unfold Rabs in Habs; destruct (Rcase_abs d); lra).
    clear Habs.
    destruct (Rle_dec d PI) as [Hle|Hgt].
    + rewrite (D1 Hle).
      destruct (Rle_dec (- PI) d) as [Hlo|Hlo].
      * exists d. rewrite (U1 Hlo). split; [reflexivity|].
        split; [lra|]. exists 0%Z. lra.
      * destruct U3 as (r & k & Hr & Hrange & Hk); [lra|].
        exists r. split; [exact Hr|]. split; [lra|].
        exists (Z.of_nat k). rewrite <- INR_IZR_INZ. exact Hk.
    + destruct D3 as (r & k & Hr & Hrange & Hk); [lra|].
      rewrite Hr. destruct (normalizeUp_spec r) as (R1 & _ & _).
      exists r. rewrite R1 by lra. split; [reflexivity|].
      split; [lra|]. exists (- Z.of_nat k)%Z.
      rewrite opp_IZR, <- INR_IZR_INZ. lra.
  - intros [Hlo Hhi]. rewrite (D1 Hhi). exact (U1 Hlo).
Qed.

Lemma normalizedDiff_spec (car : CarState.t) (targetAngle : R) :
  let d := targetAngle - CarState.angle car in
  (PhysicsSystem.ABSORBS_TURN < Rabs d -> normalizedDiff car targetAngle = None)
  /\ (Rabs d <= PhysicsSystem.ABSORBS_TURN ->
      exists nd : R,
        normalizedDiff car targetAngle = Some nd
        /\ - PI <= nd <= PI
        /\ exists k : Z, nd = d + 2 * PI * IZR k).
Proof.
  cbv zeta.
  destruct (normalize_both_spec (targetAngle - CarState.angle car))
    as (H1 & H2 & _).
  split; assumption.
Qed.

(** [rotateTowardsTarget] returns when its loops do, and then steers
    by the normalised difference. *)
Lemma rotateTowardsTarget_spec (car : CarState.t) (targetAngle turnSpeed : R) :
  match normalizedDiff car targetAngle with
  | None => PhysicsSystem.rotateTowardsTarget car targetAngle turnSpeed = None
  | Some nd =>
      exists car',
        PhysicsSystem.rotateTowardsTarget car targetAngle turnSpeed = Some car'
        /\ car' = CarState.with_angle (CarState.angle car') car
        /\ (Rabs nd < turnSpeed -> CarState.angle car' = targetAngle)
        /\ (turnSpeed <= Rabs nd -> 0 < nd ->
            CarState.angle car' = CarState.angle car + turnSpeed)
        /\ (turnSpeed <= Rabs nd -> nd <= 0 ->
            CarState.angle car' = CarState.angle car - turnSpeed)
  end.
Proof.
  unfold normalizedDiff, PhysicsSystem.rotateTowardsTarget. cbv zeta.
  destruct (PhysicsSystem.normalizeDown (targetAngle - CarState.angle car))
    as [d1|]; [|reflexivity].
  destruct (PhysicsSystem.normalizeUp d1) as [nd|]; [|reflexivity].
  eexists. split; [reflexivity|].
  destruct (Rltb (Rabs nd) turnSpeed) eqn:E1.
  - apply Rltb_true_iff in E1.
    repeat split; intros; first [lra|reflexivity].
  - apply Rltb_false_iff in E1.
    destruct (Rgtb nd 0) eqn:E2.
    + apply Rgtb_true_iff in E2.
      repeat split; intros; first [lra|reflexivity].
    + apply Rgtb_false_iff in E2.
      repeat split; intros; first [lra|reflexivity].
Qed.

Lemma with_angle_same (car : CarState.t) :
  CarState.with_angle (CarState.angle car) car = car.
Proof. destruct car; reflexivity. Qed.

(** When the rotation step returns, and what it leaves alone. *)
Lemma applyRotation_returns (car : CarState.t) (input : PlayerInput.t) :
  (PhysicsSystem.applyRotation car input = None <->
   exists targetAngle,
     PlayerInput.useMouseControl input = true
     /\ PlayerInput.targetAngle input = Some targetAngle
     /\ PhysicsSystem.ABSORBS_TURN < Rabs (targetAngle - CarState.angle car))
  /\ (forall car',
        PhysicsSystem.applyRotation car input = Some car' ->
        car' = CarState.with_angle (CarState.angle car') car).
Proof.
  unfold PhysicsSystem.applyRotation. cbv zeta.
  destruct (PlayerInput.useMouseControl input) eqn:Hm.
  - destruct (PlayerInput.targetAngle input) as [targetAngle|] eqn:Ht.
    + pose proof (rotateTowardsTarget_spec car targetAngle
                    (CarState.turnSpeed car)) as Hrot.
      destruct (normalizedDiff_spec car targetAngle) as [Hnone Hsome].
      cbv zeta in Hnone, Hsome.
      destruct (normalizedDiff car targetAngle) as [nd|] eqn:Hnd.
      * destruct Hrot as (c & Hc & Hshape & _). rewrite Hc. split.
        -- split; [discriminate|].
           intros (t & _ & [= <-] & Habs). specialize (Hnone Habs).
           discriminate.
        -- intros car' [= <-]. exact Hshape.
      * rewrite Hrot. split; [|discriminate].
        split; [|reflexivity]. intros _. exists targetAngle.
        split; [reflexivity|]. split; [reflexivity|].
        destruct (Rlt_dec PhysicsSystem.ABSORBS_TURN
                    (Rabs (targetAngle - CarState.angle car))) as [H|H];
          [exact H|].
        destruct Hsome as (nd & Hn & _); [lra|]. discriminate.
    + split.
      * split; [discriminate|]. intros (t & _ & Hn & _). discriminate.
      * intros car' [= <-].
        destruct (PlayerInput.left input), (PlayerInput.right input);
          cbn; rewrite ?with_angle_same; reflexivity.
  - split.
    + split; [destruct (PlayerInput.targetAngle input); discriminate|].
      intros (t & Hn & _). discriminate.
    + intros car' H.
      destruct (PlayerInput.targetAngle input); injection H as <-;
        destruct (PlayerInput.left input), (PlayerInput.right input);
        cbn; rewrite ?with_angle_same; reflexivity.
Qed.

Lemma sqrt_scaled (a b r : R) :
  0 <= r -> sqrt ((a * r) ^ 2 + (b * r) ^ 2) = r * sqrt (a ^ 2 + b ^ 2).
Proof.
  intros Hr.
  replace ((a * r) ^ 2 + (b * r) ^ 2) with (r * r * (a ^ 2 + b ^ 2)) by ring.
  rewrite sqrt_mult_alt by nra.
  rewrite sqrt_square by exact Hr. reflexivity.
Qed.

Lemma limitSpeed_spec (car : CarState.t) (isBoosting : bool) :
  let cap :=
    if isBoosting then CarState.boostSpeed car else CarState.maxSpeed car in
  let car' := PhysicsSystem.limitSpeed car isBoosting in
  (PhysicsSystem.getSpeed car <= cap -> car' = car)
  /\ (cap < PhysicsSystem.getSpeed car ->
      CarState.velocityX car'
      = CarState.velocityX car * (cap / PhysicsSystem.getSpeed car)
      /\ CarState.velocityY car'
         = CarState.velocityY car * (cap / PhysicsSystem.getSpeed car)
      /\ (0 <= cap -> PhysicsSystem.getSpeed car' = cap)).
Proof.
  cbv zeta. unfold PhysicsSystem.limitSpeed.
  fold (PhysicsSystem.getSpeed car).
  set (cap := if isBoosting then CarState.boostSpeed car
              else CarState.maxSpeed car).
  set (speed := PhysicsSystem.getSpeed car).
  destruct (Rgtb speed cap) eqn:E.
  - apply Rgtb_true_iff in E. split; [intros; lra|]. intros _.
    split; [reflexivity|]. split; [reflexivity|].
    intros Hcap. unfold PhysicsSystem.getSpeed at 1. cbn.
    assert (Hs : 0 < speed) by lra.
    assert (Hr : 0 <= cap / speed).
    { apply Rmult_le_pos; [exact Hcap|].
      apply Rlt_le, Rinv_0_lt_compat; exact Hs. }
    pose proof (sqrt_scaled (CarState.velocityX car) (CarState.velocityY car)
                  (cap / speed) Hr) as Hsc.
    cbn in Hsc. rewrite Hsc.
    fold (PhysicsSystem.getSpeed car) in *.
    change (CarState.velocityX car * (CarState.velocityX car * 1)
            + CarState.velocityY car * (CarState.velocityY car * 1))
      with (CarState.velocityX car ^ 2 + CarState.velocityY car ^ 2).
    fold (PhysicsSystem.getSpeed car). fold speed. field. lra.
  - apply Rgtb_false_iff in E. split; [reflexivity|intros; lra].
Qed.

Lemma constrainToBounds_spec (car : CarState.t) :
  let car' := PhysicsSystem.constrainToBounds car in
  CAR_WIDTH / 2 <= CarState.x car' <= GAME_WIDTH - CAR_WIDTH / 2
  /\ CAR_HEIGHT / 2 <= CarState.y car' <= GAME_HEIGHT - CAR_HEIGHT / 2
  /\ (CAR_WIDTH / 2 <= CarState.x car <= GAME_WIDTH - CAR_WIDTH / 2 ->
      CarState.x car' = CarState.x car)
  /\ (CAR_HEIGHT / 2 <= CarState.y car <= GAME_HEIGHT - CAR_HEIGHT / 2 ->
      CarState.y car' = CarState.y car).
Proof.
  cbv zeta. unfold PhysicsSystem.constrainToBounds. cbn.
  unfold CAR_WIDTH, CAR_HEIGHT, GAME_WIDTH, GAME_HEIGHT.
  unfold Rmax, Rmin.
  repeat match goal with
         | |- context [Rle_dec ?a ?b] =>
             no_decision a; no_decision b; destruct (Rle_dec a b)
         end; repeat split; intros; lra.
Qed.


(** ** Rooms and matchmaking *)

Lemma generateRoomCodeFrom_total (n : nat) (code : string) (w : World.t) :
  exists code' w', generateRoomCodeFrom n code w = Some (code', w').
Proof.
  revert code w.
  induction n as [|n IH]; intros code w; cbn [generateRoomCodeFrom].
  - eexists _, _. reflexivity.
  - unfold bind, Math_random. apply IH.
Qed.

(** The code that leaves the retry loop names no existing room. *)
Lemma freshRoomCode_fresh (fuel : nat) (rooms : gmap string GameRoom.t)
    (code : string) (w : World.t) (code' : string) (w' : World.t) :
  RoomManager.freshRoomCode fuel rooms code w = Some (code', w') ->
  rooms !! code' = None.
Proof.
  revert code w.
  induction fuel as [|fuel IH]; intros code w; cbn [RoomManager.freshRoomCode];
    destruct (rooms !! code) eqn:Hl.
  - discriminate.
  - intros [= <- <-]. exact Hl.
  - unfold bind. destruct (generateRoomCode w) as [[c1 w1]|];
      [apply IH|discriminate].
  - intros [= <- <-]. exact Hl.
Qed.

(** A fresh code needs no retry, whatever the fuel. *)
Lemma freshRoomCode_first (fuel : nat) (rooms : gmap string GameRoom.t)
    (code : string) (w : World.t) :
  rooms !! code = None ->
  RoomManager.freshRoomCode fuel rooms code w = Some (code, w).
Proof. intros Hl. destruct fuel; cbn; rewrite Hl; reflexivity. Qed.

Lemma createRoom_spec (fuel : nat) (hostWs : WebSocket) (self : RoomManager.t)
    (w : World.t) (r : option (string * string)) (self' : RoomManager.t)
    (w' : World.t) :
  RoomManager.createRoom fuel hostWs self w = Some ((r, self'), w') ->
  exists roomCode hostId room,
    r = Some (roomCode, hostId)
    /\ RoomManager.rooms self !! roomCode = None
    /\ GameRoom.connections room = [(hostId, hostWs)]
    /\ length (GameRoom.playerManager room) = 1%nat
    /\ self'
       = RoomManager.mk (<[roomCode := room]> (RoomManager.rooms self))
           (<[hostId := roomCode]> (RoomManager.playerToRoom self))
           (RoomManager.matchmakingQueue self) (RoomManager.sent self).
Proof.
  unfold RoomManager.createRoom. unfold bind at 1.
  destruct (generateRoomCode w) as [[c0 w0]|]; [|discriminate].
  unfold bind at 1.
  destruct (RoomManager.freshRoomCode fuel _ c0 w0) as [[c1 w1]|] eqn:Hf;
    [|discriminate].
  apply freshRoomCode_fresh in Hf.
  cbn. unfold ret. intros [= <- <- <-].
  eexists _, _, _. split; [reflexivity|]. split; [exact Hf|].
  split; [|split]; [| |reflexivity]; reflexivity.
Qed.

Lemma joinRoom_spec (ws : WebSocket) (roomCode : string) (self : RoomManager.t)
    (w : World.t) (r : option (string * nat)) (self' : RoomManager.t)
    (w' : World.t) :
  RoomManager.joinRoom ws roomCode self w = Some ((r, self'), w') ->
  RoomManager.matchmakingQueue self' = RoomManager.matchmakingQueue self
  /\ (forall playerId n, r = Some (playerId, n) ->
        exists room0 room,
          RoomManager.rooms self !! trim (toUpperCase roomCode) = Some room0
          /\ RoomManager.rooms self' !! trim (toUpperCase roomCode) = Some room
          /\ GameRoom.connections room
             = mset playerId ws (GameRoom.connections room0)).
Proof.
  unfold RoomManager.joinRoom. cbv zeta.
  destruct (RoomManager.rooms self !! trim (toUpperCase roomCode))
    as [room0|] eqn:Hl.
  2:{ intros [= <- <- <-]. split; [reflexivity|discriminate]. }
  destruct (negb (PlayerManager.canAddPlayer (GameRoom.playerManager room0)))
    eqn:Hc.
  { intros [= <- <- <-]. split; [reflexivity|discriminate]. }
  unfold bind, PlayerManager.addPlayer. rewrite Hc. unfold bind.
  destruct (generateId_total "player" w) as [id Hid].
  unfold generatePlayerId. rewrite Hid. unfold ret.
  cbn [PlayerData.id].
  intros [= <- <- <-]. split.
  - destruct (mget _ _); reflexivity.
  - intros playerId n [= <- <-]. exists room0. eexists. split; [reflexivity|].
    split; [destruct (mget _ _); cbn; apply lookup_insert_eq|reflexivity].
Qed.

(** Room codes are plain: normalising one changes nothing. *)
Lemma plainCode_append (a b : string) :
  plainCode (a +:+ b) = plainCode a && plainCode b.
Proof.
  induction a as [|c a IH]; [reflexivity|].
  change (plainCode (String c a +:+ b))
    with (negb (isWhitespace c) && Ascii.eqb (upperAscii c) c
          && plainCode (a +:+ b)).
  rewrite IH. cbn [plainCode]. now rewrite andb_assoc.
Qed.

Lemma charAt_plain (i : Z) : plainCode (charAt roomCodeChars i) = true.
Proof.
  unfold charAt. destruct (i <? 0)%Z; [reflexivity|].
  generalize (Z.to_nat i). intros n.
  do 32 (destruct n as [|n]; [vm_compute; reflexivity|]).
  reflexivity.
Qed.

Lemma generateRoomCodeFrom_plain (n : nat) (code : string) (w : World.t)
    (code' : string) (w' : World.t) :
  plainCode code = true ->
  generateRoomCodeFrom n code w = Some (code', w') ->
  plainCode code' = true.
Proof.
  revert code w.
  induction n as [|n IH]; intros code w Hp; cbn [generateRoomCodeFrom].
  - intros [= <- <-]. exact Hp.
  - unfold bind, Math_random. apply IH.
    rewrite plainCode_append, Hp, charAt_plain. reflexivity.
Qed.

Lemma freshRoomCode_plain (fuel : nat) (rooms : gmap string GameRoom.t)
    (code : string) (w : World.t) (code' : string) (w' : World.t) :
  plainCode code = true ->
  RoomManager.freshRoomCode fuel rooms code w = Some (code', w') ->
  plainCode code' = true.
Proof.
  revert code w.
  induction fuel as [|fuel IH]; intros code w Hp;
    cbn [RoomManager.freshRoomCode]; destruct (rooms !! code).
  - discriminate.
  - intros [= <- <-]. exact Hp.
  - unfold bind. destruct (generateRoomCode w) as [[c1 w1]|] eqn:Hg;
      [|discriminate].
    apply IH. now apply (generateRoomCodeFrom_plain 6 EmptyString w c1 w1).
  - intros [= <- <-]. exact Hp.
Qed.

Lemma plainCode_normal (s : string) :
  plainCode s = true -> trim (toUpperCase s) = s.
Proof.
  intros Hp.
  assert (Hu : toUpperCase s = s).
  { induction s as [|c s IH]; cbn in *; [reflexivity|].
    apply andb_true_iff in Hp as [Hp Hs].
    apply andb_true_iff in Hp as [_ Hc].
    apply Ascii.eqb_eq in Hc. rewrite Hc, IH; auto. }
  rewrite Hu. unfold trim.
  assert (Hs : trimStart s = s).
  { destruct s as [|c s]; cbn in *; [reflexivity|].
    destruct (isWhitespace c); [discriminate|reflexivity]. }
  rewrite Hs. clear Hu Hs.
  induction s as [|c s IH]; cbn in *; [reflexivity|].
  apply andb_true_iff in Hp as [Hp Hs].
  apply andb_true_iff in Hp as [Hc _].
  rewrite (IH Hs). destruct s; [|reflexivity].
  destruct (isWhitespace c); [discriminate|reflexivity].
Qed.

Lemma createRoom_plain (fuel : nat) (hostWs : WebSocket) (self : RoomManager.t)
    (w : World.t) (roomCode hostId : string) (self' : RoomManager.t)
    (w' : World.t) :
  RoomManager.createRoom fuel hostWs self w
  = Some ((Some (roomCode, hostId), self'), w') ->
  plainCode roomCode = true.
Proof.
  unfold RoomManager.createRoom. unfold bind at 1.
  destruct (generateRoomCode w) as [[c0 w0]|] eqn:Hg; [|discriminate].
  apply (generateRoomCodeFrom_plain 6 EmptyString) in Hg; [|reflexivity].
  unfold bind at 1.
  destruct (RoomManager.freshRoomCode fuel _ c0 w0) as [[c1 w1]|] eqn:Hf;
    [|discriminate].
  apply freshRoomCode_plain in Hf; [|exact Hg].
  cbn. unfold ret. intros [= <- _ _ _]. exact Hf.
Qed.

(** Room creation returns whenever the first code drawn is fresh; with
    no room registered it always is. *)
Lemma createRoom_returns (fuel : nat) (hostWs : WebSocket)
    (self : RoomManager.t) (w : World.t) :
  RoomManager.rooms self = ∅ ->
  exists r self' w',
    RoomManager.createRoom fuel hostWs self w = Some ((r, self'), w').
Proof.
  intros He. unfold RoomManager.createRoom. unfold bind at 1.
  destruct (generateRoomCodeFrom_total 6 EmptyString w) as (c0 & w0 & Hg).
  unfold generateRoomCode. rewrite Hg. unfold bind at 1.
  rewrite freshRoomCode_first by (rewrite He; apply lookup_empty).
  cbn. unfold ret. eexists _, _, _. reflexivity.
Qed.

(** A room that exists under the normalised code and is not full
    admits the joining socket. *)
Lemma joinRoom_admits (ws : WebSocket) (roomCode : string)
    (self : RoomManager.t) (w : World.t) (room0 : GameRoom.t) :
  RoomManager.rooms self !! trim (toUpperCase roomCode) = Some room0 ->
  (length (GameRoom.playerManager room0) < MAX_PLAYERS)%nat ->
  exists playerId n self' w',
    RoomManager.joinRoom ws roomCode self w
    = Some ((Some (playerId, n), self'), w').
Proof.
  intros Hl Hlen. unfold RoomManager.joinRoom. cbv zeta. rewrite Hl.
  assert (Hc : PlayerManager.canAddPlayer (GameRoom.playerManager room0)
               = true).
  { unfold PlayerManager.canAddPlayer. now apply Nat.ltb_lt. }
  unfold PlayerManager.addPlayer. rewrite Hc. cbn [negb].
  unfold bind, generatePlayerId.
  destruct (generateId_total "player" w) as [id Hid]. rewrite Hid.
  unfold ret. eexists _, _, _, _. reflexivity.
Qed.

Lemma findOther_spec (newPlayerWs : WebSocket)
    (queue : list (WebSocket * QueuedPlayer.t)) (otherWs : WebSocket)
    (otherPlayer : QueuedPlayer.t) :
  RoomManager.findOther newPlayerWs queue = Some (otherWs, otherPlayer) ->
  otherWs <> newPlayerWs /\ In otherWs (mkeys queue).
Proof.
  unfold mkeys. induction queue as [|[k p] queue IH]; cbn; [discriminate|].
  destruct (decide (k <> newPlayerWs)) as [Hne|_].
  - intros [= <- <-]. split; [exact Hne|now left].
  - intros H. destruct (IH H) as [? ?]. split; [assumption|now right].
Qed.

Lemma findOther_finds (newPlayerWs : WebSocket)
    (queue : list (WebSocket * QueuedPlayer.t)) (k : WebSocket) :
  In k (mkeys queue) -> k <> newPlayerWs ->
  exists otherWs otherPlayer,
    RoomManager.findOther newPlayerWs queue = Some (otherWs, otherPlayer).
Proof.
  unfold mkeys. induction queue as [|[k0 p] queue IH]; cbn; [tauto|].
  intros Hin Hne. destruct (decide (k0 <> newPlayerWs)); [eauto|].
  destruct Hin as [->|Hin]; [contradiction|]. now apply IH.
Qed.

(** The room made for a pair admits the second socket: its code is
    plain and its only player so far is the host. *)
Lemma created_room_admits (fuel : nat) (otherWs ws : WebSocket)
    (self : RoomManager.t) (w : World.t) (roomCode hostId : string)
    (created : RoomManager.t) (w2 : World.t) (message : ServerMessage) :
  RoomManager.createRoom fuel otherWs self w
  = Some ((Some (roomCode, hostId), created), w2) ->
  exists playerId n joined w3,
    RoomManager.joinRoom ws roomCode
      (RoomManager.send otherWs message created) w2
    = Some ((Some (playerId, n), joined), w3).
Proof.
  intros Hc. pose proof (createRoom_plain _ _ _ _ _ _ _ _ Hc) as Hp.
  destruct (createRoom_spec _ _ _ _ _ _ _ Hc)
    as (code & host & room & [= <- <-] & _ & _ & Hlen & ->).
  apply (joinRoom_admits ws roomCode _ w2 room).
  - rewrite (plainCode_normal _ Hp). cbn. apply lookup_insert_eq.
  - rewrite Hlen. unfold MAX_PLAYERS. lia.
Qed.

(** What [tryMatchPlayers] does when it reports a match, and that it
    never duplicates a queue entry. *)
Lemma tryMatchPlayers_spec (fuel : nat) (ws : WebSocket)
    (self : RoomManager.t) (w : World.t) (res : MatchResult.t)
    (self' : RoomManager.t) (w' : World.t) :
  RoomManager.tryMatchPlayers fuel ws self w = Some ((res, self'), w') ->
  (List.NoDup (mkeys (RoomManager.matchmakingQueue self)) ->
   List.NoDup (mkeys (RoomManager.matchmakingQueue self')))
  /\ (forall otherWs otherPlayer,
        (2 <= length (RoomManager.matchmakingQueue self))%nat ->
        RoomManager.findOther ws (RoomManager.matchmakingQueue self)
        = Some (otherWs, otherPlayer) ->
        MatchResult.matched res = true)
  /\ (MatchResult.matched res = true ->
      exists otherWs otherPlayer roomCode hostId created w2 playerId n joined,
        RoomManager.findOther ws (RoomManager.matchmakingQueue self)
        = Some (otherWs, otherPlayer)
        /\ RoomManager.createRoom fuel otherWs
             (RoomManager.setQueue
                (mdelete otherWs
                   (mdelete ws (RoomManager.matchmakingQueue self))) self) w
           = Some ((Some (roomCode, hostId), created), w2)
        /\ RoomManager.joinRoom ws roomCode
             (RoomManager.send otherWs (matchFound roomCode) created) w2
           = Some ((Some (playerId, n), joined), w')
        /\ self' = RoomManager.send ws (matchFound roomCode) joined
        /\ res = MatchResult.mk true (Some roomCode) (Some playerId)).
Proof.
  unfold RoomManager.tryMatchPlayers.
  destruct (Nat.ltb (length (RoomManager.matchmakingQueue self)) 2) eqn:Hlen.
  { intros [= <- <- <-]. split; [auto|]. split; [|discriminate].
    intros ? ? Hge. apply Nat.ltb_lt in Hlen. lia. }
  destruct (RoomManager.findOther ws (RoomManager.matchmakingQueue self))
    as [[otherWs otherPlayer]|] eqn:Hf.
  2:{ intros [= <- <- <-]. split; [auto|]. split; discriminate. }
  cbv zeta. unfold bind at 1.
  destruct (RoomManager.createRoom fuel otherWs _ w)
    as [[[r created] w2]|] eqn:Hc; [|discriminate].
  destruct (createRoom_spec _ _ _ _ _ _ _ Hc)
    as (roomCode & hostId & room & -> & _ & _ & _ & Hs2).
  destruct (created_room_admits _ _ ws _ _ _ _ _ _ (matchFound roomCode) Hc)
    as (playerId & n & joined & w3 & Hj).
  unfold bind at 1. rewrite Hj. unfold ret. intros [= <- <- <-].
  split; [|split].
  - intros Hnd. cbn [RoomManager.send RoomManager.matchmakingQueue].
    rewrite (proj1 (joinRoom_spec _ _ _ _ _ _ _ Hj)), Hs2. cbn.
    now apply mdelete_NoDup, mdelete_NoDup.
  - reflexivity.
  - intros _. exists otherWs, otherPlayer, roomCode, hostId, created, w2,
      playerId, n, joined. auto.
Qed.

(** With no room registered, [tryMatchPlayers] returns whatever the
    fuel. *)
Lemma tryMatchPlayers_returns (fuel : nat) (ws : WebSocket)
    (self : RoomManager.t) (w : World.t) :
  RoomManager.rooms self = ∅ ->
  exists res self' w',
    RoomManager.tryMatchPlayers fuel ws self w = Some ((res, self'), w').
Proof.
  intros He. unfold RoomManager.tryMatchPlayers.
  destruct (Nat.ltb _ 2); [eexists _, _, _; reflexivity|].
  destruct (RoomManager.findOther _ _) as [[otherWs otherPlayer]|];
    [|eexists _, _, _; reflexivity].
  cbv zeta. unfold bind at 1.
  destruct (createRoom_returns fuel otherWs
              (RoomManager.setQueue
                 (mdelete otherWs
                    (mdelete ws (RoomManager.matchmakingQueue self))) self)
              w He) as (r & created & w2 & Hc).
  rewrite Hc.
  destruct (createRoom_spec _ _ _ _ _ _ _ Hc)
    as (roomCode & hostId & room & -> & _).
  destruct (created_room_admits _ _ ws _ _ _ _ _ _ (matchFound roomCode) Hc)
    as (playerId & n & joined & w3 & Hj).
  unfold bind at 1. rewrite Hj. eexists _, _, _. reflexivity.
Qed.

(** ** Scenario C, evaluated *)

Lemma updateBullets_players (cs : CombatSystem.t) (gs : GameState.t) :
  GameState.players (snd (CombatSystem.updateBullets cs gs))
  = CombatSystem.Loop.players (CombatSystem.bulletLoop gs).
Proof. reflexivity. Qed.

Lemma scenarioC_hit :
  let b := CombatSystem.moveBullet (exampleBullet "bullet_0" "p1" 1028 400 12 15) in
  CombatSystem.Loop.players (CombatSystem.bulletLoop scenarioC)
  = CombatSystem.applyDamage b "p2" (GameState.players scenarioC).
Proof.
  intros b. unfold CombatSystem.bulletLoop, scenarioC. cbn [fold_left GameState.bullets GameState.players GameState.walls].
  rewrite (bulletStep_player _ _
             (CombatSystem.applyDamage b "p2"
                [("p1"%string, exampleCar "p1" 150 400 100 50);
                 ("p2"%string, exampleCar "p2" 1050 400 10 0)])).
  - reflexivity.
  - unfold CollisionSystem.isBulletOutOfBounds, GAME_WIDTH, GAME_HEIGHT. cbn.
    rcases; try reflexivity.
  - reflexivity.
  - cbn. set_solver.
  - cbn [CombatSystem.Loop.players mkeys map fst].
    apply (playerLoop_first _ _ ["p1"%string] "p2"%string []).
    + intros k [<-|[]] [Hne _]. apply Hne. reflexivity.
    + split; [discriminate|].
      eexists. split; [reflexivity|]. split.
      * cbn. lra.
      * unfold CollisionSystem.checkBulletCarCollision, CAR_WIDTH, CAR_HEIGHT.
        cbn. rcases; try reflexivity.
Qed.

Lemma scenarioC_target :
  exists car,
    mget "p2"%string
      (GameState.players (snd (CombatSystem.updateBullets emptyCombat scenarioC)))
    = Some car
    /\ CarState.health car = -5 /\ CarState.shield car = 0
    /\ CarState.maxHealth car = 100.
Proof.
  rewrite updateBullets_players, scenarioC_hit.
  eexists. split.
  - rewrite (applyDamage_lookup _ _ _ (exampleCar "p2" 1050 400 10 0))
      by (reflexivity || discriminate).
    reflexivity.
  - set (b := CombatSystem.moveBullet _).
    destruct (damageTarget_spec b (exampleCar "p2" 1050 400 10 0))
      as (Hs & Hh & _ & Hm & _); [cbn; lra|cbn; lra|].
    rewrite Hs, Hh, Hm. cbn. unfold Rmin.
    destruct (Rle_dec 0 15); [|lra]. repeat split; lra.
Qed.

Lemma awarded_fields (t s : CarState.t) :
  CarState.health (awarded t s) = CarState.health s
  /\ CarState.maxHealth (awarded t s) = CarState.maxHealth s
  /\ CarState.id (awarded t s) = CarState.id s
  /\ CarState.x (awarded t s) = CarState.x s
  /\ CarState.y (awarded t s) = CarState.y s
  /\ CarState.shield (awarded t s) = CarState.shield s.
Proof.
  unfold awarded.
  destruct (Rleb (CarState.health t) 0); cbn; repeat split; reflexivity.
Qed.

Lemma scenarioC_players :
  exists d1 d2,
    GameState.players (snd (CombatSystem.updateBullets emptyCombat scenarioC))
    = [("p1"%string, d1); ("p2"%string, d2)]
    /\ CarState.health d1 = 100 /\ CarState.maxHealth d1 = 100
    /\ CarState.id d1 = "p1"%string
    /\ CarState.health d2 = -5.
Proof.
  destruct (two_players_shape
              (GameState.players
                 (snd (CombatSystem.updateBullets emptyCombat scenarioC)))
              "p1" "p2") as (d1 & d2 & Hps).
  { rewrite updateBullets_players. apply bulletLoop_keys. }
  exists d1, d2. split; [exact Hps|].
  destruct scenarioC_target as (car & Hc & Hh & _).
  rewrite Hps in Hc. cbn in Hc. injection Hc as ->.
  assert (H1 : mget "p1"%string
                 (GameState.players
                    (snd (CombatSystem.updateBullets emptyCombat scenarioC)))
               = Some d1) by (rewrite Hps; reflexivity).
  rewrite updateBullets_players, scenarioC_hit in H1.
  rewrite (applyDamage_lookup _ _ _ (exampleCar "p2" 1050 400 10 0)) in H1
    by (reflexivity || discriminate).
  cbn in H1. injection H1 as <-.
  match goal with
  | |- context [awarded ?t ?s] =>
      destruct (awarded_fields t s) as (-> & -> & -> & _)
  end.
  cbn. auto.
Qed.

(** ** The double hit, evaluated *)

Lemma doubleHit_loop :
  let b0 := CombatSystem.moveBullet (exampleBullet "bullet_0" "p1" 1028 400 12 15) in
  let b1 := CombatSystem.moveBullet (exampleBullet "bullet_1" "p2" 172 400 (-12) 15) in
  CombatSystem.Loop.players (CombatSystem.bulletLoop doubleHit)
  = CombatSystem.applyDamage b1 "p1"
      (CombatSystem.applyDamage b0 "p2" (GameState.players doubleHit)).
Proof.
  intros b0 b1. unfold CombatSystem.bulletLoop, doubleHit.
  cbn [fold_left GameState.bullets GameState.players GameState.walls].
  set (ps := [("p1"%string, exampleCar "p1" 150 400 10 0);
              ("p2"%string, exampleCar "p2" 1050 400 10 0)]).
  assert (H0 : CombatSystem.bulletStep
                 (CombatSystem.Loop.mk ps [] ∅ ∅ [])
                 (exampleBullet "bullet_0" "p1" 1028 400 12 15)
               = CombatSystem.Loop.mk (CombatSystem.applyDamage b0 "p2" ps) []
                   ({["bullet_0"%string]} ∪ ∅) ∅ []).
  { apply bulletStep_player.
    - unfold CollisionSystem.isBulletOutOfBounds, GAME_WIDTH, GAME_HEIGHT. cbn.
      rcases; reflexivity.
    - reflexivity.
    - cbn. set_solver.
    - apply (playerLoop_first _ _ ["p1"%string] "p2"%string []).
      + intros k [<-|[]] [Hne _]. apply Hne. reflexivity.
      + split; [discriminate|].
        eexists. split; [reflexivity|]. split.
        * cbn. lra.
        * unfold CollisionSystem.checkBulletCarCollision, CAR_WIDTH, CAR_HEIGHT.
          cbn. rcases; reflexivity. }
  rewrite H0.
  rewrite (bulletStep_player _ _
             (CombatSystem.applyDamage b1 "p1"
                (CombatSystem.applyDamage b0 "p2" ps))).
  - reflexivity.
  - unfold CollisionSystem.isBulletOutOfBounds, GAME_WIDTH, GAME_HEIGHT. cbn.
    rcases; reflexivity.
  - reflexivity.
  - cbn. set_solver.
  - cbn [CombatSystem.Loop.players]. rewrite applyDamage_keys.
    apply (playerLoop_first _ _ [] "p1"%string ["p2"%string]).
    + intros k [].
    + split; [discriminate|].
      rewrite (applyDamage_lookup b0 "p2" ps (exampleCar "p2" 1050 400 10 0))
        by (reflexivity || discriminate).
      cbn [decide]. eexists. split; [reflexivity|].
      match goal with
      | |- context [awarded ?t ?s] =>
          destruct (awarded_fields t s) as (Eh & _ & _ & Ex & Ey & _)
      end.
      split.
      * rewrite Eh. cbn. lra.
      * unfold CollisionSystem.checkBulletCarCollision, CAR_WIDTH, CAR_HEIGHT.
        rewrite Ex, Ey. cbn. rcases; reflexivity.
Qed.

Lemma doubleHit_players :
  exists d1 d2,
    GameState.players (snd (CombatSystem.updateBullets emptyCombat doubleHit))
    = [("p1"%string, d1); ("p2"%string, d2)]
    /\ CarState.health d1 = -5 /\ CarState.health d2 = -5.
Proof.
  destruct (two_players_shape
              (GameState.players
                 (snd (CombatSystem.updateBullets emptyCombat doubleHit)))
              "p1" "p2") as (d1 & d2 & Hps).
  { rewrite updateBullets_players. apply bulletLoop_keys. }
  exists d1, d2. split; [exact Hps|].
  assert (H1 : mget "p1"%string
                 (GameState.players
                    (snd (CombatSystem.updateBullets emptyCombat doubleHit)))
               = Some d1) by (rewrite Hps; reflexivity).
  assert (H2 : mget "p2"%string
                 (GameState.players
                    (snd (CombatSystem.updateBullets emptyCombat doubleHit)))
               = Some d2) by (rewrite Hps; reflexivity).
  clear Hps. rewrite updateBullets_players, doubleHit_loop in H1, H2.
  set (b0 := CombatSystem.moveBullet (exampleBullet "bullet_0" "p1" 1028 400 12 15)) in *.
  set (b1 := CombatSystem.moveBullet (exampleBullet "bullet_1" "p2" 172 400 (-12) 15)) in *.
  set (c1 := exampleCar "p1" 150 400 10 0) in *.
  set (c2 := exampleCar "p2" 1050 400 10 0) in *.
  assert (Hp1 : mget "p1"%string
                  (CombatSystem.applyDamage b0 "p2" (GameState.players doubleHit))
                = Some (awarded (CombatSystem.damageTarget b0 c2) c1)).
  { rewrite (applyDamage_lookup b0 "p2" _ c2) by (reflexivity || discriminate).
    reflexivity. }
  assert (Hp2 : mget "p2"%string
                  (CombatSystem.applyDamage b0 "p2" (GameState.players doubleHit))
                = Some (CombatSystem.damageTarget b0 c2)).
  { rewrite (applyDamage_lookup b0 "p2" _ c2) by (reflexivity || discriminate).
    reflexivity. }
  assert (E1 : d1 = CombatSystem.damageTarget b1
                      (awarded (CombatSystem.damageTarget b0 c2) c1)).
  { rewrite (applyDamage_lookup_target b1 "p1" _ _ Hp1) in H1
      by (cbn; discriminate).
    congruence. }
  assert (E2 : d2 = awarded
                      (CombatSystem.damageTarget b1
                         (awarded (CombatSystem.damageTarget b0 c2) c1))
                      (CombatSystem.damageTarget b0 c2)).
  { change "p2"%string with (Bullet.ownerId b1) in H2 at 1.
    rewrite (applyDamage_lookup_owner b1 "p1" _ _ Hp1) in H2
      by (cbn; discriminate).
    change (Bullet.ownerId b1) with "p2"%string in H2.
    rewrite Hp2 in H2. cbn in H2. congruence. }
  assert (Hd2 : CarState.health (CombatSystem.damageTarget b0 c2) = -5).
  { destruct (damageTarget_spec b0 c2) as (_ & Hh & _); [cbn; lra|cbn; lra|].
    rewrite Hh. cbn. unfold Rmin. destruct (Rle_dec 0 15); lra. }
  split.
  - rewrite E1.
    destruct (awarded_fields (CombatSystem.damageTarget b0 c2) c1)
      as (Eh & _ & _ & _ & _ & Es).
    destruct (damageTarget_spec b1
                (awarded (CombatSystem.damageTarget b0 c2) c1))
      as (_ & Hh & _); [cbn; lra|rewrite Es; cbn; lra|].
    rewrite Hh, Eh, Es. cbn. unfold Rmin. destruct (Rle_dec 0 15); lra.
  - rewrite E2.
    match goal with
    | |- context [awarded ?t ?s] =>
        destruct (awarded_fields t s) as (-> & _)
    end.
    exact Hd2.
Qed.

(** * The claims *)

Lemma updateBullets_bounded (cs : CombatSystem.t) (gs : GameState.t) :
  (forall b, In b (GameState.bullets gs) -> 0 <= Bullet.damage b) ->
  playersBounded (GameState.players gs) ->
  playersBounded (GameState.players (snd (CombatSystem.updateBullets cs gs))).
Proof.
  intros Hd Hps. rewrite updateBullets_players. unfold CombatSystem.bulletLoop.
  apply (bulletLoop_invariant
           (fun st => playersBounded (CombatSystem.Loop.players st))).
  - exact Hps.
  - intros st b Hin Hst.
    destruct (bulletStep_players st b) as [->|(t & _ & ->)]; [exact Hst|].
    apply applyDamage_bounded; [|exact Hst]. cbn. now apply Hd.
Qed.

(** C1, as the specification states it, fails: in Scenario C the player
    at 10 health and 0 shield that a 15-damage projectile hits ends the
    bullet update with health -5, below 0. *)
Lemma C1_counterexample :
  exists car,
    mget "p2"%string
      (GameState.players (snd (CombatSystem.updateBullets emptyCombat scenarioC)))
    = Some car
    /\ CarState.health car = -5
    /\ CarState.health car <> 0
    /\ ~ (0 <= CarState.health car <= CarState.maxHealth car).
Proof.
  destruct scenarioC_target as (car & Hc & Hh & _ & Hm).
  exists car. rewrite Hh, Hm. repeat split; [exact Hc|lra|lra].
Qed.

(** C1 (amended).  After the damage applications of a tick, the bullet
    hits of [updateBullets] followed by the car-car collisions, every
    player's shield lies within [[0, max]] and its health is at most
    its maximum, provided that held before and no bullet carries
    negative damage.  Health has no floor at 0: a hit lowers shield and
    health together by exactly the bullet's damage, the shield first,
    so the player of Scenario C ends at health -5. *)
Theorem C1_damage_keeps_shield_in_range_and_health_unclamped
    (cs : CombatSystem.t) (gs : GameState.t) (cars : list string) :
  (forall b, In b (GameState.bullets gs) -> 0 <= Bullet.damage b) ->
  playersBounded (GameState.players gs) ->
  let afterBullets := snd (CombatSystem.updateBullets cs gs) in
  let afterCollisions :=
    fst (CollisionSystem.checkAllCarCollisions cars
           (GameState.players afterBullets)) in
  playersBounded (GameState.players afterBullets)
  /\ playersBounded afterCollisions
  /\ (forall b c, 0 <= Bullet.damage b -> carBounded c ->
        let c' := CombatSystem.damageTarget b c in
        carBounded c'
        /\ CarState.shield c'
           = CarState.shield c - Rmin (CarState.shield c) (Bullet.damage b)
        /\ CarState.health c' + CarState.shield c'
           = CarState.health c + CarState.shield c - Bullet.damage b)
  /\ (forall car1 car2, carBounded car1 -> carBounded car2 ->
        let '(c1, c2, _) := CollisionSystem.checkCarCollision car1 car2 in
        carBounded c1 /\ carBounded c2)
  /\ (exists car,
        mget "p2"%string
          (GameState.players
             (snd (CombatSystem.updateBullets emptyCombat scenarioC)))
        = Some car
        /\ CarState.health car = -5 /\ CarState.shield car = 0).
Proof.
  intros Hd Hps afterBullets afterCollisions.
  assert (Hb : playersBounded (GameState.players afterBullets))
    by now apply updateBullets_bounded.
  split; [exact Hb|]. split; [now apply checkAllCarCollisions_bounded|].
  split; [|split].
  - intros b c Hdb Hc c'. split; [now apply damageTarget_bounded|].
    destruct Hc as [[Hs0 _] _].
    destruct (damageTarget_spec b c Hdb Hs0) as (E1 & E2 & _).
    fold c' in E1, E2. split; [exact E1|]. rewrite E1, E2. lra.
  - intros car1 car2 B1 B2.
    pose proof (checkCarCollision_bounded car1 car2 B1 B2) as S.
    destruct (CollisionSystem.checkCarCollision car1 car2) as [[c1 c2] r].
    tauto.
  - destruct scenarioC_target as (car & Hc & Hh & Hs & _).
    exists car. auto.
Qed.

Lemma C1_witness :
  playersBounded
    (GameState.players (snd (CombatSystem.updateBullets emptyCombat scenarioC)))
  /\ playersBounded
       (fst (CollisionSystem.checkAllCarCollisions ["p1"%string; "p2"%string]
               (GameState.players
                  (snd (CombatSystem.updateBullets emptyCombat scenarioC))))).
Proof.
  assert (Hd : forall b, In b (GameState.bullets scenarioC) ->
                         0 <= Bullet.damage b).
  { intros b [<-|[]]. cbn. lra. }
  assert (Hps : playersBounded (GameState.players scenarioC)).
  { repeat constructor; cbn; lra. }
  pose proof (C1_damage_keeps_shield_in_range_and_health_unclamped
                emptyCombat scenarioC ["p1"%string; "p2"%string] Hd Hps) as H.
  split; [exact (proj1 H)|exact (proj1 (proj2 H))].
Defined.

(** ** Who a bullet can affect *)

Lemma bulletStep_effect (st : CombatSystem.Loop.t) (bullet : Bullet.t)
    (k : string) (car : CarState.t) :
  mget k (CombatSystem.Loop.players st) = Some car ->
  let b := CombatSystem.moveBullet bullet in
  exists car',
    mget k (CombatSystem.Loop.players (CombatSystem.bulletStep st bullet))
    = Some car'
    /\ (car' = car
        \/ exists t tc,
             hittable b (CombatSystem.Loop.players st) t
             /\ mget t (CombatSystem.Loop.players st) = Some tc
             /\ ((k = t /\ car' = CombatSystem.damageTarget b tc)
                 \/ (k = Bullet.ownerId b
                     /\ car' = awarded (CombatSystem.damageTarget b tc) car))).
Proof.
  intros Hk b.
  destruct (bulletStep_players st bullet) as [->|(t & Ht & ->)].
  { exists car. auto. }
  fold b in Ht |- *.
  destruct Ht as (Hne & tc & Htc & Hh & Hx).
  rewrite (applyDamage_lookup b t _ tc k Htc Hne).
  destruct (decide (k = Bullet.ownerId b)) as [Ho|Ho].
  - rewrite Hk. cbn. eexists. split; [reflexivity|]. right.
    exists t, tc. split; [|split; [exact Htc|right; auto]].
    split; [exact Hne|]. eauto.
  - destruct (decide (k = t)) as [->|Hkt].
    + eexists. split; [reflexivity|]. right.
      exists t, tc. split; [|split; [exact Htc|left; auto]].
      split; [exact Hne|]. eauto.
    + exists car. auto.
Qed.

Lemma bulletStep_spares (st : CombatSystem.Loop.t) (bullet : Bullet.t)
    (k : string) (car : CarState.t) :
  mget k (CombatSystem.Loop.players st) = Some car ->
  k = Bullet.ownerId bullet \/ CarState.health car <= 0 ->
  exists car',
    mget k (CombatSystem.Loop.players (CombatSystem.bulletStep st bullet))
    = Some car'
    /\ vitals car' = vitals car.
Proof.
  intros Hk Hsp.
  destruct (bulletStep_effect st bullet k car Hk)
    as (car' & Hc' & [->|(t & tc & Ht & Htc & Hcase)]).
  { exists car. auto. }
  exists car'. split; [exact Hc'|].
  destruct Hcase as [[-> ->]|[_ ->]].
  - exfalso. destruct Ht as (Hne & c & Hc & Hh & _).
    destruct Hsp as [Ho|Hd]; [apply Hne; exact Ho|].
    rewrite Hk in Hc. injection Hc as <-. lra.
  - apply awarded_vitals.
Qed.

(** C10.  During bullet resolution a projectile never damages the
    player stored under its owner id nor a player whose health is
    already at or below 0.  For every iteration of the bullet loop and
    every player: the player is left as it was, or the bullet hit a
    living player other than its owner, and then the player is that
    target, which takes the damage and the shield-timer reset, or it is
    the shooter, which only gains score.  Hence over a whole update a
    player with health at or below 0 keeps health, shield and shield
    timer, and so does a player that owns every bullet in flight. *)
Theorem C10_bullets_spare_owner_and_dead
    (cs : CombatSystem.t) (gs : GameState.t) (k : string) (car : CarState.t) :
  mget k (GameState.players gs) = Some car ->
  (forall st bullet c,
      mget k (CombatSystem.Loop.players st) = Some c ->
      let b := CombatSystem.moveBullet bullet in
      exists c',
        mget k (CombatSystem.Loop.players (CombatSystem.bulletStep st bullet))
        = Some c'
        /\ (c' = c
            \/ exists t tc,
                 hittable b (CombatSystem.Loop.players st) t
                 /\ mget t (CombatSystem.Loop.players st) = Some tc
                 /\ ((k = t /\ c' = CombatSystem.damageTarget b tc)
                     \/ (k = Bullet.ownerId b
                         /\ c' = awarded (CombatSystem.damageTarget b tc) c)))
        /\ (k = Bullet.ownerId bullet \/ CarState.health c <= 0 ->
            vitals c' = vitals c))
  /\ (CarState.health car <= 0
      \/ (forall b, In b (GameState.bullets gs) -> Bullet.ownerId b = k) ->
      exists car',
        mget k (GameState.players (snd (CombatSystem.updateBullets cs gs)))
        = Some car'
        /\ vitals car' = vitals car).
Proof.
  intros Hk. split.
  - intros st bullet c Hc b.
    destruct (bulletStep_effect st bullet k c Hc) as (c' & Hc' & Hcase).
    exists c'. split; [exact Hc'|]. split; [exact Hcase|].
    intros Hsp.
    destruct (bulletStep_spares st bullet k c Hc Hsp) as (c2 & Hc2 & Hv).
    congruence.
  - intros Hsp. rewrite updateBullets_players. unfold CombatSystem.bulletLoop.
    apply (bulletLoop_invariant
             (fun st => exists car',
                  mget k (CombatSystem.Loop.players st) = Some car'
                  /\ vitals car' = vitals car)).
    + exists car. auto.
    + intros st b Hin (c & Hc & Hv).
      destruct (bulletStep_spares st b k c Hc) as (c' & Hc' & Hv').
      * destruct Hsp as [Hd|Hown]; [right|left; symmetry; now apply Hown].
        unfold vitals in Hv. injection Hv as -> _ _. exact Hd.
      * exists c'. split; [exact Hc'|congruence].
Qed.

Lemma C10_witness :
  exists car',
    mget "p1"%string
      (GameState.players (snd (CombatSystem.updateBullets emptyCombat scenarioC)))
    = Some car'
    /\ vitals car' = vitals (exampleCar "p1" 150 400 100 50).
Proof.
  apply (proj2 (C10_bullets_spare_owner_and_dead emptyCombat scenarioC
                  "p1"%string (exampleCar "p1" 150 400 100 50) eq_refl)).
  right. intros b [<-|[]]. reflexivity.
Defined.

(** ** One cause per projectile *)

(** The two shots, evaluated: the shell destroys the wall, and the
    second projectile, which overlaps the destroyed wall, goes on to
    hit the player behind it. *)
Lemma floor_twoShots : floor (35 * (1 - 0)) = 35.
Proof. unfold floor. f_equal. apply Zfloor_eq. lra. Qed.

Lemma twoShots_loop :
  CombatSystem.Loop.players (CombatSystem.bulletLoop twoShots)
  = CombatSystem.applyDamage (CombatSystem.moveBullet secondShot) "p2"
      (GameState.players twoShots).
Proof.
  set (b1 := CombatSystem.moveBullet secondShot).
  unfold CombatSystem.bulletLoop, twoShots.
  cbn [fold_left GameState.bullets GameState.players GameState.walls].
  set (ps := [("p1"%string, exampleCar "p1" 150 400 100 50);
              ("p2"%string, exampleCar "p2" 1050 400 100 50)]).
  set (b0 := CombatSystem.moveBullet (exampleBullet "bullet_0" "p1" 1028 400 12 35)).
  assert (H0 : CombatSystem.bulletStep
                 (CombatSystem.Loop.mk ps [glassWall] ∅ ∅ [])
                 (exampleBullet "bullet_0" "p1" 1028 400 12 35)
               = CombatSystem.Loop.mk ps
                   [fst (CombatSystem.applyWallDamage b0 glassWall)]
                   ({["bullet_0"%string]} ∪ ∅)
                   ({["wall_0"%string]} ∪ ∅)
                   [snd (CombatSystem.applyWallDamage b0 glassWall)]).
  { rewrite (bulletStep_wall _ _
               [fst (CombatSystem.applyWallDamage b0 glassWall)]
               (snd (CombatSystem.applyWallDamage b0 glassWall))).
    - cbn -[floor Rleb]. rewrite floor_twoShots.
      replace (Rleb (10 - 35) 0) with true
        by (symmetry; apply Rleb_true_iff; lra).
      reflexivity.
    - unfold CollisionSystem.isBulletOutOfBounds, GAME_WIDTH, GAME_HEIGHT. cbn.
      rcases; reflexivity.
    - apply (wallLoop_first _ _ [] glassWall []).
      + intros w0 [].
      + split; [set_solver|].
        unfold CollisionSystem.checkBulletWallCollision,
          rectangleIntersectsWall, BULLET_SIZE.
        cbn. rcases; reflexivity. }
  rewrite H0.
  rewrite (bulletStep_player _ _ (CombatSystem.applyDamage b1 "p2" ps)).
  - reflexivity.
  - unfold CollisionSystem.isBulletOutOfBounds, GAME_WIDTH, GAME_HEIGHT. cbn.
    rcases; reflexivity.
  - apply wallLoop_None. intros w [<-|[]] [Hnin _]. apply Hnin.
    cbn. set_solver.
  - cbn. set_solver.
  - apply (playerLoop_first _ _ ["p1"%string] "p2"%string []).
    + intros k [<-|[]] [Hne _]. apply Hne. reflexivity.
    + split; [discriminate|].
      eexists. split; [reflexivity|]. split.
      * cbn. lra.
      * unfold CollisionSystem.checkBulletCarCollision, CAR_WIDTH, CAR_HEIGHT.
        cbn. rcases; reflexivity.
Qed.

(** C3, as the specification states it, fails: in the two shots the
    second projectile overlaps a wall of the wall array and a player,
    and it is the player that takes its damage: the wall was destroyed
    by the first projectile in the same update, and is skipped. *)
Lemma C3_counterexample :
  In glassWall (GameState.walls twoShots)
  /\ CollisionSystem.checkBulletWallCollision
       (CombatSystem.moveBullet secondShot) glassWall = true
  /\ CollisionSystem.checkBulletCarCollision
       (CombatSystem.moveBullet secondShot) (exampleCar "p2" 1050 400 100 50)
     = true
  /\ exists car,
       mget "p2"%string
         (GameState.players (snd (CombatSystem.updateBullets emptyCombat twoShots)))
       = Some car
       /\ CarState.shield car = 45
       /\ CarState.shield car <> CarState.shield (exampleCar "p2" 1050 400 100 50).
Proof.
  set (b1 := CombatSystem.moveBullet secondShot).
  split; [now left|]. split; [|split].
  - unfold CollisionSystem.checkBulletWallCollision, rectangleIntersectsWall,
      BULLET_SIZE.
    cbn. rcases; reflexivity.
  - unfold CollisionSystem.checkBulletCarCollision, CAR_WIDTH, CAR_HEIGHT.
    cbn. rcases; reflexivity.
  - rewrite updateBullets_players, twoShots_loop. fold b1.
    eexists. split.
    + apply (applyDamage_lookup_target b1 "p2" _
               (exampleCar "p2" 1050 400 100 50)); [reflexivity|].
      cbn. discriminate.
    + destruct (damageTarget_spec b1 (exampleCar "p2" 1050 400 100 50))
        as (Hs & _); [cbn; lra|cbn; lra|].
      rewrite Hs. cbn. unfold Rmin. destruct (Rle_dec 50 5); split; lra.
Qed.

(** C3 (amended).  In one iteration of the bullet loop the moved
    projectile is tested for out-of-bounds first, then against the
    walls in array order, skipping the walls destroyed earlier in the
    same update, then against the players in key order, and the first
    test that succeeds is the only one that has an effect: out of
    bounds, no wall and no player is touched; otherwise the first wall
    not yet destroyed that the projectile overlaps is the only wall
    damaged and no player is touched, even when the projectile overlaps
    one; otherwise the first living player other than the owner that it
    overlaps is the only one hit; otherwise the state is unchanged.  In
    the first three cases the projectile is marked for removal, and
    never are both a wall and a player affected. *)
Theorem C3_one_cause_in_priority_order
    (st : CombatSystem.Loop.t) (bullet : Bullet.t) :
  let b := CombatSystem.moveBullet bullet in
  let st' := CombatSystem.bulletStep st bullet in
  let oob := CollisionSystem.isBulletOutOfBounds b GAME_WIDTH GAME_HEIGHT in
  let players := CombatSystem.Loop.players st in
  let walls := CombatSystem.Loop.walls st in
  let wallsToRemove := CombatSystem.Loop.wallsToRemove st in
  let bulletsToRemove := CombatSystem.Loop.bulletsToRemove st in
  (oob = true ->
   st' = CombatSystem.Loop.mk players walls ({[Bullet.id b]} ∪ bulletsToRemove)
           wallsToRemove (CombatSystem.Loop.results st))
  /\ (oob = false ->
      forall pre w post,
        walls = pre ++ w :: post ->
        (forall w0, In w0 pre -> ~ wallHit b wallsToRemove w0) ->
        wallHit b wallsToRemove w ->
        CombatSystem.Loop.players st' = players
        /\ CombatSystem.Loop.walls st'
           = pre ++ fst (CombatSystem.applyWallDamage b w) :: post
        /\ CombatSystem.Loop.results st'
           = CombatSystem.Loop.results st
               ++ [snd (CombatSystem.applyWallDamage b w)]
        /\ Bullet.id b ∈ CombatSystem.Loop.bulletsToRemove st')
  /\ (oob = false ->
      (forall w, In w walls -> ~ wallHit b wallsToRemove w) ->
      Bullet.id b ∉ bulletsToRemove ->
      forall pre t post,
        mkeys players = pre ++ t :: post ->
        (forall k, In k pre -> ~ hittable b players k) ->
        hittable b players t ->
        st' = CombatSystem.Loop.mk (CombatSystem.applyDamage b t players) walls
                ({[Bullet.id b]} ∪ bulletsToRemove) wallsToRemove
                (CombatSystem.Loop.results st))
  /\ (oob = false ->
      (forall w, In w walls -> ~ wallHit b wallsToRemove w) ->
      (forall k, In k (mkeys players) -> ~ hittable b players k) ->
      st' = st)
  /\ (CombatSystem.Loop.players st' = players
      \/ (CombatSystem.Loop.walls st' = walls
          /\ CombatSystem.Loop.wallsToRemove st' = wallsToRemove
          /\ CombatSystem.Loop.results st' = CombatSystem.Loop.results st)).
Proof.
  intros b st' oob players walls wallsToRemove bulletsToRemove.
  split; [|split; [|split; [|split]]].
  - intros Ho. now apply bulletStep_oob.
  - intros Ho pre w post Hw Hpre Hhit.
    pose proof (wallLoop_first b wallsToRemove pre w post Hpre Hhit) as Hl.
    fold walls in Hw. rewrite <- Hw in Hl.
    unfold st'. rewrite (bulletStep_wall st bullet _ _ Ho Hl). cbn.
    repeat split; try reflexivity. set_solver.
  - intros Ho Hnw Hid pre t post Hk Hpre Ht.
    apply bulletStep_player; try assumption.
    + now apply wallLoop_None.
    + fold players. rewrite Hk. now apply playerLoop_first.
  - intros Ho Hnw Hnp. apply bulletStep_miss; try assumption.
    + now apply wallLoop_None.
    + now apply playerLoop_None.
  - subst st'. destruct oob eqn:Ho.
    { left. now rewrite bulletStep_oob. }
    destruct (CombatSystem.wallLoop b wallsToRemove walls) as [[ws r]|] eqn:Hw.
    { left. now rewrite (bulletStep_wall st bullet ws r). }
    right.
    destruct (decide (Bullet.id b ∈ bulletsToRemove)) as [Hid|Hid].
    { now rewrite bulletStep_duplicate. }
    destruct (CombatSystem.playerLoop b (mkeys players) players)
      as [ps'|] eqn:Hp.
    + now rewrite (bulletStep_player st bullet ps').
    + now rewrite bulletStep_miss.
Qed.

(** Scenario B, evaluated: the moved bullet is in bounds, overlaps the
    wall, and overlaps player p2 as well. *)
Lemma scenarioB_in_bounds :
  CollisionSystem.isBulletOutOfBounds
    (CombatSystem.moveBullet (exampleBullet "bullet_0" "p1" 1028 400 12 35))
    GAME_WIDTH GAME_HEIGHT = false.
Proof.
  unfold CollisionSystem.isBulletOutOfBounds, GAME_WIDTH, GAME_HEIGHT. cbn.
  rcases; reflexivity.
Qed.

Lemma scenarioB_wallHit :
  wallHit (CombatSystem.moveBullet (exampleBullet "bullet_0" "p1" 1028 400 12 35))
    ∅ metalWall.
Proof.
  split; [set_solver|].
  unfold CollisionSystem.checkBulletWallCollision, rectangleIntersectsWall,
    BULLET_SIZE.
  cbn. rcases; reflexivity.
Qed.

Lemma scenarioB_hittable :
  hittable (CombatSystem.moveBullet (exampleBullet "bullet_0" "p1" 1028 400 12 35))
    (GameState.players scenarioB) "p2".
Proof.
  split; [discriminate|]. eexists. split; [reflexivity|]. split.
  - cbn. lra.
  - unfold CollisionSystem.checkBulletCarCollision, CAR_WIDTH, CAR_HEIGHT.
    cbn. rcases; reflexivity.
Qed.

(** Scenario B: the projectile overlaps the wall and player p2, and
    only the wall takes the hit. *)
Lemma C3_witness :
  hittable (CombatSystem.moveBullet (exampleBullet "bullet_0" "p1" 1028 400 12 35))
    (GameState.players scenarioB) "p2"
  /\ CombatSystem.Loop.players
       (CombatSystem.bulletStep (loopStart scenarioB)
          (exampleBullet "bullet_0" "p1" 1028 400 12 35))
     = GameState.players scenarioB.
Proof.
  split; [exact scenarioB_hittable|].
  apply (proj1 (proj2 (C3_one_cause_in_priority_order (loopStart scenarioB)
                         (exampleBullet "bullet_0" "p1" 1028 400 12 35)))
           scenarioB_in_bounds [] metalWall [] eq_refl).
  - intros w0 [].
  - exact scenarioB_wallHit.
Defined.

(** ** Wall damage and removal *)

Lemma applyWallDamage_spec (b : Bullet.t) (w : Wall.t) :
  let effectiveDamage :=
    floor (Bullet.damage b
           * (1 - WallMaterialConfig.damageResistance
                    (WALL_MATERIALS (Wall.material w)))) in
  let w' := fst (CombatSystem.applyWallDamage b w) in
  let r := snd (CombatSystem.applyWallDamage b w) in
  Wall.health w' = Wall.health w - effectiveDamage
  /\ Wall.id w' = Wall.id w
  /\ WallDamageResult.wallId r = Wall.id w
  /\ WallDamageResult.damage r = effectiveDamage
  /\ (WallDamageResult.destroyed r = true <-> Wall.health w' <= 0).
Proof.
  cbn. repeat split; try reflexivity; apply Rleb_true_iff.
Qed.

Lemma bulletStep_wallsInvariant (st : CombatSystem.Loop.t) (bullet : Bullet.t) :
  wallsInvariant st ->
  wallsInvariant (CombatSystem.bulletStep st bullet)
  /\ map Wall.id (CombatSystem.Loop.walls (CombatSystem.bulletStep st bullet))
     = map Wall.id (CombatSystem.Loop.walls st).
Proof.
  intros [Hnd Hinv].
  destruct (bulletStep_walls st bullet)
    as [[Ew Er]|(pre & w & post & Ew & [Hnin Hcoll] & Ew' & Er)].
  { unfold wallsInvariant. rewrite Ew, Er. auto. }
  set (b := CombatSystem.moveBullet bullet) in *.
  destruct (applyWallDamage_spec b w) as (Hh & Hid & _ & _ & Hdes).
  cbv zeta in Hh, Hid, Hdes.
  set (w' := fst (CombatSystem.applyWallDamage b w)) in *.
  assert (Eids : map Wall.id (pre ++ w' :: post) = map Wall.id (pre ++ w :: post)).
  { rewrite !map_app. cbn [map]. now rewrite Hid. }
  unfold wallsInvariant. rewrite Ew', Er, Eids, <- Ew.
  split; [|reflexivity]. split; [exact Hnd|].
  rewrite Ew in Hnd, Hinv.
  rewrite map_app in Hnd. cbn in Hnd.
  assert (Hother : forall w1, In w1 pre \/ In w1 post -> Wall.id w1 <> Wall.id w).
  { intros w1 Hin Heq.
    apply List.NoDup_remove_2 in Hnd. apply Hnd.
    rewrite <- Heq. apply in_or_app.
    destruct Hin as [Hin|Hin]; [left|right]; now apply in_map. }
  intros w1 Hin1. apply in_app_or in Hin1.
  assert (Hold : In w1 pre \/ In w1 post ->
                 (Wall.id w1 ∈ CombatSystem.Loop.wallsToRemove st
                  <-> Wall.health w1 <= 0)).
  { intros Hin. apply Hinv. apply in_or_app.
    destruct Hin; [now left|right; now right]. }
  destruct Hin1 as [Hin1|[<-|Hin1]].
  - specialize (Hother w1 (or_introl Hin1)). specialize (Hold (or_introl Hin1)).
    destruct (WallDamageResult.destroyed (snd (CombatSystem.applyWallDamage b w)));
      [|exact Hold].
    rewrite <- Hold. set_solver.
  - rewrite Hid.
    destruct (WallDamageResult.destroyed (snd (CombatSystem.applyWallDamage b w)))
      eqn:Ed.
    + split; [intros _; now apply Hdes|set_solver].
    + split; [intros Hin; contradiction|].
      intros Hle. apply Hdes in Hle. discriminate.
  - specialize (Hother w1 (or_intror Hin1)). specialize (Hold (or_intror Hin1)).
    destruct (WallDamageResult.destroyed (snd (CombatSystem.applyWallDamage b w)));
      [|exact Hold].
    rewrite <- Hold. set_solver.
Qed.

Lemma bulletLoop_walls (gs : GameState.t) :
  List.NoDup (map Wall.id (GameState.walls gs)) ->
  (forall w, In w (GameState.walls gs) -> 0 < Wall.health w) ->
  wallsInvariant (CombatSystem.bulletLoop gs)
  /\ map Wall.id (CombatSystem.Loop.walls (CombatSystem.bulletLoop gs))
     = map Wall.id (GameState.walls gs).
Proof.
  intros Hnd Hpos. unfold CombatSystem.bulletLoop.
  apply (bulletLoop_invariant
           (fun st => wallsInvariant st
                      /\ map Wall.id (CombatSystem.Loop.walls st)
                         = map Wall.id (GameState.walls gs))).
  - split; [|reflexivity]. split; [exact Hnd|].
    cbn. intros w Hin. specialize (Hpos w Hin). split; [set_solver|lra].
  - intros st b _ [Hinv Hids].
    destruct (bulletStep_wallsInvariant st b Hinv) as [Hinv' Hids'].
    split; [exact Hinv'|congruence].
Qed.

Lemma floor_scenarioB : floor (35 * (1 - 0.5)) = 17.
Proof. unfold floor. f_equal. apply Zfloor_eq. lra. Qed.

Lemma scenarioB_walls :
  GameState.walls (snd (CombatSystem.updateBullets emptyCombat scenarioB))
  = [Wall.with_health 283 metalWall].
Proof.
  unfold CombatSystem.updateBullets, CombatSystem.bulletLoop.
  cbn [snd GameState.walls GameState.bullets GameState.players scenarioB
         fold_left].
  rewrite (bulletStep_wall _ _
             [fst (CombatSystem.applyWallDamage
                     (CombatSystem.moveBullet
                        (exampleBullet "bullet_0" "p1" 1028 400 12 35))
                     metalWall)]
             (snd (CombatSystem.applyWallDamage
                     (CombatSystem.moveBullet
                        (exampleBullet "bullet_0" "p1" 1028 400 12 35))
                     metalWall))).
  - cbn -[floor Rleb]. rewrite floor_scenarioB.
    replace (Rleb (300 - 17) 0) with false
      by (symmetry; apply Rleb_false_iff; lra).
    destruct (decide ("wall_0"%string ∉ (∅ : gset string))) as [_|Hn];
      [|exfalso; apply Hn; set_solver].
    unfold Wall.with_health, metalWall. cbn. repeat f_equal. lra.
  - exact scenarioB_in_bounds.
  - apply (wallLoop_first _ _ [] metalWall []).
    + intros w0 [].
    + exact scenarioB_wallHit.
Qed.

(** C2, as the specification states it, fails: in Scenario B the wall
    is left at health 283, not 265. *)
Lemma C2_counterexample :
  exists w,
    GameState.walls (snd (CombatSystem.updateBullets emptyCombat scenarioB))
    = [w]
    /\ Wall.health w = 283 /\ Wall.health w <> 265.
Proof.
  exists (Wall.with_health 283 metalWall).
  split; [exact scenarioB_walls|]. cbn. split; lra.
Qed.

(** C2 (amended).  A projectile that hits a wall lowers the wall's
    health by the floor of its damage times one minus the material's
    damage resistance.  Over one bullet update of a state whose walls
    have distinct ids and positive health, every wall keeps its place
    until the final filter, and it is dropped from the wall list by
    that same update exactly when its health has come to 0 or below.
    A projectile with damage 35 hitting a wall of the material with
    0.5 damage resistance and 300 health takes floor (35 * 0.5) = 17
    and leaves the wall at health 283, not destroyed. *)
Theorem C2_wall_damage_scaled_by_resistance
    (cs : CombatSystem.t) (gs : GameState.t) :
  List.NoDup (map Wall.id (GameState.walls gs)) ->
  (forall w, In w (GameState.walls gs) -> 0 < Wall.health w) ->
  let st := CombatSystem.bulletLoop gs in
  let gs' := snd (CombatSystem.updateBullets cs gs) in
  map Wall.id (CombatSystem.Loop.walls st) = map Wall.id (GameState.walls gs)
  /\ (forall w, In w (GameState.walls gs')
                <-> In w (CombatSystem.Loop.walls st) /\ 0 < Wall.health w)
  /\ (forall b w,
        let effectiveDamage :=
          floor (Bullet.damage b
                 * (1 - WallMaterialConfig.damageResistance
                          (WALL_MATERIALS (Wall.material w)))) in
        let w' := fst (CombatSystem.applyWallDamage b w) in
        let r := snd (CombatSystem.applyWallDamage b w) in
        Wall.health w' = Wall.health w - effectiveDamage
        /\ WallDamageResult.damage r = effectiveDamage
        /\ (WallDamageResult.destroyed r = true <-> Wall.health w' <= 0))
  /\ GameState.walls (snd (CombatSystem.updateBullets emptyCombat scenarioB))
     = [Wall.with_health 283 metalWall].
Proof.
  intros Hnd Hpos st gs'.
  destruct (bulletLoop_walls gs Hnd Hpos) as [[_ Hinv] Hids].
  split; [exact Hids|]. split; [|split; [|exact scenarioB_walls]].
  - intros w. unfold gs', CombatSystem.updateBullets.
    cbn [snd GameState.walls]. fold st.
    rewrite <- list_elem_of_In, list_elem_of_filter, list_elem_of_In.
    split.
    + intros [Hnin Hin]. split; [exact Hin|].
      destruct (Rlt_dec 0 (Wall.health w)) as [Hp|Hn]; [exact Hp|].
      exfalso. apply Hnin. apply (Hinv w Hin). lra.
    + intros [Hin Hp]. split; [|exact Hin].
      intros Hrm. apply (Hinv w Hin) in Hrm. lra.
  - intros b w. cbv zeta.
    destruct (applyWallDamage_spec b w) as (Hh & _ & _ & Hd & Hdes).
    auto.
Qed.

Lemma C2_witness :
  In (Wall.with_health 283 metalWall)
    (GameState.walls (snd (CombatSystem.updateBullets emptyCombat scenarioB)))
  <-> In (Wall.with_health 283 metalWall)
        (CombatSystem.Loop.walls (CombatSystem.bulletLoop scenarioB))
      /\ 0 < Wall.health (Wall.with_health 283 metalWall).
Proof.
  apply (proj1 (proj2 (C2_wall_damage_scaled_by_resistance emptyCombat scenarioB
                         ltac:(repeat constructor; cbn; tauto)
                         ltac:(intros w [<-|[]]; cbn; lra)))).
Defined.

(** ** The cap on concurrent power-ups *)

Lemma unexpired_length (now : Z) (boons : list Boon.t) :
  (length (BoonManager.unexpired now boons) <= length boons)%nat.
Proof.
  unfold BoonManager.unexpired.
  induction boons as [|b boons IH]; cbn; [lia|].
  destruct (now - Boon.spawnTime b <? Boon.lifetime b)%Z; cbn; lia.
Qed.

Lemma pickupLoop_length (car : CarState.t) (boons : list Boon.t)
    (found : Boon.t) (rest : list Boon.t) :
  BoonManager.pickupLoop car boons = Some (found, rest) ->
  length boons = S (length rest).
Proof.
  revert rest. induction boons as [|b boons IH]; cbn; intros rest H;
    [discriminate|].
  match goal with
  | H : context [Rltb ?a ?b] |- _ => destruct (Rltb a b)
  end.
  - injection H as _ <-. reflexivity.
  - destruct (BoonManager.pickupLoop car boons) as [[f r]|]; [|discriminate].
    injection H as -> <-. cbn. f_equal. now apply IH.
Qed.

Lemma update_cap (self : BoonManager.t) (walls : list Wall.t) (w : World.t)
    (self' : BoonManager.t) (w' : World.t) :
  BoonManager.update self walls w = Some (self', w') ->
  (length (BoonManager.boons self) <= BOON_MAX_COUNT)%nat ->
  (length (BoonManager.boons self') <= BOON_MAX_COUNT)%nat.
Proof.
  rewrite update_unfold. cbv zeta.
  cbn [BoonManager.boons].
  pose proof (unexpired_length (World.clock w (World.clockCalls w))
                (BoonManager.boons self)) as Hk.
  destruct (Nat.ltb _ BOON_MAX_COUNT) eqn:Hlt; cbn [andb].
  - apply Nat.ltb_lt in Hlt.
    destruct (_ >=? _)%Z.
    + destruct (BoonManager.trySpawnBoon _ walls (World.afterClock w))
        as [[[newBoon|] w1]|]; intros H; try discriminate;
        injection H as <- _; cbn; intros _.
      * rewrite length_app. cbn. lia.
      * lia.
    + intros H. injection H as <- _. cbn. lia.
  - intros H. injection H as <- _. cbn. lia.
Qed.

Lemma boonsReachable_cap (self : BoonManager.t) :
  boonsReachable self ->
  (length (BoonManager.boons self) <= BOON_MAX_COUNT)%nat.
Proof.
  induction 1 as [|self walls w self' w' _ IH Hu|self car _ IH
                  |self boonId _ IH|self _ IH|self _ IH].
  - cbn. unfold BOON_MAX_COUNT. lia.
  - exact (update_cap _ _ _ _ _ Hu IH).
  - unfold BoonManager.checkPickup.
    destruct (Rleb (CarState.health car) 0); [exact IH|].
    destruct (BoonManager.pickupLoop car (BoonManager.boons self))
      as [[found rest]|] eqn:Hp; [|exact IH].
    apply pickupLoop_length in Hp. cbn. lia.
  - unfold BoonManager.removeBoon. cbn.
    etransitivity; [apply List.filter_length_le|exact IH].
  - cbn. unfold BOON_MAX_COUNT. lia.
  - cbn. unfold BOON_MAX_COUNT. lia.
Qed.

(** C8.  Every update of a boon manager returns, and first removes
    the expired power-ups: what remains are, in their order, exactly
    the power-ups whose age at the clock reading of the update is
    below their lifetime.  The spawn decision is taken on what
    remains: a spawn attempt, which consumes random numbers and
    checks the candidate places against the remaining power-ups only,
    is made exactly when fewer than 3 power-ups remain and the spawn
    interval has elapsed since the last spawn; a successful attempt
    appends the new power-up and records the clock reading as the
    time of the last spawn, a failed one changes nothing more.
    Otherwise the update returns the remaining power-ups, leaves the
    time of the last spawn as it was and consumes no random number.
    A manager that holds at most 3 power-ups holds at most 3 after the
    update, so that no state a boon manager can reach holds more than
    3; and with 3 remaining no attempt is made. *)
Theorem C8_boon_cap_and_spawn_gate
    (self : BoonManager.t) (walls : list Wall.t) (w : World.t) :
  (length (BoonManager.boons self) <= BOON_MAX_COUNT)%nat ->
  let now := World.clock w (World.clockCalls w) in
  let remaining :=
    List.filter
      (fun boon => (now - Boon.spawnTime boon <? Boon.lifetime boon)%Z)
      (BoonManager.boons self) in
  let kept :=
    BoonManager.mk remaining
      (BoonManager.lastSpawnTime self) (BoonManager.spawnInterval self) in
  let due :=
    Nat.ltb (length remaining) BOON_MAX_COUNT
    && (now - BoonManager.lastSpawnTime self
        >=? BoonManager.spawnInterval self)%Z in
  (forall boon,
      In boon remaining <->
      In boon (BoonManager.boons self)
      /\ (now - Boon.spawnTime boon < Boon.lifetime boon)%Z)
  /\ (exists self' w',
      BoonManager.update self walls w = Some (self', w')
      /\ (length (BoonManager.boons self') <= BOON_MAX_COUNT)%nat
      /\ (due = false -> self' = kept /\ w' = World.afterClock w)
      /\ (due = true ->
          (World.randomCalls w + 2 <= World.randomCalls w')%nat
          /\ exists r,
               BoonManager.trySpawnBoon kept walls (World.afterClock w)
               = Some (r, w')
               /\ self'
                  = match r with
                    | Some newBoon =>
                        BoonManager.mk (remaining ++ [newBoon]) now
                          (BoonManager.spawnInterval self)
                    | None => kept
                    end)
      /\ (length remaining = BOON_MAX_COUNT ->
          self' = kept /\ World.randomCalls w' = World.randomCalls w)
      /\ (forall boon,
            In boon (BoonManager.boons self') ->
            In boon (BoonManager.boons self) ->
            (Boon.lifetime boon <= now - Boon.spawnTime boon)%Z ->
            due = true
            /\ BoonManager.trySpawnBoon kept walls (World.afterClock w)
               = Some (Some boon, w')))
  /\ (forall s, boonsReachable s ->
        (length (BoonManager.boons s) <= BOON_MAX_COUNT)%nat).
Proof.
  intros Hcap now remaining kept due.
  assert (Hrem : forall boon,
             In boon remaining <->
             In boon (BoonManager.boons self)
             /\ (now - Boon.spawnTime boon < Boon.lifetime boon)%Z).
  { intros boon. unfold remaining. rewrite List.filter_In, Z.ltb_lt.
    reflexivity. }
  split; [exact Hrem|].
  split; [|exact boonsReachable_cap].
  destruct (update_total self walls w) as (self' & w' & Hu).
  exists self', w'. split; [exact Hu|].
  split; [exact (update_cap _ _ _ _ _ Hu Hcap)|].
  rewrite update_unfold in Hu. cbv zeta in Hu. fold now in Hu.
  change (BoonManager.mk
            (BoonManager.unexpired now (BoonManager.boons self))
            (BoonManager.lastSpawnTime self) (BoonManager.spawnInterval self))
    with kept in Hu.
  change (BoonManager.boons kept) with remaining in Hu. fold due in Hu.
  assert (Hfalse : due = false -> self' = kept /\ w' = World.afterClock w).
  { intros Hd. rewrite Hd in Hu. injection Hu as <- <-. auto. }
  assert (Htrue : due = true ->
            (World.randomCalls w + 2 <= World.randomCalls w')%nat
            /\ exists r,
                 BoonManager.trySpawnBoon kept walls (World.afterClock w)
                 = Some (r, w')
                 /\ self'
                    = match r with
                      | Some newBoon =>
                          BoonManager.mk (remaining ++ [newBoon]) now
                            (BoonManager.spawnInterval self)
                      | None => kept
                      end).
  { intros Hd. rewrite Hd in Hu.
    unfold BoonManager.trySpawnBoon in *.
    destruct (trySpawnBoonFrom_total 20 kept walls (World.afterClock w))
      as (r & w1 & Hr & Hge & _).
    rewrite Hr in Hu.
    assert (Hw : w1 = w'
                 /\ self'
                    = match r with
                      | Some newBoon =>
                          BoonManager.mk (remaining ++ [newBoon]) now
                            (BoonManager.spawnInterval self)
                      | None => kept
                      end).
    { destruct r as [b|]; injection Hu as <- <-; auto. }
    destruct Hw as [<- Hb]. split.
    - specialize (Hge ltac:(discriminate)). cbn in Hge. exact Hge.
    - exists r. auto. }
  split; [exact Hfalse|]. split; [exact Htrue|]. split.
  - intros Hfull.
    assert (Hd : due = false).
    { unfold due. rewrite Hfull. reflexivity. }
    destruct (Hfalse Hd) as [-> ->]. auto.
  - intros boon Hin Hold Hexp.
    assert (Hgone : ~ In boon remaining).
    { rewrite Hrem. intros [_ Hlt]. lia. }
    destruct due eqn:Hd.
    + split; [reflexivity|].
      destruct (Htrue eq_refl) as (_ & r & Hr & Hs).
      destruct r as [newBoon|]; subst self'; cbn in Hin.
      * apply in_app_or in Hin as [Hin|[<-|[]]]; [contradiction|exact Hr].
      * contradiction.
    + destruct (Hfalse eq_refl) as [-> _]. contradiction.
Qed.

(** Scenario E: with three unexpired power-ups present the update
    leaves them as they are and draws no random number.  And when the
    clock stands at 20000, the first of three power-ups, spawned at
    time 0 with a lifetime of 15000, is removed; two remain, the
    interval has elapsed, and a spawn attempt is made. *)
Lemma C8_witness :
  (exists self' w',
      BoonManager.update threeBoons [] stillWorld = Some (self', w')
      /\ self' = threeBoons
      /\ World.randomCalls w' = World.randomCalls stillWorld)
  /\ (exists self' w' r,
         BoonManager.update agingBoons [] lateWorld = Some (self', w')
         /\ (2 <= World.randomCalls w')%nat
         /\ self'
            = match r with
              | Some newBoon =>
                  BoonManager.mk
                    ([Boon.mk "boon_b" 600 600 BoonType.shield 10000
                        BOON_LIFETIME;
                      Boon.mk "boon_c" 900 200 BoonType.speed 12000
                        BOON_LIFETIME] ++ [newBoon])
                    20000 BOON_SPAWN_INTERVAL
              | None =>
                  BoonManager.mk
                    [Boon.mk "boon_b" 600 600 BoonType.shield 10000
                       BOON_LIFETIME;
                     Boon.mk "boon_c" 900 200 BoonType.speed 12000
                       BOON_LIFETIME]
                    0 BOON_SPAWN_INTERVAL
              end).
Proof.
  split.
  - destruct (proj1 (proj2 (C8_boon_cap_and_spawn_gate threeBoons []
                              stillWorld
                              ltac:(cbn; unfold BOON_MAX_COUNT; lia))))
      as (self' & w' & Hu & _ & _ & _ & Hfull & _).
    exists self', w'. split; [exact Hu|].
    exact (Hfull eq_refl).
  - destruct (proj1 (proj2 (C8_boon_cap_and_spawn_gate agingBoons []
                              lateWorld
                              ltac:(cbn; unfold BOON_MAX_COUNT; lia))))
      as (self' & w' & Hu & _ & _ & Hdue & _).
    destruct (Hdue eq_refl) as (Hcalls & r & _ & Hs).
    exists self', w', r. split; [exact Hu|]. split; [exact Hcalls|].
    exact Hs.
Defined.

(** ** The judgement of a two-player match *)

Lemma two_player_judgement (e : GameEngine.t) (w : World.t)
    (k1 k2 : string) (d1 d2 : CarState.t) :
  GameState.players
    (snd (CombatSystem.updateBullets (GameEngine.combatSystem e)
            (GameEngine.stateManager e)))
  = [(k1, d1); (k2, d2)] ->
  k1 <> k2 ->
  (0 < CarState.health d1 -> 0 < CarState.maxHealth d1 ->
   CarState.health d2 <= 0 -> judgedOver e w (CarState.id d1))
  /\ (CarState.health d1 <= 0 -> 0 < CarState.health d2 ->
      0 < CarState.maxHealth d2 -> judgedOver e w (CarState.id d2))
  /\ (CarState.health d1 <= 0 -> CarState.health d2 <= 0 ->
      judgedOver e w "draw").
Proof.
  intros Hps Hne.
  assert (Hne' : k2 <> k1) by congruence.
  repeat split.
  - intros Hh1 Hm1 Hh2.
    pose proof (tick_judged e w (CarState.id d1) [k1]) as T.
    destruct (CombatSystem.updateBullets _ _) as [cs state].
    cbn [snd] in Hps. rewrite Hps in T.
    apply T; clear T.
    { cbn. replace (Rgtb (CarState.health d1) 0) with true
        by (symmetry; now apply Rgtb_true_iff).
      replace (Rgtb (CarState.health d2) 0) with false
        by (symmetry; now apply Rgtb_false_iff).
      reflexivity. }
    intros bm w' _.
    cbn [CollisionSystem.checkAllCarCollisions
           CollisionSystem.checkAllCarCollisionsFrom fold_left fst].
    destruct (wallCollisions_single k1 d1 (GameState.walls state)
                [(k1, d1); (k2, d2)]) as (d1' & -> & Hh' & Hid' & Hm');
      [cbn; destruct (decide (k1 = k1)); [reflexivity|contradiction]
      |exact Hh1|].
    cbn [mset]. destruct (decide (k1 = k1)) as [_|]; [|contradiction].
    match goal with
    | |- context [GameEngine.checkBoonPickups _ (bm, ?st)] =>
        destruct (checkBoonPickups_single k1 d1' bm st)
          as (bm' & dF & boons' & -> & HhF & HidF)
    end.
    { cbn. destruct (decide (k1 = k1)); [reflexivity|contradiction]. }
    { lra. }
    { lra. }
    cbn [snd GameStateManager.setPlayers GameState.players mset
           GameStateManager.setBoons].
    destruct (decide (k1 = k1)) as [_|]; [|contradiction].
    rewrite <- Hid', <- HidF.
    apply (proj1 (proj2 (checkWinCondition_cases _))).
    + cbn. lia.
    + cbn.
      replace (Rgtb (CarState.health dF) 0) with true
        by (symmetry; now apply Rgtb_true_iff).
      replace (Rgtb (CarState.health d2) 0) with false
        by (symmetry; now apply Rgtb_false_iff).
      reflexivity.
  - intros Hh1 Hh2 Hm2.
    pose proof (tick_judged e w (CarState.id d2) [k2]) as T.
    destruct (CombatSystem.updateBullets _ _) as [cs state].
    cbn [snd] in Hps. rewrite Hps in T.
    apply T; clear T.
    { cbn. replace (Rgtb (CarState.health d2) 0) with true
        by (symmetry; now apply Rgtb_true_iff).
      replace (Rgtb (CarState.health d1) 0) with false
        by (symmetry; now apply Rgtb_false_iff).
      reflexivity. }
    intros bm w' _.
    cbn [CollisionSystem.checkAllCarCollisions
           CollisionSystem.checkAllCarCollisionsFrom fold_left fst].
    destruct (wallCollisions_single k2 d2 (GameState.walls state)
                [(k1, d1); (k2, d2)]) as (d2' & -> & Hh' & Hid' & Hm');
      [cbn; destruct (decide (k2 = k1)); [contradiction|];
       destruct (decide (k2 = k2)); [reflexivity|contradiction]
      |exact Hh2|].
    cbn [mset]. destruct (decide (k2 = k1)) as [|_]; [contradiction|].
    destruct (decide (k2 = k2)) as [_|]; [|contradiction].
    match goal with
    | |- context [GameEngine.checkBoonPickups _ (bm, ?st)] =>
        destruct (checkBoonPickups_single k2 d2' bm st)
          as (bm' & dF & boons' & -> & HhF & HidF)
    end.
    { cbn. destruct (decide (k2 = k1)); [contradiction|].
      destruct (decide (k2 = k2)); [reflexivity|contradiction]. }
    { lra. }
    { lra. }
    cbn [snd GameStateManager.setPlayers GameState.players mset
           GameStateManager.setBoons].
    destruct (decide (k2 = k1)) as [|_]; [contradiction|].
    destruct (decide (k2 = k2)) as [_|]; [|contradiction].
    rewrite <- Hid', <- HidF.
    apply (proj1 (proj2 (checkWinCondition_cases _))).
    + cbn. lia.
    + cbn.
      replace (Rgtb (CarState.health dF) 0) with true
        by (symmetry; now apply Rgtb_true_iff).
      replace (Rgtb (CarState.health d1) 0) with false
        by (symmetry; now apply Rgtb_false_iff).
      reflexivity.
  - intros Hh1 Hh2.
    pose proof (tick_judged e w "draw" []) as T.
    destruct (CombatSystem.updateBullets _ _) as [cs state].
    cbn [snd] in Hps. rewrite Hps in T.
    apply T; clear T.
    { cbn. replace (Rgtb (CarState.health d1) 0) with false
        by (symmetry; now apply Rgtb_false_iff).
      replace (Rgtb (CarState.health d2) 0) with false
        by (symmetry; now apply Rgtb_false_iff).
      reflexivity. }
    intros bm w' _.
    cbn [CollisionSystem.checkAllCarCollisions
           CollisionSystem.checkAllCarCollisionsFrom
           CollisionSystem.checkAllCarWallCollisions
           GameEngine.checkBoonPickups fold_left fst snd].
    apply (proj1 (proj2 (proj2 (checkWinCondition_cases _)))).
    + cbn. lia.
    + cbn.
      replace (Rgtb (CarState.health d1) 0) with false
        by (symmetry; now apply Rgtb_false_iff).
      replace (Rgtb (CarState.health d2) 0) with false
        by (symmetry; now apply Rgtb_false_iff).
      reflexivity.
Qed.

(** C6, as the specification states it, fails: in the double hit a
    projectile brings player p2 to health -5 in a two-player match, yet
    the same tick's check does not report the opponent p1 as winner:
    p1 fell in the same update, and the check reports a draw. *)
Lemma C6_counterexample :
  (exists car,
      mget "p2"%string
        (GameState.players
           (snd (CombatSystem.updateBullets emptyCombat doubleHit)))
      = Some car
      /\ CarState.health car <= 0)
  /\ exists e' w',
       GameEngine.tickFromBullets (engineOf doubleHit) stillWorld
       = Some (e', w')
       /\ GameState.gameStatus (GameEngine.stateManager e') = gameover
       /\ GameState.winner (GameEngine.stateManager e') = None
       /\ GameEngine.events e' = [onGameOver "draw"]
       /\ GameEngine.events e' <> [onGameOver "p1"].
Proof.
  destruct doubleHit_players as (d1 & d2 & Hps & Hh1 & Hh2).
  split.
  - exists d2. rewrite Hps. split; [reflexivity|lra].
  - destruct (proj2 (proj2 (two_player_judgement (engineOf doubleHit)
                              stillWorld "p1" "p2" d1 d2 Hps
                              ltac:(discriminate))))
      as (e' & w' & Ht & Hs & Hw & He); [lra|lra|].
    exists e', w'. rewrite He. cbn in Hw |- *.
    repeat split; try assumption. discriminate.
Qed.

(** C6 (amended).  The win-condition check returns no decision when
    fewer than two players are present; with at least two, the only
    player with health above 0 as winner, a draw when no player has
    health above 0, and no decision when two or more have.  In a
    two-player match, when the bullet update leaves one player at
    health 0 or below and the other above 0 (and within its maximum),
    the same tick ends the match: the status becomes gameover and the
    living player is reported as winner.  When it leaves both at 0 or
    below, the tick ends the match as a draw, with no winner recorded. *)
Theorem C6_win_condition_and_judgement
    (e : GameEngine.t) (w : World.t) (k1 k2 : string) (d1 d2 : CarState.t) :
  GameState.players
    (snd (CombatSystem.updateBullets (GameEngine.combatSystem e)
            (GameEngine.stateManager e)))
  = [(k1, d1); (k2, d2)] ->
  k1 <> k2 ->
  (forall state,
      let players := GameStateManager.getAllPlayers state in
      let alive := List.filter (fun p => Rgtb (CarState.health p) 0) players in
      ((length players < 2)%nat ->
       GameStateManager.checkWinCondition state = WinCheck.mk false None)
      /\ ((2 <= length players)%nat ->
          forall winner, alive = [winner] ->
          GameStateManager.checkWinCondition state
          = WinCheck.mk true (Some (CarState.id winner)))
      /\ ((2 <= length players)%nat -> alive = [] ->
          GameStateManager.checkWinCondition state
          = WinCheck.mk true (Some "draw"%string))
      /\ ((2 <= length players)%nat -> (2 <= length alive)%nat ->
          GameStateManager.checkWinCondition state = WinCheck.mk false None))
  /\ (0 < CarState.health d1 <= CarState.maxHealth d1 ->
      CarState.health d2 <= 0 -> judgedOver e w (CarState.id d1))
  /\ (CarState.health d1 <= 0 ->
      0 < CarState.health d2 <= CarState.maxHealth d2 ->
      judgedOver e w (CarState.id d2))
  /\ (CarState.health d1 <= 0 -> CarState.health d2 <= 0 ->
      judgedOver e w "draw").
Proof.
  intros Hps Hne.
  destruct (two_player_judgement e w k1 k2 d1 d2 Hps Hne) as (J1 & J2 & J3).
  split; [exact checkWinCondition_cases|].
  split; [|split; [|exact J3]].
  - intros [Hh Hm] Hd. apply J1; lra.
  - intros Hd [Hh Hm]. apply J2; lra.
Qed.

(** Scenario C: the hit that brings p2 to -5 ends the match in the same
    tick, with p1 as winner. *)
Lemma C6_witness :
  exists e' w',
    GameEngine.tickFromBullets (engineOf scenarioC) stillWorld = Some (e', w')
    /\ GameState.gameStatus (GameEngine.stateManager e') = gameover
    /\ GameState.winner (GameEngine.stateManager e') = Some "p1"%string
    /\ GameEngine.events e' = [onGameOver "p1"].
Proof.
  destruct scenarioC_players as (d1 & d2 & Hps & Hh1 & Hm1 & Hid & Hh2).
  destruct (proj1 (proj2 (C6_win_condition_and_judgement (engineOf scenarioC)
                            stillWorld "p1" "p2" d1 d2 Hps
                            ltac:(discriminate))))
    as (e' & w' & Ht & Hs & Hw & He); [lra|lra|].
  exists e', w'. rewrite Hid in Hw, He. auto.
Defined.

(** ** Fire requests *)

Lemma tryShootWeapon_cases (now : Z) (car : CarState.t)
    (bullets : list Bullet.t) (walls : list Wall.t) (weaponType : WeaponType)
    (cooldownMap : gmap string Z) (counter : nat) :
  ((coolingDown now car weaponType cooldownMap
    \/ spawnBlocked car weaponType walls)
   /\ CombatSystem.tryShootWeapon now car bullets walls weaponType
        cooldownMap counter
      = (false, bullets, cooldownMap, counter))
  \/ (~ coolingDown now car weaponType cooldownMap
      /\ ~ spawnBlocked car weaponType walls
      /\ CombatSystem.tryShootWeapon now car bullets walls weaponType
           cooldownMap counter
         = (true,
            bullets ++ [fst (CombatSystem.createBullet car weaponType counter)],
            <[CarState.id car := now]> cooldownMap, S counter)).
Proof.
  unfold CombatSystem.tryShootWeapon, coolingDown, spawnBlocked.
  destruct (Z.ltb_spec
              (now - default 0%Z (cooldownMap !! CarState.id car))
              (WeaponConfig.cooldown (WEAPON_CONFIGS weaponType)))
    as [Hlt|Hge].
  { left. split; [now left|reflexivity]. }
  destruct (existsb _ walls) eqn:Hex.
  - left. split; [|reflexivity]. right.
    apply existsb_exists in Hex. destruct Hex as (wall & Hin & Hw).
    exists wall. auto.
  - right. split; [lia|]. split; [|reflexivity].
    intros (wall & Hin & Hw).
    assert (existsb
              (fun wall =>
                 rectangleIntersectsWall
                   (Vector2.x (CombatSystem.spawnPosition car))
                   (Vector2.y (CombatSystem.spawnPosition car))
                   (WeaponConfig.size (WEAPON_CONFIGS weaponType))
                   (WeaponConfig.size (WEAPON_CONFIGS weaponType)) wall)
              walls = true) as Hex'
      by (apply existsb_exists; eauto).
    congruence.
Qed.

(** The blocked car, evaluated: the spawn point of p1's bullet, 35
    ahead of the car, lies inside the wall. *)
Lemma blocked_spawn : spawnBlocked carP1 cannon [blockingWall].
Proof.
  exists blockingWall. split; [now left|].
  unfold rectangleIntersectsWall, CombatSystem.spawnPosition, Vector.add,
    Vector.fromAngle.
  cbn. unfold CAR_WIDTH, CANNON_BULLET_SIZE. rewrite cos_0, sin_0.
  rcases; reflexivity.
Qed.

(** C4, as the specification states it, fails: two cannon fire requests
    of the same car, 10 ms apart, with the cooldown elapsed and a wall
    right in front of the car, append no projectile at all. *)
Lemma C4_counterexample :
  CombatSystem.tryShootWeapon 5000 carP1 [] [blockingWall] cannon ∅ 0
  = (false, [], ∅, 0%nat)
  /\ CombatSystem.tryShootWeapon 5010 carP1 [] [blockingWall] cannon ∅ 0
     = (false, [], ∅, 0%nat)
  /\ (5010 - 5000 < WeaponConfig.cooldown (WEAPON_CONFIGS cannon))%Z
  /\ length (@nil Bullet.t) <> 1%nat.
Proof.
  assert (H : forall now,
             CombatSystem.tryShootWeapon now carP1 [] [blockingWall] cannon ∅ 0
             = (false, [], ∅, 0%nat)).
  { intros now.
    destruct (tryShootWeapon_cases now carP1 [] [blockingWall] cannon ∅ 0)
      as [[_ E]|(_ & Hnb & _)]; [exact E|].
    exfalso. apply Hnb. exact blocked_spawn. }
  split; [apply H|]. split; [apply H|]. split; [reflexivity|discriminate].
Qed.

(** C4 (amended).  A fire request is rejected exactly when the
    weapon's cooldown for the car has not elapsed or the spawn point,
    offset forward from the car, overlaps some wall.  A rejected
    request leaves the bullet list, the recorded last-fire times and
    the id counter as they were; an accepted one appends one bullet
    and records the instant.  Hence of two requests on the same weapon
    by the same car, the second less than one cooldown after the
    first, at most one is accepted: they append exactly one projectile
    when either is accepted, the second being rejected whenever the
    first is accepted, and none when both are rejected. *)
Theorem C4_fire_rejected_iff_cooling_or_blocked
    (now : Z) (car : CarState.t) (bullets : list Bullet.t)
    (walls : list Wall.t) (weaponType : WeaponType)
    (cooldownMap : gmap string Z) (counter : nat)
    (fired : bool) (bullets' : list Bullet.t) (cooldownMap' : gmap string Z)
    (counter' : nat) :
  CombatSystem.tryShootWeapon now car bullets walls weaponType cooldownMap
    counter
  = (fired, bullets', cooldownMap', counter') ->
  (fired = false
   <-> coolingDown now car weaponType cooldownMap
       \/ spawnBlocked car weaponType walls)
  /\ (fired = false ->
      bullets' = bullets /\ cooldownMap' = cooldownMap /\ counter' = counter)
  /\ (fired = true ->
      bullets'
      = bullets ++ [fst (CombatSystem.createBullet car weaponType counter)]
      /\ cooldownMap' = <[CarState.id car := now]> cooldownMap)
  /\ (forall now2 car2 walls2 fired2 bullets2 cooldownMap2 counter2,
        CarState.id car2 = CarState.id car ->
        (now2 - now < WeaponConfig.cooldown (WEAPON_CONFIGS weaponType))%Z ->
        CombatSystem.tryShootWeapon now2 car2 bullets' walls2 weaponType
          cooldownMap' counter'
        = (fired2, bullets2, cooldownMap2, counter2) ->
        (fired = true -> fired2 = false /\ bullets2 = bullets')
        /\ (length bullets2 <= length bullets + 1)%nat
        /\ (length bullets2 = (length bullets + 1)%nat
            <-> fired = true \/ fired2 = true)).
Proof.
  intros H.
  destruct (tryShootWeapon_cases now car bullets walls weaponType cooldownMap
              counter) as [[Hrej E]|(Hnc & Hnb & E)];
    rewrite E in H; injection H as <- <- <- <-.
  - split; [tauto|]. split; [auto|]. split; [discriminate|].
    intros now2 car2 walls2 fired2 bullets2 cooldownMap2 counter2 _ _ H2.
    split; [discriminate|].
    destruct (tryShootWeapon_cases now2 car2 bullets walls2 weaponType
                cooldownMap counter) as [[_ E2]|(_ & _ & E2)];
      rewrite E2 in H2; injection H2 as <- <- _ _.
    + split; [lia|]. split; [lia|intros [?|?]; discriminate].
    + rewrite length_app. cbn. split; [lia|]. split; auto.
  - split; [split; [discriminate|tauto]|]. split; [discriminate|].
    split; [auto|].
    intros now2 car2 walls2 fired2 bullets2 cooldownMap2 counter2 Hid Hsoon H2.
    destruct (tryShootWeapon_cases now2 car2
                (bullets ++ [fst (CombatSystem.createBullet car weaponType counter)])
                walls2 weaponType (<[CarState.id car := now]> cooldownMap)
                (S counter)) as [[_ E2]|(Hnc2 & _ & _)].
    + pose proof (eq_trans (eq_sym E2) H2) as H3.
      injection H3 as <- <- _ _.
      rewrite length_app. cbn. split; [auto|]. split; [lia|]. split; auto.
    + exfalso. apply Hnc2. unfold coolingDown.
      rewrite Hid, lookup_insert_eq. cbn. exact Hsoon.
Qed.

Lemma open_field_fires :
  CombatSystem.tryShootWeapon 5000 carP1 [] [] cannon ∅ 0
  = (true, [fst (CombatSystem.createBullet carP1 cannon 0)],
     <["p1"%string := 5000%Z]> ∅, 1%nat).
Proof.
  destruct (tryShootWeapon_cases 5000 carP1 [] [] cannon ∅ 0)
    as [[[Hc|Hb] _]|(_ & _ & E)]; [| |exact E].
  - exfalso. unfold coolingDown in Hc. rewrite lookup_empty in Hc.
    cbn in Hc. unfold CANNON_COOLDOWN in Hc. lia.
  - exfalso. destruct Hb as (wall & [] & _).
Qed.

(** In the open, the first of two requests 10 ms apart fires and the
    second is rejected: exactly one projectile. *)
Lemma C4_witness :
  fst (fst (fst (CombatSystem.tryShootWeapon 5010 carP1
                   [fst (CombatSystem.createBullet carP1 cannon 0)] [] cannon
                   (<["p1"%string := 5000%Z]> ∅) 1)))
  = false
  /\ length
       (snd (fst (fst (CombatSystem.tryShootWeapon 5010 carP1
                         [fst (CombatSystem.createBullet carP1 cannon 0)] []
                         cannon (<["p1"%string := 5000%Z]> ∅) 1))))
     = 1%nat.
Proof.
  destruct (CombatSystem.tryShootWeapon 5010 carP1
              [fst (CombatSystem.createBullet carP1 cannon 0)] [] cannon
              (<["p1"%string := 5000%Z]> ∅) 1)
    as [[[fired2 bullets2] cooldownMap2] counter2] eqn:H2.
  destruct (proj2 (proj2 (proj2
              (C4_fire_rejected_iff_cooling_or_blocked 5000 carP1 [] [] cannon
                 ∅ 0 true [fst (CombatSystem.createBullet carP1 cannon 0)]
                 (<["p1"%string := 5000%Z]> ∅) 1 open_field_fires)))
              5010%Z carP1 [] fired2 bullets2 cooldownMap2 counter2
              eq_refl ltac:(reflexivity) H2) as (Hrej & _ & _).
  destruct (Hrej eq_refl) as [-> ->]. auto.
Defined.

(** ** Car-car collision resolution *)

Lemma centerDistance_nonneg (car1 car2 : CarState.t) :
  0 <= centerDistance car1 car2.
Proof. unfold centerDistance. apply sqrt_pos. Qed.

Lemma centerDistance_sqr (car1 car2 : CarState.t) :
  centerDistance car1 car2 * centerDistance car1 car2
  = (CarState.x car1 - CarState.x car2) * (CarState.x car1 - CarState.x car2)
    + (CarState.y car1 - CarState.y car2) * (CarState.y car1 - CarState.y car2).
Proof.
  unfold centerDistance. cbv zeta. apply sqrt_sqrt.
  apply Rplus_le_le_0_compat; apply Rle_0_sqr.
Qed.

(** After the push the centres are exactly one car width apart. *)
Lemma pushed_apart (car1 car2 c1 c2 : CarState.t) :
  let d := centerDistance car1 car2 in
  let dx := CarState.x car1 - CarState.x car2 in
  let dy := CarState.y car1 - CarState.y car2 in
  0 < d -> d < CAR_WIDTH ->
  CarState.x c1 = CarState.x car1 + dx / d * (CAR_WIDTH - d) * 0.5 ->
  CarState.y c1 = CarState.y car1 + dy / d * (CAR_WIDTH - d) * 0.5 ->
  CarState.x c2 = CarState.x car2 - dx / d * (CAR_WIDTH - d) * 0.5 ->
  CarState.y c2 = CarState.y car2 - dy / d * (CAR_WIDTH - d) * 0.5 ->
  centerDistance c1 c2 = CAR_WIDTH.
Proof.
  intros d dx dy Hd Hlt X1 Y1 X2 Y2.
  pose proof (centerDistance_sqr car1 car2) as Hsq. fold d dx dy in Hsq.
  unfold centerDistance. rewrite X1, Y1, X2, Y2. fold dx dy.
  replace (CarState.x car1 + dx / d * (CAR_WIDTH - d) * 0.5
           - (CarState.x car2 - dx / d * (CAR_WIDTH - d) * 0.5))
    with (dx * (CAR_WIDTH / d)) by (unfold dx; rewrite half_decimal; field; lra).
  replace (CarState.y car1 + dy / d * (CAR_WIDTH - d) * 0.5
           - (CarState.y car2 - dy / d * (CAR_WIDTH - d) * 0.5))
    with (dy * (CAR_WIDTH / d)) by (unfold dy; rewrite half_decimal; field; lra).
  replace (dx * (CAR_WIDTH / d) * (dx * (CAR_WIDTH / d))
           + dy * (CAR_WIDTH / d) * (dy * (CAR_WIDTH / d)))
    with (CAR_WIDTH * CAR_WIDTH).
  - apply sqrt_square. unfold CAR_WIDTH. lra.
  - transitivity ((dx * dx + dy * dy) * (CAR_WIDTH * CAR_WIDTH) / (d * d));
      [|field; lra].
    rewrite <- Hsq. field. lra.
Qed.

Lemma collidePair_dead (k1 k2 : string) (players : Players)
    (results : list CollisionResult.t) (a b : CarState.t) :
  mget k1 players = Some a -> mget k2 players = Some b ->
  CarState.health a <= 0 \/ CarState.health b <= 0 ->
  CollisionSystem.collidePair k1 k2 (players, results) = (players, results).
Proof.
  intros Ha Hb Hd. unfold CollisionSystem.collidePair. rewrite Ha, Hb.
  replace (Rleb (CarState.health a) 0 || Rleb (CarState.health b) 0)
    with true; [reflexivity|].
  symmetry. apply orb_true_iff.
  destruct Hd; [left|right]; now apply Rleb_true_iff.
Qed.

Lemma collidePair_living (k1 k2 : string) (players : Players)
    (results : list CollisionResult.t) (a b : CarState.t) :
  mget k1 players = Some a -> mget k2 players = Some b -> k1 <> k2 ->
  0 < CarState.health a -> 0 < CarState.health b ->
  let res := CollisionSystem.checkCarCollision a b in
  let players' :=
    fst (CollisionSystem.collidePair k1 k2 (players, results)) in
  mget k1 players' = Some (fst (fst res))
  /\ mget k2 players' = Some (snd (fst res))
  /\ (forall k, k <> k1 -> k <> k2 -> mget k players' = mget k players).
Proof.
  intros Ha Hb Hne Hha Hhb res players'.
  unfold players', CollisionSystem.collidePair. rewrite Ha, Hb.
  replace (Rleb (CarState.health a) 0 || Rleb (CarState.health b) 0)
    with false.
  2:{ symmetry. apply orb_false_iff.
      split; now apply Rleb_false_iff. }
  fold res. destruct res as [[c1 c2] r]. cbn [fst snd].
  assert (E : fst (if CollisionResult.occurred r
                   then (mset k2 c2 (mset k1 c1 players), results ++ [r])
                   else (mset k2 c2 (mset k1 c1 players), results))
              = mset k2 c2 (mset k1 c1 players))
    by (destruct (CollisionResult.occurred r); reflexivity).
  rewrite E. split; [|split].
  - rewrite mget_mset_ne by congruence. apply mget_mset_eq.
  - apply mget_mset_eq.
  - intros k H1 H2. rewrite !mget_mset_ne by congruence. reflexivity.
Qed.

(** C7.  For two living cars the collision is resolved exactly when
    the distance between their centres is strictly less than the sum of
    their half-widths.  Resolution moves each car half the overlap
    along the unit separation vector, away from the other, so that the
    centres end one car width apart (for centres that do not coincide:
    there is no separation vector at distance 0, where the source
    divides 0 by 0); gives each car half the other's
    velocity; and, exactly when the relative speed before the exchange
    exceeds the damage threshold, subtracts floor (relativeSpeed x
    multiplier), at least 6, from the health of both.  A pair with a
    car at health 0 or below is not touched. *)
Theorem C7_collision_pushes_bounces_and_damages_both
    (car1 car2 : CarState.t) :
  let halfWidth := CAR_WIDTH / 2 in
  let d := centerDistance car1 car2 in
  let dx := CarState.x car1 - CarState.x car2 in
  let dy := CarState.y car1 - CarState.y car2 in
  let overlap := halfWidth + halfWidth - d in
  let rs := PhysicsSystem.getRelativeSpeed car1 car2 in
  let damage := floor (rs * COLLISION_DAMAGE_MULTIPLIER) in
  let res := CollisionSystem.checkCarCollision car1 car2 in
  let c1 := fst (fst res) in
  let c2 := snd (fst res) in
  (CollisionResult.occurred (snd res) = true <-> d < halfWidth + halfWidth)
  /\ (halfWidth + halfWidth <= d -> c1 = car1 /\ c2 = car2)
  /\ (d < halfWidth + halfWidth ->
      (0 < d ->
       CarState.x c1 = CarState.x car1 + dx / d * (overlap / 2)
       /\ CarState.y c1 = CarState.y car1 + dy / d * (overlap / 2)
       /\ CarState.x c2 = CarState.x car2 - dx / d * (overlap / 2)
       /\ CarState.y c2 = CarState.y car2 - dy / d * (overlap / 2)
       /\ centerDistance c1 c2 = halfWidth + halfWidth)
      /\ CarState.velocityX c1 = CarState.velocityX car2 * 0.5
      /\ CarState.velocityY c1 = CarState.velocityY car2 * 0.5
      /\ CarState.velocityX c2 = CarState.velocityX car1 * 0.5
      /\ CarState.velocityY c2 = CarState.velocityY car1 * 0.5
      /\ (rs > COLLISION_DAMAGE_THRESHOLD ->
          CarState.health c1 = CarState.health car1 - damage
          /\ CarState.health c2 = CarState.health car2 - damage
          /\ CollisionResult.damage (snd res) = Some damage
          /\ 6 <= damage)
      /\ (rs <= COLLISION_DAMAGE_THRESHOLD ->
          CarState.health c1 = CarState.health car1
          /\ CarState.health c2 = CarState.health car2
          /\ CollisionResult.damage (snd res) = Some 0))
  /\ (forall k1 k2 players results,
        mget k1 players = Some car1 -> mget k2 players = Some car2 ->
        k1 <> k2 ->
        let players' :=
          fst (CollisionSystem.collidePair k1 k2 (players, results)) in
        (CarState.health car1 <= 0 \/ CarState.health car2 <= 0 ->
         players' = players)
        /\ (0 < CarState.health car1 -> 0 < CarState.health car2 ->
            mget k1 players' = Some c1 /\ mget k2 players' = Some c2)).
Proof.
  intros halfWidth d dx dy overlap rs damage res c1 c2.
  assert (Hw : halfWidth + halfWidth = CAR_WIDTH)
    by (unfold halfWidth, CAR_WIDTH; lra).
  assert (Hfar : CAR_WIDTH <= d -> res = (car1, car2, CollisionResult.mk false None)).
  { intros H. now apply checkCarCollision_far. }
  split; [|split; [|split]].
  - rewrite Hw. split.
    + intros Ho. destruct (Rlt_dec d CAR_WIDTH) as [|Hn]; [assumption|].
      rewrite Hfar in Ho by lra. discriminate.
    + intros Hlt. pose proof (checkCarCollision_near car1 car2 Hlt) as S.
      fold res in S. destruct res as [[a b] r]. cbv beta iota zeta in S.
      destruct S as (-> & _). reflexivity.
  - rewrite Hw. intros H. unfold c1, c2. rewrite (Hfar H). auto.
  - rewrite Hw. intros Hlt.
    pose proof (checkCarCollision_near car1 car2 Hlt) as S.
    fold res in S. unfold c1, c2. destruct res as [[a b] r].
    cbv beta iota zeta in S. fold d dx dy rs damage in S. cbn [fst snd].
    destruct S as (Er & X1 & Y1 & X2 & Y2 & V1 & V2 & V3 & V4 & H1 & H2 & _).
    unfold overlap. rewrite Hw.
    split.
    { intros Hd.
      split; [rewrite X1; lra|]. split; [rewrite Y1; lra|].
      split; [rewrite X2; lra|]. split; [rewrite Y2; lra|].
      now apply (pushed_apart car1 car2 a b). }
    split; [exact V1|]. split; [exact V2|]. split; [exact V3|].
    split; [exact V4|]. split.
    + intros Hrs.
      replace (Rgtb rs COLLISION_DAMAGE_THRESHOLD) with true in *
        by (symmetry; now apply Rgtb_true_iff).
      rewrite Er. repeat split; try assumption.
      now apply collision_damage_nonneg.
    + intros Hrs.
      replace (Rgtb rs COLLISION_DAMAGE_THRESHOLD) with false in *
        by (symmetry; now apply Rgtb_false_iff).
      rewrite Er. auto.
  - intros k1 k2 players results G1 G2 Hne players'. split.
    + intros Hd. unfold players'.
      now rewrite (collidePair_dead k1 k2 players results car1 car2).
    + intros L1 L2.
      destruct (collidePair_living k1 k2 players results car1 car2
                  G1 G2 Hne L1 L2) as (E1 & E2 & _).
      auto.
Qed.

Lemma rammer_relativeSpeed : PhysicsSystem.getRelativeSpeed rammer rammed = 5.
Proof.
  unfold PhysicsSystem.getRelativeSpeed. cbn.
  replace ((4 - 0) * ((4 - 0) * 1) + (0 - 3) * ((0 - 3) * 1)) with (5 * 5)
    by lra.
  apply sqrt_square. lra.
Qed.

Lemma rammer_distance : centerDistance rammer rammed = 5.
Proof.
  unfold centerDistance. cbn.
  replace ((100 - 103) * (100 - 103) + (100 - 104) * (100 - 104)) with (5 * 5)
    by lra.
  apply sqrt_square. lra.
Qed.

(** Two cars 5 apart with relative speed 5 both lose floor (5 x 2) = 10
    health. *)
Lemma C7_witness :
  CarState.health (fst (fst (CollisionSystem.checkCarCollision rammer rammed)))
  = 100 - floor (5 * 2)
  /\ CarState.health (snd (fst (CollisionSystem.checkCarCollision rammer rammed)))
     = 100 - floor (5 * 2).
Proof.
  destruct (proj1 (proj2 (proj2 (C7_collision_pushes_bounces_and_damages_both
                                   rammer rammed))))
    as (_ & _ & _ & _ & _ & Hdmg & _).
  - rewrite rammer_distance. unfold CAR_WIDTH. lra.
  - rewrite rammer_relativeSpeed in Hdmg.
    destruct Hdmg as (H1 & H2 & _);
      [unfold COLLISION_DAMAGE_THRESHOLD; lra|].
    split; [exact H1|exact H2].
Defined.
(** ** One physics advance *)



(** ** Matchmaking *)

(** A socket that is new to a non-empty queue finds another one. *)
Lemma enqueued_finds_other (ws : WebSocket) (player : QueuedPlayer.t)
    (queue : list (WebSocket * QueuedPlayer.t)) :
  ~ In ws (mkeys queue) -> queue <> [] ->
  (2 <= length (mset ws player queue))%nat
  /\ exists otherWs otherPlayer,
       RoomManager.findOther ws (mset ws player queue)
       = Some (otherWs, otherPlayer).
Proof.
  intros Hnin Hne. destruct queue as [|[k p] queue]; [congruence|]. split.
  - assert (Hl : length (mkeys (mset ws player ((k, p) :: queue)))
                 = S (S (length queue))).
    { rewrite mkeys_mset.
      destruct (mhas ws ((k, p) :: queue)) eqn:Hh.
      - apply mhas_true_iff in Hh. contradiction.
      - rewrite length_app. unfold mkeys. cbn. rewrite length_map. lia. }
    unfold mkeys in Hl. rewrite length_map in Hl. lia.
  - apply (findOther_finds ws _ k).
    + rewrite mkeys_mset. destruct (mhas ws ((k, p) :: queue)); [now left|].
      apply in_or_app. left. now left.
    + intros ->. apply Hnin. now left.
Qed.

(** C9.  A join request by a socket that is already queued changes
    nothing and reports no match, so the queue never holds a socket
    twice.  Otherwise the socket is enqueued and a match is reported
    exactly when another socket was waiting: the two sockets are
    distinct, the other one was queued before, both are out of the
    queue (which is the old queue without the other socket) in the
    state on which the room is created, and stay out while the new
    socket joins that room; the room ends up registered under the
    reported code with the new socket connected, and the other socket
    as well unless both drew the same player id.  With no room
    registered the request returns whatever the fuel of the code-retry
    loop. *)
Theorem C9_matchmaking_pairs_distinct_and_dequeues (fuel : nat)
    (ws : WebSocket) (self : RoomManager.t) (w : World.t) :
  List.NoDup (mkeys (RoomManager.matchmakingQueue self)) ->
  (In ws (mkeys (RoomManager.matchmakingQueue self)) ->
   RoomManager.joinMatchmaking fuel ws self w
   = Some ((MatchResult.mk false None None, self), w))
  /\ (RoomManager.rooms self = ∅ ->
      exists res self' w',
        RoomManager.joinMatchmaking fuel ws self w = Some ((res, self'), w'))
  /\ (forall res self' w',
        RoomManager.joinMatchmaking fuel ws self w = Some ((res, self'), w') ->
        List.NoDup (mkeys (RoomManager.matchmakingQueue self'))
        /\ (MatchResult.matched res = true <->
            ~ In ws (mkeys (RoomManager.matchmakingQueue self))
            /\ RoomManager.matchmakingQueue self <> [])
        /\ (MatchResult.matched res = true ->
            exists otherWs,
              otherWs <> ws
              /\ In otherWs (mkeys (RoomManager.matchmakingQueue self))
              /\ RoomManager.matchmakingQueue self'
                 = mdelete otherWs (RoomManager.matchmakingQueue self)
              /\ ~ In ws (mkeys (RoomManager.matchmakingQueue self'))
              /\ ~ In otherWs (mkeys (RoomManager.matchmakingQueue self'))
              /\ exists dequeued roomCode hostId created w2 playerId n joined,
                   RoomManager.matchmakingQueue dequeued
                   = mdelete otherWs (RoomManager.matchmakingQueue self)
                   /\ RoomManager.rooms dequeued = RoomManager.rooms self
                   /\ RoomManager.createRoom fuel otherWs dequeued
                        (World.afterClock w)
                      = Some ((Some (roomCode, hostId), created), w2)
                   /\ RoomManager.joinRoom ws roomCode
                        (RoomManager.send otherWs (matchFound roomCode)
                           created) w2
                      = Some ((Some (playerId, n), joined), w')
                   /\ self' = RoomManager.send ws (matchFound roomCode) joined
                   /\ res
                      = MatchResult.mk true (Some roomCode) (Some playerId)
                   /\ exists room,
                        RoomManager.rooms self' !! roomCode = Some room
                        /\ mget playerId (GameRoom.connections room) = Some ws
                        /\ (playerId <> hostId ->
                            mget hostId (GameRoom.connections room)
                            = Some otherWs))).
Proof.
  intros Hnd. unfold RoomManager.joinMatchmaking.
  destruct (mhas ws (RoomManager.matchmakingQueue self)) eqn:Hh.
  { apply mhas_true_iff in Hh. split; [reflexivity|].
    split; [intros _; eexists _, _, _; reflexivity|].
    intros res self' w' [= <- <- <-]. split; [exact Hnd|].
    split; [split; [discriminate|tauto]|discriminate]. }
  assert (Hnin : ~ In ws (mkeys (RoomManager.matchmakingQueue self))).
  { intros Hin. apply mhas_true_iff in Hin. congruence. }
  split; [tauto|]. unfold bind, Date_now. cbv zeta.
  set (player := QueuedPlayer.mk ws (World.clock w (World.clockCalls w))).
  set (queued := RoomManager.send ws _ _).
  assert (Hq : RoomManager.matchmakingQueue queued
               = mset ws player (RoomManager.matchmakingQueue self))
    by reflexivity.
  split; [intros He; now apply tryMatchPlayers_returns|].
  intros res self' w' H.
  destruct (tryMatchPlayers_spec _ _ _ _ _ _ _ H) as (Hkeep & Hfound & Hm).
  rewrite Hq in Hkeep, Hfound, Hm.
  assert (Hpair :
    MatchResult.matched res = true ->
    RoomManager.matchmakingQueue self <> []
    /\ exists otherWs,
         otherWs <> ws
         /\ In otherWs (mkeys (RoomManager.matchmakingQueue self))
         /\ RoomManager.matchmakingQueue self'
            = mdelete otherWs (RoomManager.matchmakingQueue self)
         /\ exists dequeued roomCode hostId created w2 playerId n joined,
              RoomManager.matchmakingQueue dequeued
              = mdelete otherWs (RoomManager.matchmakingQueue self)
              /\ RoomManager.rooms dequeued = RoomManager.rooms self
              /\ RoomManager.createRoom fuel otherWs dequeued
                   (World.afterClock w)
                 = Some ((Some (roomCode, hostId), created), w2)
              /\ RoomManager.joinRoom ws roomCode
                   (RoomManager.send otherWs (matchFound roomCode) created) w2
                 = Some ((Some (playerId, n), joined), w')
              /\ self' = RoomManager.send ws (matchFound roomCode) joined
              /\ res = MatchResult.mk true (Some roomCode) (Some playerId)
              /\ exists room,
                   RoomManager.rooms self' !! roomCode = Some room
                   /\ mget playerId (GameRoom.connections room) = Some ws
                   /\ (playerId <> hostId ->
                       mget hostId (GameRoom.connections room)
                       = Some otherWs)).
  { intros Ht.
    destruct (Hm Ht) as (otherWs & otherPlayer & roomCode & hostId & created
                         & w2 & playerId & n & joined
                         & Hf & Hc & Hj & -> & ->).
    apply findOther_spec in Hf as [Hne Hin].
    rewrite mkeys_mset, Hh in Hin. apply in_app_or in Hin as [Hin|[Heq|[]]];
      [|congruence].
    rewrite (mdelete_mset_fresh ws player _ Hnin) in Hc.
    split; [intros He; rewrite He in Hin; exact Hin|].
    exists otherWs. split; [exact Hne|]. split; [exact Hin|].
    pose proof (createRoom_plain _ _ _ _ _ _ _ _ Hc) as Hp.
    destruct (createRoom_spec _ _ _ _ _ _ _ Hc)
      as (code & host & croom & [= <- <-] & _ & Hconn & _ & Hs2).
    destruct (joinRoom_spec _ _ _ _ _ _ _ Hj) as [Hjq Hjr].
    destruct (Hjr playerId n eq_refl) as (room0 & room & Hl0 & Hl & Hcr).
    rewrite (plainCode_normal _ Hp) in Hl0, Hl.
    rewrite Hs2 in Hl0. cbn in Hl0. rewrite lookup_insert_eq in Hl0.
    injection Hl0 as <-. rewrite Hconn in Hcr.
    split.
    { cbn [RoomManager.send RoomManager.matchmakingQueue].
      rewrite Hjq, Hs2. reflexivity. }
    eexists _, roomCode, hostId, created, w2, playerId, n, joined.
    split; [|split; [|split; [exact Hc|]]]; [reflexivity|reflexivity|].
    split; [exact Hj|]. split; [reflexivity|]. split; [reflexivity|].
    exists room. split; [exact Hl|]. rewrite Hcr. split.
    - apply mget_mset_eq.
    - intros Hid. rewrite mget_mset_ne by exact Hid. cbn.
      destruct (decide (hostId = hostId)); congruence. }
  split; [apply Hkeep; now apply mset_NoDup|]. split.
  - split.
    + intros Ht. split; [exact Hnin|]. exact (proj1 (Hpair Ht)).
    + intros [_ Hne].
      destruct (enqueued_finds_other ws player _ Hnin Hne)
        as (Hlen & otherWs & otherPlayer & Hf).
      exact (Hfound _ _ Hlen Hf).
  - intros Ht. destruct (Hpair Ht) as (_ & otherWs & Hne & Hin & Hq' & Hrest).
    exists otherWs. split; [exact Hne|]. split; [exact Hin|].
    split; [exact Hq'|]. rewrite Hq'. split; [|split; [|exact Hrest]].
    + intros Hin'. apply mkeys_mdelete_In in Hin'. contradiction.
    + intros Hin'. apply (mdelete_keys otherWs _ otherWs Hnd) in Hin'. tauto.
Qed.

(** Socket 9 joins while socket 7 waits: they are matched and the
    queue is left empty. *)
Lemma C9_witness :
  exists res self' w',
    RoomManager.joinMatchmaking 0%nat 9%nat waitingManager tickingWorld
    = Some ((res, self'), w')
    /\ MatchResult.matched res = true
    /\ RoomManager.matchmakingQueue self' = [].
Proof.
  assert (Hnd : List.NoDup (mkeys (RoomManager.matchmakingQueue waitingManager))).
  { cbn. constructor; [intros []|constructor]. }
  destruct (C9_matchmaking_pairs_distinct_and_dequeues 0%nat 9%nat waitingManager
              tickingWorld Hnd) as (_ & Hret & Hall).
  destruct (Hret eq_refl) as (res & self' & w' & H).
  exists res, self', w'. split; [exact H|].
  destruct (Hall _ _ _ H) as (_ & Hiff & Hm).
  assert (Ht : MatchResult.matched res = true).
  { apply Hiff. split; [|discriminate]. cbn. intros [Heq|[]]. discriminate. }
  split; [exact Ht|].
  destruct (Hm Ht) as (otherWs & _ & Hin & Hq & _).
  cbn in Hin. destruct Hin as [<-|[]]. rewrite Hq. reflexivity.
Defined.
(** * Further properties of the code *)

(** ** Math utilities *)

(** [clamp] brings a value into [[min, max]] and leaves a value that
    is inside alone; with the bounds in the wrong order it returns
    [min], whatever the value. *)
Theorem clamp_within (value min max : R) :
  (min <= max ->
   min <= clamp value min max <= max
   /\ (min <= value <= max -> clamp value min max = value)
   /\ (value < min -> clamp value min max = min)
   /\ (max < value -> clamp value min max = max))
  /\ (max < min -> clamp value min max = min).
Proof.
  unfold clamp, Rmax, Rmin. split.
  - intros Hle. repeat split; intros; rcases; lra.
  - intros Hlt. rcases; lra.
Qed.

(** [normalizeAngle] returns on an angle of magnitude at most 2^56,
    with the angle in [[-PI, PI]] that differs from its argument by a
    whole number of turns; it leaves an angle that is already in that
    range alone, so that normalising twice is the same as normalising
    once.  On an angle of larger magnitude, which a full turn leaves
    unchanged, it does not return. *)
Theorem normalizeAngle_range (angle : R) :
  (Rabs angle <= PhysicsSystem.ABSORBS_TURN ->
   exists r : R,
     normalizeAngle angle = Some r
     /\ - PI <= r <= PI
     /\ (exists k : Z, r = angle + 2 * PI * IZR k)
     /\ normalizeAngle r = Some r)
  /\ (PhysicsSystem.ABSORBS_TURN < Rabs angle -> normalizeAngle angle = None)
  /\ (- PI <= angle <= PI -> normalizeAngle angle = Some angle).
Proof.
  unfold normalizeAngle.
  destruct (normalize_both_spec angle) as (Hfar & Hnear & Hid).
  cbv zeta in Hfar, Hnear, Hid.
  split; [|split; assumption].
  intros Habs. destruct (Hnear Habs) as (r & Hr & Hrange & Hk).
  exists r. split; [exact Hr|]. split; [exact Hrange|]. split; [exact Hk|].
  destruct (normalize_both_spec r) as (_ & _ & Hidr). apply Hidr.
  exact Hrange.
Qed.

(** The angle 7 is brought into range; the angle 10^17 is never
    returned from. *)
Lemma normalizeAngle_range_witness :
  (exists r : R,
      normalizeAngle 7 = Some r
      /\ - PI <= r <= PI
      /\ (exists k : Z, r = 7 + 2 * PI * IZR k)
      /\ normalizeAngle r = Some r)
  /\ normalizeAngle 100000000000000000 = None.
Proof.
  split.
  - apply (proj1 (normalizeAngle_range 7)).
    unfold PhysicsSystem.ABSORBS_TURN, Rabs.
    destruct (Rcase_abs 7); lra.
  - apply (proj1 (proj2 (normalizeAngle_range 100000000000000000))).
    unfold PhysicsSystem.ABSORBS_TURN, Rabs.
    destruct (Rcase_abs 100000000000000000); lra.
Defined.

(** Converting degrees to radians and back, or radians to degrees and
    back, returns the value one started from; half a turn is 180
    degrees. *)
Theorem degToRad_radToDeg (v : R) :
  radToDeg (degToRad v) = v
  /\ degToRad (radToDeg v) = v
  /\ degToRad 180 = PI.
Proof.
  assert (HPI := PI_RGT_0). unfold radToDeg, degToRad.
  repeat split; field; lra.
Qed.

(** With a random number in [[0, 1)] and integer bounds in order,
    [randomInt] returns an integer between the bounds, both included,
    and consumes one random number. *)
Theorem randomInt_between (min max : Z) (w : World.t) :
  (min <= max)%Z ->
  0 <= World.random w (World.randomCalls w) < 1 ->
  exists k : Z,
    randomInt (IZR min) (IZR max) w = Some (IZR k, World.afterRandom w)
    /\ (min <= k <= max)%Z.
Proof.
  intros Hle [H0 H1]. unfold randomInt, bind, Math_random, ret, floor.
  set (r := World.random w (World.randomCalls w)) in *.
  set (n := Zfloor (r * (IZR max - IZR min + 1))).
  exists (n + min)%Z. split; [now rewrite plus_IZR|].
  assert (Hspan : 1 <= IZR max - IZR min + 1).
  { apply IZR_le in Hle. lra. }
  assert (Hn0 : (0 <= n)%Z).
  { apply Zfloor_lub. cbn. apply Rmult_le_pos; lra. }
  assert (Hn1 : (n < max - min + 1)%Z).
  { apply lt_IZR. rewrite plus_IZR, minus_IZR.
    apply Rle_lt_trans with (r * (IZR max - IZR min + 1)).
    - apply Zfloor_bound.
    - cbn. nra. }
  lia.
Qed.

(** The lowest random number gives the lower bound. *)
Lemma randomInt_between_witness :
  exists k : Z,
    randomInt (IZR 1) (IZR 6) stillWorld
    = Some (IZR k, World.afterRandom stillWorld)
    /\ (1 <= k <= 6)%Z.
Proof.
  apply (randomInt_between 1 6 stillWorld).
  - lia.
  - cbn. lra.
Defined.
(** ** Vector utilities *)

Lemma Reqb_true_iff (a b : R) : Reqb a b = true <-> a = b.
Proof. unfold Reqb. destruct (Req_dec_T a b); split; congruence. Qed.

Lemma magnitude_sqr (v : Vector2.t) :
  Vector.magnitude v * Vector.magnitude v
  = Vector2.x v * Vector2.x v + Vector2.y v * Vector2.y v.
Proof. unfold Vector.magnitude. apply sqrt_sqrt. nra. Qed.

Lemma magnitude_nonneg (v : Vector2.t) : 0 <= Vector.magnitude v.
Proof. apply sqrt_pos. Qed.

Lemma magnitude_scale (v : Vector2.t) (s : R) :
  Vector.magnitude (Vector.scale v s) = Rabs s * Vector.magnitude v.
Proof.
  unfold Vector.magnitude, Vector.scale. cbn.
  replace (Vector2.x v * s * (Vector2.x v * s)
           + Vector2.y v * s * (Vector2.y v * s))
    with (Rabs s * Rabs s
          * (Vector2.x v * Vector2.x v + Vector2.y v * Vector2.y v)).
  - rewrite sqrt_mult_alt by (apply Rle_0_sqr).
    rewrite sqrt_square by apply Rabs_pos. reflexivity.
  - replace (Rabs s * Rabs s) with (s * s); [ring|].
    unfold Rabs. destruct (Rcase_abs s); ring.
Qed.

Lemma magnitude_zero (v : Vector2.t) :
  Vector.magnitude v = 0 <-> v = Vector2.mk 0 0.
Proof.
  split.
  - intros Hm. pose proof (magnitude_sqr v) as Hs. rewrite Hm in Hs.
    destruct v as [x y]. cbn in *.
    assert (x = 0) by nra. assert (y = 0) by nra. congruence.
  - intros ->. unfold Vector.magnitude. cbn.
    replace (0 * 0 + 0 * 0) with 0 by ring. apply sqrt_0.
Qed.

Lemma normalize_spec (v : Vector2.t) :
  Vector.magnitude v <> 0 ->
  Vector.magnitude (Vector.normalize v) = 1
  /\ Vector.scale (Vector.normalize v) (Vector.magnitude v) = v.
Proof.
  intros Hm. unfold Vector.normalize.
  destruct (Reqb (Vector.magnitude v) 0) eqn:E.
  { apply Reqb_true_iff in E. contradiction. }
  clear E. pose proof (magnitude_sqr v) as Hs.
  pose proof (magnitude_nonneg v) as H0.
  set (m := Vector.magnitude v) in *. split.
  - unfold Vector.magnitude at 1. cbn.
    replace (Vector2.x v / m * (Vector2.x v / m)
             + Vector2.y v / m * (Vector2.y v / m))
      with ((Vector2.x v * Vector2.x v + Vector2.y v * Vector2.y v)
            / (m * m)) by (field; exact Hm).
    rewrite <- Hs.
    replace (m * m / (m * m)) with 1 by (field; exact Hm).
    apply sqrt_1.
  - unfold Vector.scale. cbn. destruct v as [x y]. cbn. f_equal; field;
      exact Hm.
Qed.

(** [normalize] turns every vector but the zero vector into the unit
    vector of the same direction: scaled by the old length it gives
    the vector back.  The zero vector, and only it, has length 0, and
    is returned as the zero vector instead of being divided by 0. *)
Theorem normalize_unit (v : Vector2.t) :
  (v = Vector2.mk 0 0 -> Vector.normalize v = Vector2.mk 0 0)
  /\ (v <> Vector2.mk 0 0 ->
      Vector.magnitude (Vector.normalize v) = 1
      /\ Vector.scale (Vector.normalize v) (Vector.magnitude v) = v).
Proof.
  split.
  - intros Hz. unfold Vector.normalize.
    replace (Reqb (Vector.magnitude v) 0) with true; [reflexivity|].
    symmetry. apply Reqb_true_iff, magnitude_zero, Hz.
  - intros Hnz. apply normalize_spec. intros Hm.
    apply Hnz, magnitude_zero, Hm.
Qed.

(** [clampMagnitude] with a non-negative bound returns a vector whose
    length is the smaller of the old length and the bound: a vector
    within the bound is returned as it is, a longer one is cut to the
    bound along its own direction. *)
Theorem clampMagnitude_bound (v : Vector2.t) (maxMagnitude : R) :
  0 <= maxMagnitude ->
  Vector.magnitude (Vector.clampMagnitude v maxMagnitude)
  = Rmin (Vector.magnitude v) maxMagnitude
  /\ (Vector.magnitude v <= maxMagnitude ->
      Vector.clampMagnitude v maxMagnitude = v)
  /\ (maxMagnitude < Vector.magnitude v ->
      Vector.clampMagnitude v maxMagnitude
      = Vector.scale v (maxMagnitude / Vector.magnitude v)).
Proof.
  intros Hmax. unfold Vector.clampMagnitude.
  destruct (Rgtb (Vector.magnitude v) maxMagnitude) eqn:E.
  - apply Rgtb_true_iff in E.
    assert (Hm : Vector.magnitude v <> 0) by lra.
    destruct (normalize_spec v Hm) as [Hunit Hback].
    split; [|split].
    + rewrite magnitude_scale, Hunit, Rabs_right by lra.
      unfold Rmin. destruct (Rle_dec (Vector.magnitude v) maxMagnitude); lra.
    + intros; lra.
    + intros _. unfold Vector.normalize.
      destruct (Reqb (Vector.magnitude v) 0) eqn:Ez.
      { apply Reqb_true_iff in Ez. contradiction. }
      unfold Vector.scale. cbn. f_equal; field; exact Hm.
  - apply Rgtb_false_iff in E. split; [|split].
    + unfold Rmin. destruct (Rle_dec (Vector.magnitude v) maxMagnitude); lra.
    + reflexivity.
    + intros; lra.
Qed.

(** A vector of length 5 clamped to 2.5 is cut to half. *)
Lemma clampMagnitude_bound_witness :
  Vector.magnitude (Vector.clampMagnitude (Vector2.mk 3 4) 2.5)
  = Rmin (Vector.magnitude (Vector2.mk 3 4)) 2.5.
Proof.
  apply (clampMagnitude_bound (Vector2.mk 3 4) 2.5). lra.
Defined.

(** [distance] is a metric on points: symmetric, zero exactly between
    a point and itself, and it obeys the triangle inequality;
    [distanceSquared] is its square. *)
Theorem distance_metric (a b c : Vector2.t) :
  Vector.distance a b = Vector.distance b a
  /\ (Vector.distance a b = 0 <-> a = b)
  /\ Vector.distance a c <= Vector.distance a b + Vector.distance b c
  /\ Vector.distanceSquared a b = Vector.distance a b * Vector.distance a b.
Proof.
  split; [|split; [|split]].
  - unfold Vector.distance, Vector.magnitude, Vector.subtract. cbn.
    f_equal. ring.
  - unfold Vector.distance. rewrite magnitude_zero.
    destruct a as [ax ay], b as [bx by_]. unfold Vector.subtract. cbn. split.
    + intros [= Hx Hy]. f_equal; lra.
    + intros [= -> ->]. f_equal; ring.
  - pose proof (triangle (Vector2.x a) (Vector2.y a) (Vector2.x c)
                  (Vector2.y c) (Vector2.x b) (Vector2.y b)) as Ht.
    unfold dist_euc, Rsqr in Ht. exact Ht.
  - unfold Vector.distance, Vector.distanceSquared.
    rewrite magnitude_sqr. reflexivity.
Qed.

Lemma fromAngle_norm (angle magnitude : R) :
  sqrt (cos angle * magnitude * (cos angle * magnitude)
        + sin angle * magnitude * (sin angle * magnitude))
  = Rabs magnitude.
Proof.
  pose proof (sin2_cos2 angle) as Hsc. unfold Rsqr in Hsc.
  replace (cos angle * magnitude * (cos angle * magnitude)
           + sin angle * magnitude * (sin angle * magnitude))
    with (magnitude * magnitude
          * (sin angle * sin angle + cos angle * cos angle)) by ring.
  rewrite Hsc, Rmult_1_r. apply sqrt_Rsqr_abs.
Qed.

(** [fromAngle] builds a vector of the given length (in absolute
    value): the default magnitude 1 gives a unit vector. *)
Theorem fromAngle_magnitude (angle magnitude : R) :
  Vector.magnitude (Vector.fromAngle angle magnitude) = Rabs magnitude
  /\ Vector.dot (Vector.fromAngle angle 1) (Vector.fromAngle angle 1) = 1.
Proof.
  split.
  - unfold Vector.magnitude, Vector.fromAngle. cbn. apply fromAngle_norm.
  - pose proof (sin2_cos2 angle) as Hsc. unfold Rsqr in Hsc.
    unfold Vector.dot, Vector.fromAngle. cbn. lra.
Qed.
(** ** Wall utilities *)

Lemma wallsOverlap_true_iff (wall1 wall2 : Wall.t) (padding : R) :
  wallsOverlap wall1 wall2 padding = true
  <-> Wall.x wall2 - Wall.width wall2 / 2
      <= Wall.x wall1 + Wall.width wall1 / 2 + padding
      /\ Wall.x wall1 - Wall.width wall1 / 2 - padding
         <= Wall.x wall2 + Wall.width wall2 / 2
      /\ Wall.y wall2 - Wall.height wall2 / 2
         <= Wall.y wall1 + Wall.height wall1 / 2 + padding
      /\ Wall.y wall1 - Wall.height wall1 / 2 - padding
         <= Wall.y wall2 + Wall.height wall2 / 2.
Proof.
  unfold wallsOverlap. rewrite negb_true_iff, !orb_false_iff.
  rewrite !Rltb_false_iff, !Rgtb_false_iff. tauto.
Qed.

(** Whether two walls overlap does not depend on the order they are
    given in, and a wall of non-negative size overlaps itself for
    every non-negative padding. *)
Theorem wallsOverlap_symmetric (wall1 wall2 : Wall.t) (padding : R) :
  wallsOverlap wall1 wall2 padding = wallsOverlap wall2 wall1 padding
  /\ (0 <= padding -> 0 <= Wall.width wall1 -> 0 <= Wall.height wall1 ->
      wallsOverlap wall1 wall1 padding = true).
Proof.
  split.
  - apply eq_true_iff_eq. rewrite !wallsOverlap_true_iff. lra.
  - intros Hp Hw Hh. apply wallsOverlap_true_iff. lra.
Qed.

Lemma rectangleIntersectsWall_true_iff (rx ry rWidth rHeight : R)
    (wall : Wall.t) :
  rectangleIntersectsWall rx ry rWidth rHeight wall = true
  <-> Wall.x wall - Wall.width wall / 2 <= rx + rWidth / 2
      /\ rx - rWidth / 2 <= Wall.x wall + Wall.width wall / 2
      /\ Wall.y wall - Wall.height wall / 2 <= ry + rHeight / 2
      /\ ry - rHeight / 2 <= Wall.y wall + Wall.height wall / 2.
Proof.
  unfold rectangleIntersectsWall. rewrite negb_true_iff, !orb_false_iff.
  rewrite !Rltb_false_iff, !Rgtb_false_iff. tauto.
Qed.

Lemma isPointInWall_true_iff (x y : R) (wall : Wall.t) :
  isPointInWall x y wall = true
  <-> Wall.x wall - Wall.width wall / 2 <= x
      /\ x <= Wall.x wall + Wall.width wall / 2
      /\ Wall.y wall - Wall.height wall / 2 <= y
      /\ y <= Wall.y wall + Wall.height wall / 2.
Proof.
  unfold isPointInWall. rewrite !andb_true_iff.
  rewrite !Rgeb_true_iff, !Rleb_true_iff. split; intros; repeat split; lra.
Qed.

(** A point is in a wall exactly when the rectangle of size 0 at that
    point intersects the wall, and then every rectangle of
    non-negative size centred there intersects it too: the edges of a
    wall belong to it in both tests. *)
Theorem isPointInWall_intersects (x y : R) (wall : Wall.t) :
  isPointInWall x y wall = rectangleIntersectsWall x y 0 0 wall
  /\ (forall rWidth rHeight,
        0 <= rWidth -> 0 <= rHeight ->
        isPointInWall x y wall = true ->
        rectangleIntersectsWall x y rWidth rHeight wall = true).
Proof.
  split.
  - apply eq_true_iff_eq.
    rewrite isPointInWall_true_iff, rectangleIntersectsWall_true_iff. lra.
  - intros rWidth rHeight Hw Hh.
    rewrite isPointInWall_true_iff, rectangleIntersectsWall_true_iff. lra.
Qed.

(** [selectRandomMaterial] cuts the unit interval at 0.35, 0.65 and
    0.85 into concrete, wood, metal and glass, the cut points going to
    the material below them; the fallback after the loop is reached
    only by a random number above 1, which [Math.random] never
    returns. *)
Theorem selectRandomMaterial_thresholds (w : World.t) :
  let r := World.random w (World.randomCalls w) in
  exists material,
    selectRandomMaterial w = Some (material, World.afterRandom w)
    /\ (r <= 0.35 -> material = concrete)
    /\ (0.35 < r <= 0.65 -> material = wood)
    /\ (0.65 < r <= 0.85 -> material = metal)
    /\ (0.85 < r <= 1 -> material = glass)
    /\ (1 < r -> material = concrete).
Proof.
  cbv zeta. unfold selectRandomMaterial, bind, Math_random, ret.
  set (r := World.random w (World.randomCalls w)).
  eexists. split; [reflexivity|].
  cbn [WALL_MATERIAL_WEIGHTS map fst snd fold_left pickMaterial hd].
  unfold Rleb, Rltb.
  repeat match goal with
         | |- context [Rlt_dec ?a ?b] => destruct (Rlt_dec a b)
         end; cbn [negb]; repeat split; intros; try reflexivity; lra.
Qed.
(** ** Wall generation *)

Lemma generateRandomWall_spec (existingWalls : list Wall.t) (n : nat)
    (w : World.t) :
  exists r w',
    generateRandomWall existingWalls n w = Some (r, w')
    /\ World.random w' = World.random w
    /\ forall wall, r = Some wall ->
         freshWall existingWalls wall
         /\ (fairWorld w -> wallInside 80 wall).
Proof.
  revert w. induction n as [|n IH]; intros w.
  - exists None, w. cbn. repeat split; discriminate.
  - cbn [generateRandomWall].
    cbv beta iota zeta delta [bind Math_random randomRange ret generateId
                               Date_now Number_toString36
                               selectRandomMaterial].
    set (r0 := World.random w (World.randomCalls w)).
    set (r1 := World.random (World.afterRandom w) _).
    set (r2 := World.random (World.afterRandom (World.afterRandom w)) _).
    set (r3 := World.random
                 (World.afterRandom (World.afterRandom (World.afterRandom w)))
                 _).
    set (len := r1 * (WALL_MAX_LENGTH - WALL_MIN_LENGTH) + WALL_MIN_LENGTH).
    set (width := if Rgtb r0 0.5 then len else WALL_THICKNESS).
    set (height := if Rgtb r0 0.5 then WALL_THICKNESS else len).
    set (x := r2 * (GAME_WIDTH - 80 - width / 2 - (80 + width / 2))
              + (80 + width / 2)).
    set (y := r3 * (GAME_HEIGHT - 80 - height / 2 - (80 + height / 2))
              + (80 + height / 2)).
    set (w4 := World.afterRandom
                 (World.afterRandom (World.afterRandom (World.afterRandom w)))).
    assert (Hfair : fairWorld w -> fairWorld w4) by (intros Hf k; apply Hf).
    destruct (isTooCloseToSpawn x y) eqn:Hspawn.
    { destruct (IH w4) as (r & w' & Hr & Hw & Hwall).
      exists r, w'. split; [exact Hr|]. split; [exact Hw|].
      intros wall Hs. destruct (Hwall wall Hs) as [Hfresh Hin]. auto. }
    match goal with
    | |- context [overlapsExisting ?wl existingWalls] => set (wall0 := wl)
    end.
    destruct (overlapsExisting wall0 existingWalls) eqn:Hover.
    { match goal with
      | |- context [generateRandomWall existingWalls n ?w5] =>
          destruct (IH w5) as (r & w' & Hr & Hw & Hwall);
          assert (Hfair5 : fairWorld w -> fairWorld w5)
            by (intros Hf k; apply Hf)
      end.
      exists r, w'. split; [exact Hr|]. split; [exact Hw|].
      intros wall Hs. destruct (Hwall wall Hs) as [Hfresh Hin]. auto. }
    eexists _, _. split; [reflexivity|]. split; [reflexivity|].
    intros wall [= <-]. split.
    + split; [exact Hover|]. split; [exact Hspawn|].
      split; [reflexivity|]. split; [reflexivity|].
      cbn. unfold width, height. destruct (Rgtb r0 0.5); auto.
    + intros Hf. unfold wallInside. cbn.
      assert (H1 : 0 <= r1 < 1) by apply Hf.
      assert (H2 : 0 <= r2 < 1) by apply Hf.
      assert (H3 : 0 <= r3 < 1) by apply Hf.
      assert (Hlen : 80 <= len <= 180).
      { unfold len, WALL_MAX_LENGTH, WALL_MIN_LENGTH. lra. }
      assert (Hwd : 20 <= width <= 180).
      { unfold width, WALL_THICKNESS. destruct (Rgtb r0 0.5); lra. }
      assert (Hht : 20 <= height <= 180).
      { unfold height, WALL_THICKNESS. destruct (Rgtb r0 0.5); lra. }
      unfold x, y, GAME_WIDTH, GAME_HEIGHT.
      clearbody width height r2 r3. clear - H2 H3 Hwd Hht.
      repeat split; nra.
Qed.

Lemma generateWallsFrom_spec (n : nat) (walls : list Wall.t) (w : World.t) :
  exists added w',
    generateWallsFrom n walls w = Some (walls ++ added, w')
    /\ (length added <= n)%nat
    /\ World.random w' = World.random w
    /\ forall pre wall post,
         walls ++ added = pre ++ wall :: post ->
         (length walls <= length pre)%nat ->
         freshWall pre wall /\ (fairWorld w -> wallInside 80 wall).
Proof.
  revert walls w. induction n as [|n IH]; intros walls w.
  - exists [], w. cbn [generateWallsFrom]. unfold ret. rewrite app_nil_r.
    split; [reflexivity|]. split; [cbn; lia|]. split; [reflexivity|].
    intros pre wall post Heq Hlen. apply (f_equal (@length _)) in Heq.
    rewrite length_app in Heq. cbn in Heq. lia.
  - cbn [generateWallsFrom]. unfold bind at 1.
    destruct (generateRandomWall_spec walls 50 w) as (r & w1 & Hr & Hw1 & Hwall).
    rewrite Hr.
    assert (Hfair : fairWorld w -> fairWorld w1).
    { intros Hf k. rewrite Hw1. apply Hf. }
    destruct r as [wl|].
    + destruct (IH (walls ++ [wl]) w1) as (added & w' & Hg & Hlen & Hw' & Hinv).
      exists (wl :: added), w'.
      replace (walls ++ wl :: added) with ((walls ++ [wl]) ++ added)
        by (rewrite <- app_assoc; reflexivity).
      split; [exact Hg|]. split; [cbn; lia|].
      split; [congruence|].
      intros pre wall post Heq Hpre.
      destruct (Nat.eq_dec (length pre) (length walls)) as [He|Hne].
      * rewrite <- app_assoc in Heq. cbn in Heq.
        apply app_inj_1 in Heq as [-> [= <- _]]; [|congruence].
        destruct (Hwall wl eq_refl) as [Hfresh Hin]. auto.
      * destruct (Hinv pre wall post Heq) as [Hfresh Hin].
        { rewrite length_app. cbn. lia. }
        auto.
    + destruct (IH walls w1) as (added & w' & Hg & Hlen & Hw' & Hinv).
      exists added, w'. split; [exact Hg|]. split; [lia|].
      split; [congruence|].
      intros pre wall post Heq Hpre.
      destruct (Hinv pre wall post Heq Hpre) as [Hfresh Hin]. auto.
Qed.

(** [generateWalls] always returns.  Its first wall is the centre
    wall, a 20 by 200 metal wall at full health in the middle of the
    arena, and it returns at most [count] walls (one when [count] is
    0).  Every further wall overlaps none of the walls before it, with
    a padding of 30, keeps clear of the spawn points, is at full
    health for its material and is 20 thick; with random numbers in
    [[0, 1)] it lies at least 80 inside the arena. *)
Theorem generateWalls_separated (count : nat) (w : World.t) :
  exists center rest w',
    generateWalls count w = Some (center :: rest, w')
    /\ (Wall.x center, Wall.y center, Wall.width center, Wall.height center)
       = (GAME_WIDTH / 2, GAME_HEIGHT / 2, 20, 200)
    /\ (Wall.material center, Wall.health center, Wall.maxHealth center)
       = (metal, 300, 300)
    /\ (length rest <= count - 1)%nat
    /\ forall pre wall post,
         center :: rest = pre ++ wall :: post -> pre <> [] ->
         freshWall pre wall /\ (fairWorld w -> wallInside 80 wall).
Proof.
  unfold generateWalls, createCenterWall. unfold bind at 1.
  destruct (generateId_total "wall" w) as [id Hid].
  unfold bind at 1. rewrite Hid. unfold ret at 1.
  set (center := createWall id _ _ _ _ _ _).
  destruct (generateWallsFrom_spec (count - 1) [center]
              (World.afterRandom (World.afterClock w)))
    as (rest & w' & Hg & Hlen & Hw' & Hinv).
  exists center, rest, w'. split; [exact Hg|].
  split; [reflexivity|]. split; [reflexivity|]. split; [exact Hlen|].
  intros pre wall post Heq Hne.
  destruct (Hinv pre wall post Heq) as [Hfresh Hin].
  { destruct pre; [congruence|]. cbn. lia. }
  split; [exact Hfresh|]. intros Hf. apply Hin. intros k. apply Hf.
Qed.
(** ** Loops over the cars of the store *)

Section StoreFold.
Context {V : Type}.
Variable g : V -> V.

Lemma fold_left_pointwise {A B : Type} (f1 f2 : A -> B -> A) (l : list B)
    (a : A) :
  (forall a b, f1 a b = f2 a b) -> fold_left f1 l a = fold_left f2 l a.
Proof.
  intros Hf. revert a. induction l as [|b l IH]; intros a; cbn;
    [reflexivity|]. rewrite Hf. apply IH.
Qed.

(** A key that the loop does not visit keeps its value. *)
Lemma foldStore_other (keys : list string) (ps : list (string * V))
    (k : string) :
  ~ In k keys ->
  mget k
    (fold_left
       (fun ps key =>
          match mget key ps with
          | Some v => mset key (g v) ps
          | None => ps
          end) keys ps)
  = mget k ps.
Proof.
  revert ps. induction keys as [|key keys IH]; intros ps Hnin; cbn;
    [reflexivity|].
  rewrite IH by (intros Hin; apply Hnin; now right).
  destruct (mget key ps) as [v|]; [|reflexivity].
  apply mget_mset_ne. intros ->. apply Hnin. now left.
Qed.

(** A key that the loop visits once has [g] applied to its value. *)
Lemma foldStore_once (keys : list string) (ps : list (string * V))
    (k : string) (c : V) :
  List.NoDup keys -> In k keys -> mget k ps = Some c ->
  mget k
    (fold_left
       (fun ps key =>
          match mget key ps with
          | Some v => mset key (g v) ps
          | None => ps
          end) keys ps)
  = Some (g c).
Proof.
  revert ps c. induction keys as [|key keys IH]; intros ps c Hnd Hin Hk;
    [destruct Hin|].
  inversion Hnd as [|? ? Hnotin Hnd']; subst. cbn.
  destruct (decide (key = k)) as [->|Hne].
  - rewrite Hk. rewrite foldStore_other by exact Hnotin.
    apply mget_mset_eq.
  - destruct Hin as [?|Hin]; [contradiction|].
    apply IH; [exact Hnd'|exact Hin|].
    destruct (mget key ps); [|exact Hk].
    rewrite mget_mset_ne by exact Hne. exact Hk.
Qed.

(** The loop keeps the keys and their order. *)
Lemma foldStore_keys (keys : list string) (ps : list (string * V)) :
  mkeys
    (fold_left
       (fun ps key =>
          match mget key ps with
          | Some v => mset key (g v) ps
          | None => ps
          end) keys ps)
  = mkeys ps.
Proof.
  revert ps. induction keys as [|key keys IH]; intros ps; cbn [fold_left];
    [reflexivity|].
  rewrite IH. destruct (mget key ps) eqn:Hg; [|reflexivity].
  apply mkeys_mset_present. eauto.
Qed.

(** Whatever relation [g] keeps, as long as it is reflexive and
    transitive, the loop keeps for every value of the store. *)
Lemma foldStore_related (R : V -> V -> Prop) (keys : list string)
    (ps : list (string * V)) (k : string) (c : V) :
  (forall v, R v v) -> (forall a b d, R a b -> R b d -> R a d) ->
  (forall v, R v (g v)) ->
  mget k ps = Some c ->
  exists c',
    mget k
      (fold_left
         (fun ps key =>
            match mget key ps with
            | Some v => mset key (g v) ps
            | None => ps
            end) keys ps)
    = Some c'
    /\ R c c'.
Proof.
  intros Hrefl Htrans Hg. revert ps c.
  induction keys as [|key keys IH]; intros ps c Hk; cbn; [eauto|].
  destruct (mget key ps) as [v|] eqn:Hkey; [|now apply IH].
  destruct (decide (key = k)) as [->|Hne].
  - assert (v = c) by congruence. subst v.
    destruct (IH (mset k (g c) ps) (g c)) as (c' & Hc' & HR);
      [apply mget_mset_eq|].
    exists c'. split; [exact Hc'|]. apply Htrans with (g c); auto.
  - apply IH. rewrite mget_mset_ne by exact Hne. exact Hk.
Qed.

End StoreFold.

(** ** Car-wall collisions *)

(** When a car overlaps a wall of non-negative size,
    [resolveCarWallCollision] moves it along one axis only, by the
    smallest of the four penetration depths, so that it ends flush
    with the wall, where resolving again leaves its position alone; it
    never speeds the car up and never changes its health, shield,
    score, heading or id. *)
Theorem resolveCarWallCollision_shortest_push (car : CarState.t)
    (wall : Wall.t) :
  let car' := CollisionSystem.resolveCarWallCollision car wall in
  let overlapLeft :=
    CarState.x car + CAR_WIDTH / 2 - (Wall.x wall - Wall.width wall / 2) in
  let overlapRight :=
    Wall.x wall + Wall.width wall / 2 - (CarState.x car - CAR_WIDTH / 2) in
  let overlapTop :=
    CarState.y car + CAR_HEIGHT / 2 - (Wall.y wall - Wall.height wall / 2) in
  let overlapBottom :=
    Wall.y wall + Wall.height wall / 2 - (CarState.y car - CAR_HEIGHT / 2) in
  CollisionSystem.checkCarWallCollision car wall = true ->
  0 <= Wall.width wall -> 0 <= Wall.height wall ->
  (CarState.x car' = CarState.x car \/ CarState.y car' = CarState.y car)
  /\ Rabs (CarState.x car' - CarState.x car)
     + Rabs (CarState.y car' - CarState.y car)
     = Rmin (Rmin overlapLeft overlapRight) (Rmin overlapTop overlapBottom)
  /\ CollisionSystem.checkCarWallCollision car' wall = true
  /\ (CarState.x (CollisionSystem.resolveCarWallCollision car' wall),
      CarState.y (CollisionSystem.resolveCarWallCollision car' wall))
     = (CarState.x car', CarState.y car')
  /\ PhysicsSystem.getSpeed car' <= PhysicsSystem.getSpeed car
  /\ (CarState.health car', CarState.shield car', CarState.score car',
      CarState.angle car', CarState.id car')
     = (CarState.health car, CarState.shield car, CarState.score car,
        CarState.angle car, CarState.id car).
Proof.
  intros car' oL oR oT oB Hhit Hw Hh.
  apply rectangleIntersectsWall_true_iff in Hhit.
  unfold CAR_WIDTH, CAR_HEIGHT in *.
  assert (Hspeed : PhysicsSystem.getSpeed car' <= PhysicsSystem.getSpeed car).
  { unfold PhysicsSystem.getSpeed. apply sqrt_le_1_alt.
    unfold car', CollisionSystem.resolveCarWallCollision.
    repeat match goal with
           | |- context [Rltb ?a ?b] => destruct (Rltb a b)
           end; cbn; unfold Rabs;
      repeat match goal with
             | |- context [Rcase_abs ?a] => destruct (Rcase_abs a)
             end; nra. }
  assert (Hflush : CollisionSystem.checkCarWallCollision car' wall = true).
  { apply rectangleIntersectsWall_true_iff.
    unfold car', CollisionSystem.resolveCarWallCollision,
      CAR_WIDTH, CAR_HEIGHT.
    repeat match goal with
           | |- context [Rltb ?a ?b] => destruct (Rltb a b)
           end; cbn; lra. }
  split; [|split; [|split; [exact Hflush|split; [|split; [exact Hspeed|]]]]].
  - unfold car', CollisionSystem.resolveCarWallCollision.
    repeat match goal with
           | |- context [Rltb ?a ?b] => destruct (Rltb a b)
           end; cbn; auto.
  - unfold car', oL, oR, oT, oB, CollisionSystem.resolveCarWallCollision,
      CAR_WIDTH, CAR_HEIGHT.
    repeat match goal with
           | |- context [Rltb (Rmin ?a ?b) (Rmin ?c ?d)] =>
               destruct (Rltb (Rmin a b) (Rmin c d)) eqn:?
           | |- context [Rltb ?a ?b] => destruct (Rltb a b) eqn:?
           end;
      repeat match goal with
             | H : Rltb _ _ = true |- _ => apply Rltb_true_iff in H
             | H : Rltb _ _ = false |- _ => apply Rltb_false_iff in H
             end;
      cbn; rcases; lra.
  - clear Hspeed Hflush. unfold car'.
    unfold CollisionSystem.resolveCarWallCollision at 2 4 5 6.
    unfold CAR_WIDTH, CAR_HEIGHT.
    set (minX := Rmin _ _). set (minY := Rmin _ _).
    destruct (Rltb minX minY) eqn:E1;
      [match goal with
       | |- context [if Rltb ?a ?b then _ else _] =>
           destruct (Rltb a b) eqn:E2
       end
      |match goal with
       | |- context [if Rltb ?a ?b then _ else _] =>
           destruct (Rltb a b) eqn:E2
       end];
      unfold minX, minY in E1;
      repeat match goal with
             | H : Rltb _ _ = true |- _ => apply Rltb_true_iff in H
             | H : Rltb _ _ = false |- _ => apply Rltb_false_iff in H
             end;
      rhyps;
      unfold CollisionSystem.resolveCarWallCollision, CAR_WIDTH, CAR_HEIGHT;
      cbn; rcases; reflexivity.
  - unfold car', CollisionSystem.resolveCarWallCollision.
    repeat match goal with
           | |- context [Rltb ?a ?b] => destruct (Rltb a b)
           end; reflexivity.
Qed.

(** A car 5 deep in a wall is pushed back out, flush with it. *)
Lemma resolveCarWallCollision_shortest_push_witness :
  CollisionSystem.checkCarWallCollision
    (CollisionSystem.resolveCarWallCollision carInWall blockingWall)
    blockingWall = true
  /\ PhysicsSystem.getSpeed
       (CollisionSystem.resolveCarWallCollision carInWall blockingWall)
     <= PhysicsSystem.getSpeed carInWall.
Proof.
  destruct (resolveCarWallCollision_shortest_push carInWall blockingWall)
    as (_ & _ & Hflush & _ & Hspeed & _).
  - apply rectangleIntersectsWall_true_iff. cbn.
    unfold CAR_WIDTH, CAR_HEIGHT. lra.
  - cbn. lra.
  - cbn. lra.
  - split; [exact Hflush|exact Hspeed].
Defined.

Lemma resolveCarWallCollision_stats (car : CarState.t) (wall : Wall.t) :
  combatStats (CollisionSystem.resolveCarWallCollision car wall)
  = combatStats car.
Proof.
  unfold CollisionSystem.resolveCarWallCollision.
  repeat match goal with
         | |- context [Rltb ?a ?b] => destruct (Rltb a b)
         end; reflexivity.
Qed.

Lemma wallFold_stats (walls : list Wall.t) (car : CarState.t) :
  combatStats
    (fold_left
       (fun car wall =>
          if CollisionSystem.checkCarWallCollision car wall
          then CollisionSystem.resolveCarWallCollision car wall
          else car)
       walls car)
  = combatStats car.
Proof.
  revert car. induction walls as [|wall walls IH]; intros car; cbn [fold_left];
    [reflexivity|].
  rewrite IH. destruct (CollisionSystem.checkCarWallCollision car wall);
    [apply resolveCarWallCollision_stats|reflexivity].
Qed.

(** [checkAllCarWallCollisions] keeps the players and their order,
    changes nobody's id, health, shield or score, leaves a car at
    health 0 or below exactly as it is, and never touches a player
    that is not among the cars it is given. *)
Theorem checkAllCarWallCollisions_keeps (cars : list string)
    (walls : list Wall.t) (players : Players) :
  let players' :=
    CollisionSystem.checkAllCarWallCollisions cars walls players in
  mkeys players' = mkeys players
  /\ (forall k car,
        mget k players = Some car ->
        exists car',
          mget k players' = Some car'
          /\ combatStats car' = combatStats car
          /\ (CarState.health car <= 0 -> car' = car))
  /\ (forall k, ~ In k cars -> mget k players' = mget k players).
Proof.
  cbv zeta. unfold CollisionSystem.checkAllCarWallCollisions.
  set (g := fun car : CarState.t =>
              if Rleb (CarState.health car) 0 then car
              else
                fold_left
                  (fun car wall =>
                     if CollisionSystem.checkCarWallCollision car wall
                     then CollisionSystem.resolveCarWallCollision car wall
                     else car)
                  walls car).
  rewrite (fold_left_pointwise _
             (fun (ps : Players) key =>
                match mget key ps with
                | Some v => mset key (g v) ps
                | None => ps
                end)).
  2:{ intros ps key. destruct (mget key ps) as [car|] eqn:Hk; [|reflexivity].
      unfold g. destruct (Rleb (CarState.health car) 0); [|reflexivity].
      symmetry. now apply mset_same. }
  split; [apply foldStore_keys|]. split; [|intros k; apply foldStore_other].
  intros k car Hk.
  apply (foldStore_related g
           (fun c c' =>
              combatStats c' = combatStats c
              /\ (CarState.health c <= 0 -> c' = c))); [| | |exact Hk].
  - auto.
  - intros a b d [Hab Hab'] [Hbd Hbd']. split; [congruence|].
    intros Ha. rewrite <- (Hab' Ha). apply Hbd'.
    rewrite (Hab' Ha). exact Ha.
  - intros v. unfold g. destruct (Rleb (CarState.health v) 0) eqn:E.
    + auto.
    + apply Rleb_false_iff in E. split; [apply wallFold_stats|intros; lra].
Qed.

(** ** Bullets against walls *)

Lemma hitsSomeWall_existsb (bullet : Bullet.t) (walls : list Wall.t) :
  CollisionSystem.hitsSomeWall bullet walls
  = existsb (CollisionSystem.checkBulletWallCollision bullet) walls.
Proof.
  induction walls as [|wall walls IH]; cbn; [reflexivity|].
  rewrite IH. destruct (CollisionSystem.checkBulletWallCollision bullet wall);
    reflexivity.
Qed.

(** [getBulletsHittingWalls] returns, in the order of the bullets, the
    id of every bullet that overlaps at least one of the walls, once
    each however many walls it overlaps; with no walls it returns
    nothing. *)
Theorem getBulletsHittingWalls_filter (bullets : list Bullet.t)
    (walls : list Wall.t) :
  CollisionSystem.getBulletsHittingWalls bullets walls
  = map Bullet.id
      (List.filter
         (fun bullet =>
            existsb (CollisionSystem.checkBulletWallCollision bullet) walls)
         bullets)
  /\ (length (CollisionSystem.getBulletsHittingWalls bullets walls)
      <= length bullets)%nat
  /\ CollisionSystem.getBulletsHittingWalls bullets [] = [].
Proof.
  assert (Hgen : forall walls acc,
    CollisionSystem.getBulletsHittingWallsFrom acc bullets walls
    = acc ++ map Bullet.id
               (List.filter
                  (fun bullet =>
                     existsb (CollisionSystem.checkBulletWallCollision bullet)
                       walls)
                  bullets)).
  { clear walls. intros walls.
    induction bullets as [|bullet bullets IH]; intros acc;
      cbn [CollisionSystem.getBulletsHittingWallsFrom List.filter map].
    - now rewrite app_nil_r.
    - rewrite IH, hitsSomeWall_existsb.
      destruct (existsb _ walls); [|reflexivity].
      cbn [map]. now rewrite <- app_assoc. }
  unfold CollisionSystem.getBulletsHittingWalls. rewrite !Hgen.
  cbn [app]. split; [reflexivity|]. split.
  - rewrite length_map. apply List.filter_length_le.
  - clear Hgen. induction bullets as [|bullet bullets IH]; cbn;
      [reflexivity|exact IH].
Qed.
(** ** Shooting *)

(** A bullet is created 35 ahead of the centre of its car (half a car
    width plus 10), flies along the car's heading at the speed of its
    weapon, belongs to the car and carries the weapon's damage scaled
    by the car's multiplier and rounded; creating it advances the id
    counter by one. *)
Theorem createBullet_geometry (car : CarState.t) (weaponType : WeaponType)
    (counter : nat) :
  let bullet := fst (CombatSystem.createBullet car weaponType counter) in
  let config := WEAPON_CONFIGS weaponType in
  Vector.distance (Vector2.mk (Bullet.x bullet) (Bullet.y bullet))
    (Vector2.mk (CarState.x car) (CarState.y car))
  = CAR_WIDTH / 2 + 10
  /\ Vector.magnitude
       (Vector2.mk (Bullet.velocityX bullet) (Bullet.velocityY bullet))
     = WeaponConfig.speed config
  /\ (Bullet.velocityX bullet, Bullet.velocityY bullet)
     = (cos (CarState.angle car) * WeaponConfig.speed config,
        sin (CarState.angle car) * WeaponConfig.speed config)
  /\ Bullet.ownerId bullet = CarState.id car
  /\ Bullet.damage bullet
     = round (WeaponConfig.damage config * CarState.bulletDamageMultiplier car)
  /\ snd (CombatSystem.createBullet car weaponType counter) = S counter.
Proof.
  cbv zeta. unfold CombatSystem.createBullet, generateBulletId.
  cbn [fst snd Bullet.x Bullet.y Bullet.velocityX Bullet.velocityY
       Bullet.ownerId Bullet.damage].
  unfold Vector.distance, Vector.subtract, Vector.magnitude, Vector.add,
    Vector.fromAngle.
  cbn [Vector2.x Vector2.y].
  split; [|split; [|repeat split]].
  - replace (CarState.x car + cos (CarState.angle car) * (CAR_WIDTH / 2 + 10)
             - CarState.x car)
      with (cos (CarState.angle car) * (CAR_WIDTH / 2 + 10)) by ring.
    replace (CarState.y car + sin (CarState.angle car) * (CAR_WIDTH / 2 + 10)
             - CarState.y car)
      with (sin (CarState.angle car) * (CAR_WIDTH / 2 + 10)) by ring.
    rewrite fromAngle_norm. apply Rabs_right. unfold CAR_WIDTH. lra.
  - rewrite fromAngle_norm. apply Rabs_right.
    destruct weaponType; cbn;
      unfold CANNON_BULLET_SPEED, MACHINEGUN_BULLET_SPEED; lra.
Qed.

Lemma bulletId_injective (n m : nat) :
  fst (generateBulletId n) = fst (generateBulletId m) -> n = m.
Proof.
  unfold generateBulletId. cbn [fst]. intros H.
  injection H as H. change (append EmptyString ?s) with s in H.
  assert (Hu : NilEmpty.uint_of_string
                 (NilEmpty.string_of_uint (Nat.to_uint n))
               = NilEmpty.uint_of_string
                   (NilEmpty.string_of_uint (Nat.to_uint m)))
    by (now rewrite H).
  rewrite !NilEmpty.usu in Hu. injection Hu as Hu.
  rewrite <- (DecimalNat.Unsigned.of_to n), <- (DecimalNat.Unsigned.of_to m).
  now rewrite Hu.
Qed.

(** Two bullets get the same id only when they are made at the same
    value of the id counter, whichever cars and weapons fire them: a
    combat system never hands out an id twice until it is reset. *)
Theorem createBullet_id_unique (car1 car2 : CarState.t)
    (weaponType1 weaponType2 : WeaponType) (counter1 counter2 : nat) :
  Bullet.id (fst (CombatSystem.createBullet car1 weaponType1 counter1))
  = Bullet.id (fst (CombatSystem.createBullet car2 weaponType2 counter2))
  <-> counter1 = counter2.
Proof.
  unfold CombatSystem.createBullet.
  destruct (generateBulletId counter1) as [id1 c1] eqn:E1.
  destruct (generateBulletId counter2) as [id2 c2] eqn:E2.
  cbn [fst Bullet.id]. split.
  - intros Hid. apply bulletId_injective. rewrite E1, E2. exact Hid.
  - intros ->. congruence.
Qed.

(** [resetPlayer] forgets both cooldowns of the player and nothing
    else, so that the player's next shot from an unobstructed position
    is accepted at any time that is at least one cooldown after the
    epoch; [reset] forgets every cooldown and restarts the bullet ids
    at 0. *)
Theorem resetPlayer_clears_cooldowns (playerId : string)
    (cs : CombatSystem.t) :
  let cs' := CombatSystem.resetPlayer playerId cs in
  CombatSystem.lastCannonShootTimes cs' !! playerId = None
  /\ CombatSystem.lastMachineGunShootTimes cs' !! playerId = None
  /\ (forall other, other <> playerId ->
        CombatSystem.lastCannonShootTimes cs' !! other
        = CombatSystem.lastCannonShootTimes cs !! other
        /\ CombatSystem.lastMachineGunShootTimes cs' !! other
           = CombatSystem.lastMachineGunShootTimes cs !! other)
  /\ CombatSystem.bulletCounter cs' = CombatSystem.bulletCounter cs
  /\ (forall now car bullets,
        CarState.id car = playerId -> (CANNON_COOLDOWN <= now)%Z ->
        fst (fst (CombatSystem.tryShootCannon now car bullets [] cs')) = true
        /\ fst (fst (CombatSystem.tryShoot now car bullets [] cs')) = true)
  /\ CombatSystem.reset cs
     = CombatSystem.mk 0 ∅ ∅ (CombatSystem.lastWallDamageResults cs).
Proof.
  cbv zeta. unfold CombatSystem.resetPlayer. cbn.
  split; [apply lookup_delete_eq|]. split; [apply lookup_delete_eq|].
  split.
  { intros other Hne. split; apply lookup_delete_ne; congruence. }
  split; [reflexivity|]. split; [|reflexivity].
  intros now car bullets Hid Hnow.
  unfold CombatSystem.tryShoot, CombatSystem.tryShootCannon,
    CombatSystem.tryShootWeapon.
  cbn [CombatSystem.lastCannonShootTimes CombatSystem.bulletCounter existsb].
  rewrite Hid, lookup_delete_eq. cbn [default].
  replace (now - 0 <? WeaponConfig.cooldown (WEAPON_CONFIGS cannon))%Z
    with false.
  - destruct (CombatSystem.createBullet car cannon _). split; reflexivity.
  - symmetry. apply Z.ltb_ge. cbn. lia.
Qed.

(** ** The bullet update *)

Lemma bulletStep_removed_mono (st : CombatSystem.Loop.t) (bullet : Bullet.t) :
  CombatSystem.Loop.bulletsToRemove st
  ⊆ CombatSystem.Loop.bulletsToRemove (CombatSystem.bulletStep st bullet).
Proof.
  unfold CombatSystem.bulletStep.
  destruct (CollisionSystem.isBulletOutOfBounds _ _ _); [cbn; set_solver|].
  destruct (CombatSystem.wallLoop _ _ _) as [[walls r]|]; cbn;
    destruct (decide _); cbn; try set_solver;
    destruct (CombatSystem.playerLoop _ _ _); cbn; set_solver.
Qed.

Lemma bulletStep_walls_length (st : CombatSystem.Loop.t) (bullet : Bullet.t) :
  length (CombatSystem.Loop.walls (CombatSystem.bulletStep st bullet))
  = length (CombatSystem.Loop.walls st).
Proof.
  destruct (bulletStep_walls st bullet)
    as [[-> _]|(pre & w & post & Hw & _ & -> & _)]; [reflexivity|].
  rewrite Hw, !length_app. reflexivity.
Qed.

Lemma bulletLoop_removed (bullets : list Bullet.t) (st : CombatSystem.Loop.t) :
  CombatSystem.Loop.bulletsToRemove st
  ⊆ CombatSystem.Loop.bulletsToRemove
      (fold_left CombatSystem.bulletStep bullets st)
  /\ forall bullet,
       In bullet bullets ->
       CollisionSystem.isBulletOutOfBounds (CombatSystem.moveBullet bullet)
         GAME_WIDTH GAME_HEIGHT = true ->
       Bullet.id (CombatSystem.moveBullet bullet)
       ∈ CombatSystem.Loop.bulletsToRemove
           (fold_left CombatSystem.bulletStep bullets st).
Proof.
  revert st. induction bullets as [|b bullets IH]; intros st; cbn [fold_left].
  - split; [reflexivity|]. intros bullet [].
  - destruct (IH (CombatSystem.bulletStep st b)) as [Hmono Hoob].
    pose proof (bulletStep_removed_mono st b) as Hstep. split.
    + set_solver.
    + intros bullet [<-|Hin] Hout; [|now apply Hoob].
      apply Hmono. rewrite (bulletStep_oob st b Hout). cbn. set_solver.
Qed.

(** After [updateBullets] every bullet that is left is one of the old
    bullets advanced by its velocity and lies within the arena, edges
    included; the update adds neither bullets nor walls, keeps the
    players and their order, and leaves the power-ups, the game status
    and the winner alone. *)
Theorem updateBullets_survivors (cs : CombatSystem.t) (gs : GameState.t) :
  let gs' := snd (CombatSystem.updateBullets cs gs) in
  (forall bullet,
      In bullet (GameState.bullets gs') ->
      (exists old,
          In old (GameState.bullets gs)
          /\ bullet = CombatSystem.moveBullet old)
      /\ 0 <= Bullet.x bullet <= GAME_WIDTH
      /\ 0 <= Bullet.y bullet <= GAME_HEIGHT)
  /\ (length (GameState.bullets gs') <= length (GameState.bullets gs))%nat
  /\ (length (GameState.walls gs') <= length (GameState.walls gs))%nat
  /\ mkeys (GameState.players gs') = mkeys (GameState.players gs)
  /\ (GameState.boons gs', GameState.gameStatus gs', GameState.winner gs')
     = (GameState.boons gs, GameState.gameStatus gs, GameState.winner gs).
Proof.
  cbv zeta. unfold CombatSystem.updateBullets. cbn [snd GameState.bullets
    GameState.walls GameState.players GameState.boons GameState.gameStatus
    GameState.winner].
  split; [|split; [|split; [|split]]].
  - intros bullet Hin.
    apply list_elem_of_In, list_elem_of_filter in Hin as [Hkeep Hin].
    apply list_elem_of_In, in_map_iff in Hin as (old & <- & Hold).
    split; [eauto|].
    destruct (CollisionSystem.isBulletOutOfBounds
                (CombatSystem.moveBullet old) GAME_WIDTH GAME_HEIGHT) eqn:Hout.
    + exfalso. apply Hkeep. unfold CombatSystem.bulletLoop.
      now apply bulletLoop_removed.
    + unfold CollisionSystem.isBulletOutOfBounds in Hout.
      rewrite !orb_false_iff in Hout.
      destruct Hout as [[[H1 H2] H3] H4].
      apply Rltb_false_iff in H1, H3. apply Rgtb_false_iff in H2, H4. lra.
  - etransitivity; [apply length_filter|]. now rewrite length_map.
  - etransitivity; [apply length_filter|].
    unfold CombatSystem.bulletLoop.
    apply (bulletLoop_invariant
             (fun st => (length (CombatSystem.Loop.walls st)
                         <= length (GameState.walls gs))%nat)).
    + cbn. lia.
    + intros st b _ Hst. now rewrite bulletStep_walls_length.
  - apply bulletLoop_keys.
  - reflexivity.
Qed.
(** ** Shield recharge *)

Lemma updateShieldOf_spec (car : CarState.t) :
  let car' := GameEngine.updateShieldOf car in
  (CarState.health car <= 0 -> car' = car)
  /\ CarState.shield car <= CarState.shield car'
  /\ CarState.shield car' <= Rmax (CarState.shield car) (CarState.maxShield car)
  /\ (TICK_INTERVAL < CarState.shieldRechargeTimer car ->
      CarState.shield car' = CarState.shield car)
  /\ (0 < CarState.health car -> 0 < CarState.shieldRechargeTimer car ->
      CarState.shieldRechargeTimer car'
      = CarState.shieldRechargeTimer car - TICK_INTERVAL)
  /\ (0 < CarState.health car -> CarState.shieldRechargeTimer car <= 0 ->
      CarState.shield car < CarState.maxShield car ->
      CarState.shield car'
      = Rmin (CarState.maxShield car)
          (CarState.shield car + SHIELD_RECHARGE_RATE * (TICK_INTERVAL / 1000)))
  /\ (CarState.id car', CarState.health car', CarState.maxHealth car',
      CarState.maxShield car', CarState.score car')
     = (CarState.id car, CarState.health car, CarState.maxHealth car,
        CarState.maxShield car, CarState.score car).
Proof.
  cbv zeta. unfold GameEngine.updateShieldOf.
  unfold TICK_INTERVAL, TICK_RATE, SHIELD_RECHARGE_RATE.
  destruct (Rleb (CarState.health car) 0) eqn:Eh.
  { apply Rleb_true_iff in Eh. repeat split; try lra; try reflexivity.
    unfold Rmax. destruct (Rle_dec _ _); lra. }
  apply Rleb_false_iff in Eh.
  destruct (Rgtb (CarState.shieldRechargeTimer car) 0) eqn:Et;
    [apply Rgtb_true_iff in Et|apply Rgtb_false_iff in Et];
    cbn [CarState.shieldRechargeTimer CarState.with_shieldRechargeTimer
         CarState.shield CarState.maxShield];
    match goal with
    | |- context [(?a && ?b)%bool] =>
        destruct a eqn:E1;
          [apply Rleb_true_iff in E1|apply Rleb_false_iff in E1];
          (destruct b eqn:E2;
           [apply Rltb_true_iff in E2|apply Rltb_false_iff in E2])
    end;
    cbn; repeat split; intros; try reflexivity; rcases; lra.
Qed.

(** One shield update changes only the shields and recharge timers of
    the living players: every player's new state is [updateShieldOf]
    of the old one.  A shield never shrinks and never passes the
    larger of its old value and its maximum; it stays as it is while
    more than one tick of the recharge delay is left, and once the
    delay has run out it grows by the recharge rate times the tick
    length, up to its maximum. *)
Theorem updateShields_recharge (state : GameState.t) :
  List.NoDup (mkeys (GameState.players state)) ->
  let state' := GameEngine.updateShields state in
  mkeys (GameState.players state') = mkeys (GameState.players state)
  /\ (forall k,
        GameStateManager.getPlayer k state'
        = GameEngine.updateShieldOf <$> GameStateManager.getPlayer k state)
  /\ (forall car,
        let car' := GameEngine.updateShieldOf car in
        (CarState.health car <= 0 -> car' = car)
        /\ CarState.shield car <= CarState.shield car'
        /\ CarState.shield car'
           <= Rmax (CarState.shield car) (CarState.maxShield car)
        /\ (TICK_INTERVAL < CarState.shieldRechargeTimer car ->
            CarState.shield car' = CarState.shield car)
        /\ (0 < CarState.health car -> 0 < CarState.shieldRechargeTimer car ->
            CarState.shieldRechargeTimer car'
            = CarState.shieldRechargeTimer car - TICK_INTERVAL)
        /\ (0 < CarState.health car ->
            CarState.shieldRechargeTimer car <= 0 ->
            CarState.shield car < CarState.maxShield car ->
            CarState.shield car'
            = Rmin (CarState.maxShield car)
                (CarState.shield car
                 + SHIELD_RECHARGE_RATE * (TICK_INTERVAL / 1000)))
        /\ (CarState.id car', CarState.health car', CarState.maxHealth car',
            CarState.maxShield car', CarState.score car')
           = (CarState.id car, CarState.health car, CarState.maxHealth car,
              CarState.maxShield car, CarState.score car))
  /\ (GameState.bullets state', GameState.walls state', GameState.boons state',
      GameState.gameStatus state', GameState.winner state')
     = (GameState.bullets state, GameState.walls state, GameState.boons state,
        GameState.gameStatus state, GameState.winner state).
Proof.
  intros Hnd. cbv zeta. unfold GameEngine.updateShields,
    GameStateManager.getPlayer.
  cbn [GameStateManager.setPlayers GameState.players GameState.bullets
       GameState.walls GameState.boons GameState.gameStatus GameState.winner].
  split; [apply foldStore_keys|].
  split; [|split; [intros car; apply updateShieldOf_spec|reflexivity]].
  intros k. destruct (mget k (GameState.players state)) as [car|] eqn:Hk.
  - cbn. apply foldStore_once; [exact Hnd| |exact Hk].
    destruct (in_dec string_dec k (mkeys (GameState.players state)))
      as [Hin|Hnin]; [exact Hin|].
    apply mget_None_keys in Hnin. congruence.
  - cbn. rewrite foldStore_other; [exact Hk|].
    now apply mget_None_keys.
Qed.

(** The two players of scenario C: one shield update keeps them. *)
Lemma updateShields_recharge_witness :
  mkeys (GameState.players (GameEngine.updateShields scenarioC))
  = mkeys (GameState.players scenarioC).
Proof.
  apply (updateShields_recharge scenarioC).
  cbn. repeat constructor; cbn; intros H;
    repeat (destruct H as [H|H]; [discriminate|]); exact H.
Defined.

Lemma updateShieldOf_waiting (n : nat) (car : CarState.t) :
  (n <= 179)%nat ->
  CarState.shieldRechargeTimer car = SHIELD_RECHARGE_DELAY ->
  let car' := Nat.iter n GameEngine.updateShieldOf car in
  CarState.shield car' = CarState.shield car
  /\ CarState.health car' = CarState.health car
  /\ (0 < CarState.health car ->
      CarState.shieldRechargeTimer car'
      = SHIELD_RECHARGE_DELAY - INR n * TICK_INTERVAL).
Proof.
  intros Hn Ht. cbv zeta. induction n as [|n IH].
  - cbn. repeat split. intros _. lra.
  - destruct IH as (Hs & Hh & Htim); [lia|].
    rewrite Nat.iter_succ.
    set (c := Nat.iter n GameEngine.updateShieldOf car) in *.
    destruct (updateShieldOf_spec c)
      as (Hdead & _ & _ & Hwait & Hdec & _ & Hsame).
    cbv zeta in Hdead, Hwait, Hdec, Hsame.
    injection Hsame as _ Hh' _ _ _.
    destruct (Rle_dec (CarState.health car) 0) as [Hd|Ha].
    + rewrite Hdead by lra. repeat split; try assumption. intros; lra.
    + assert (Halive : 0 < CarState.health car) by lra.
      specialize (Htim Halive).
      assert (HINR : INR n <= 178).
      { replace 178 with (INR 178) by (cbn; lra). apply le_INR. lia. }
      assert (Hrem : TICK_INTERVAL < CarState.shieldRechargeTimer c).
      { rewrite Htim. unfold SHIELD_RECHARGE_DELAY, TICK_INTERVAL, TICK_RATE.
        lra. }
      split; [rewrite (Hwait Hrem); exact Hs|]. split; [congruence|].
      intros _. rewrite Hdec.
      * rewrite Htim, S_INR. ring.
      * lra.
      * unfold TICK_INTERVAL, TICK_RATE in Hrem. lra.
Qed.

(** A hit puts off the recharge: through the next 179 shield updates,
    with no further hit or pickup in between, the shield of the car
    that was hit stays exactly as the hit left it. *)
Theorem shield_waits_after_hit (bullet : Bullet.t) (target : CarState.t)
    (n : nat) :
  (n <= 179)%nat ->
  let hit := CombatSystem.damageTarget bullet target in
  CarState.shield (Nat.iter n GameEngine.updateShieldOf hit)
  = CarState.shield hit
  /\ CarState.health (Nat.iter n GameEngine.updateShieldOf hit)
     = CarState.health hit.
Proof.
  intros Hn hit.
  destruct (updateShieldOf_waiting n hit Hn) as (Hs & Hh & _).
  - unfold hit, CombatSystem.damageTarget.
    destruct (Rgtb (CarState.shield target) 0);
      match goal with
      | |- context [Rgtb ?a 0] => destruct (Rgtb a 0)
      end; reflexivity.
  - split; assumption.
Qed.

(** Three seconds minus one tick after the hit of scenario C. *)
Lemma shield_waits_after_hit_witness :
  CarState.shield
    (Nat.iter 179 GameEngine.updateShieldOf
       (CombatSystem.damageTarget (exampleBullet "bullet_0" "p1" 1040 400 12 15)
          (exampleCar "p2" 1050 400 100 50)))
  = CarState.shield
      (CombatSystem.damageTarget (exampleBullet "bullet_0" "p1" 1040 400 12 15)
         (exampleCar "p2" 1050 400 100 50)).
Proof.
  apply (shield_waits_after_hit
           (exampleBullet "bullet_0" "p1" 1040 400 12 15)
           (exampleCar "p2" 1050 400 100 50) 179).
  lia.
Defined.
(** ** The physics step as a whole *)

Lemma applyRotation_keeps (car : CarState.t) (input : PlayerInput.t)
    (car' : CarState.t) :
  PhysicsSystem.applyRotation car input = Some car' ->
  combatStats car' = combatStats car
  /\ tuning car' = tuning car
  /\ (CarState.x car', CarState.y car', CarState.velocityX car',
      CarState.velocityY car')
     = (CarState.x car, CarState.y car, CarState.velocityX car,
        CarState.velocityY car).
Proof.
  intros Hrot.
  rewrite (proj2 (applyRotation_returns car input) car' Hrot).
  auto.
Qed.

Lemma applyAcceleration_keeps (car : CarState.t) (input : PlayerInput.t) :
  let car' := PhysicsSystem.applyAcceleration car input in
  combatStats car' = combatStats car
  /\ tuning car' = tuning car
  /\ (CarState.x car', CarState.y car') = (CarState.x car, CarState.y car).
Proof.
  cbv zeta. unfold PhysicsSystem.applyAcceleration.
  destruct (PlayerInput.forward input), (PlayerInput.backward input); auto.
Qed.

Lemma limitSpeed_keeps (car : CarState.t) (isBoosting : bool) :
  let car' := PhysicsSystem.limitSpeed car isBoosting in
  combatStats car' = combatStats car
  /\ tuning car' = tuning car
  /\ (CarState.x car', CarState.y car') = (CarState.x car, CarState.y car).
Proof.
  cbv zeta. unfold PhysicsSystem.limitSpeed.
  match goal with
  | |- context [if Rgtb ?a ?b then _ else _] => destruct (Rgtb a b)
  end; auto.
Qed.

Lemma limitSpeed_capped (car : CarState.t) (isBoosting : bool) :
  let cap :=
    if isBoosting then CarState.boostSpeed car else CarState.maxSpeed car in
  0 <= cap ->
  PhysicsSystem.getSpeed (PhysicsSystem.limitSpeed car isBoosting)
  = Rmin cap (PhysicsSystem.getSpeed car).
Proof.
  intros cap Hcap. destruct (limitSpeed_spec car isBoosting) as [Hle Hgt].
  fold cap in Hle, Hgt. unfold Rmin.
  destruct (Rle_dec cap (PhysicsSystem.getSpeed car)) as [H|H].
  - destruct (Req_dec cap (PhysicsSystem.getSpeed car)) as [He|Hne].
    + rewrite Hle by lra. auto.
    + destruct Hgt as (_ & _ & Hs); [lra|]. auto.
  - rewrite Hle by lra. reflexivity.
Qed.

Lemma getSpeed_friction (car : CarState.t) :
  PhysicsSystem.getSpeed (PhysicsSystem.applyFriction car)
  = CAR_FRICTION * PhysicsSystem.getSpeed car.
Proof.
  unfold PhysicsSystem.getSpeed, PhysicsSystem.applyFriction. cbn.
  apply sqrt_scaled. unfold CAR_FRICTION. lra.
Qed.

Lemma tuning_caps (a b : CarState.t) :
  tuning a = tuning b ->
  CarState.maxSpeed a = CarState.maxSpeed b
  /\ CarState.boostSpeed a = CarState.boostSpeed b.
Proof. unfold tuning. intros [= H1 H2 _ _]. auto. Qed.

(** One physics step returns unless it steers by mouse towards a
    target angle more than 2^56 away from the heading of the car.
    When it returns it has changed neither the car's id, health,
    shield or score, nor the stats of its tier; it leaves the car
    inside the arena, half a car away from the edges at least; and
    with a non-negative speed cap (the boost speed when the boost
    input is held, whatever the boost fuel, the maximum speed
    otherwise) the car comes out no faster than the cap. *)
Theorem updateCar_invariants (car : CarState.t) (input : PlayerInput.t) :
  (PhysicsSystem.updateCar car input = None <->
   exists targetAngle,
     PlayerInput.useMouseControl input = true
     /\ PlayerInput.targetAngle input = Some targetAngle
     /\ PhysicsSystem.ABSORBS_TURN < Rabs (targetAngle - CarState.angle car))
  /\ forall car',
       PhysicsSystem.updateCar car input = Some car' ->
       let cap :=
         if PlayerInput.boost input
         then CarState.boostSpeed car else CarState.maxSpeed car in
       combatStats car' = combatStats car
       /\ tuning car' = tuning car
       /\ CAR_WIDTH / 2 <= CarState.x car' <= GAME_WIDTH - CAR_WIDTH / 2
       /\ CAR_HEIGHT / 2 <= CarState.y car' <= GAME_HEIGHT - CAR_HEIGHT / 2
       /\ (0 <= cap -> PhysicsSystem.getSpeed car' <= cap).
Proof.
  split.
  { rewrite <- (proj1 (applyRotation_returns car input)).
    unfold PhysicsSystem.updateCar.
    destruct (PhysicsSystem.applyRotation car input);
      split; intros; first [discriminate|reflexivity]. }
  intros car' Hupd. cbv zeta.
  unfold PhysicsSystem.updateCar in Hupd.
  destruct (PhysicsSystem.applyRotation car input) as [c1|] eqn:Hrot;
    [|discriminate].
  cbv zeta in Hupd. injection Hupd as <-.
  set (c2 := PhysicsSystem.applyAcceleration c1 input).
  set (c3 := PhysicsSystem.applyFriction c2).
  set (c4 := PhysicsSystem.limitSpeed c3 (PlayerInput.boost input)).
  destruct (applyRotation_keeps car input c1 Hrot) as (S1 & T1 & _).
  destruct (applyAcceleration_keeps c1 input) as (S2 & T2 & _).
  destruct (limitSpeed_keeps c3 (PlayerInput.boost input)) as (S4 & T4 & _).
  fold c2 in S2, T2. fold c4 in S4, T4.
  assert (S3 : combatStats c3 = combatStats c2) by reflexivity.
  assert (T3 : tuning c3 = tuning c2) by reflexivity.
  destruct (constrainToBounds_spec (PhysicsSystem.updatePosition c4))
    as (Bx & By & _).
  split; [transitivity (combatStats c4); [reflexivity|congruence]|].
  split; [transitivity (tuning c4); [reflexivity|congruence]|].
  split; [exact Bx|]. split; [exact By|].
  intros Hcap.
  assert (Htune : tuning c3 = tuning car) by congruence.
  apply tuning_caps in Htune as [Hmax Hboost].
  change (PhysicsSystem.getSpeed
            (PhysicsSystem.constrainToBounds (PhysicsSystem.updatePosition c4)))
    with (PhysicsSystem.getSpeed c4).
  unfold c4. rewrite limitSpeed_capped.
  - rewrite Hmax, Hboost. apply Rmin_l.
  - rewrite Hmax, Hboost. exact Hcap.
Qed.

(** A car steered by mouse towards the angle 1 comes out of the step
    with its health and stats, inside the arena and no faster than
    its maximum speed; towards the angle 10^17 the step does not
    return. *)
Lemma updateCar_invariants_witness :
  (exists car',
      PhysicsSystem.updateCar carP1 (aimingAt 1) = Some car'
      /\ combatStats car' = combatStats carP1
      /\ tuning car' = tuning carP1
      /\ CAR_WIDTH / 2 <= CarState.x car' <= GAME_WIDTH - CAR_WIDTH / 2
      /\ CAR_HEIGHT / 2 <= CarState.y car' <= GAME_HEIGHT - CAR_HEIGHT / 2
      /\ PhysicsSystem.getSpeed car' <= 8)
  /\ PhysicsSystem.updateCar carP1 (aimingAt 100000000000000000) = None.
Proof.
  split.
  - destruct (PhysicsSystem.updateCar carP1 (aimingAt 1)) as [car'|] eqn:Hupd.
    + exists car'. split; [reflexivity|].
      destruct (proj2 (updateCar_invariants carP1 (aimingAt 1)) car' Hupd)
        as (H1 & H2 & H3 & H4 & H5).
      repeat (split; [assumption|]). apply H5. cbn. lra.
    + exfalso.
      destruct (proj1 (proj1 (updateCar_invariants carP1 (aimingAt 1))) Hupd)
        as (t & _ & Ht & Habs).
      injection Ht as <-. revert Habs.
      change (CarState.angle carP1) with 0.
      unfold PhysicsSystem.ABSORBS_TURN, Rabs.
      destruct (Rcase_abs (1 - 0)); lra.
  - apply (proj2 (proj1 (updateCar_invariants carP1
                           (aimingAt 100000000000000000)))).
    exists 100000000000000000. split; [reflexivity|]. split; [reflexivity|].
    change (CarState.angle carP1) with 0.
    unfold PhysicsSystem.ABSORBS_TURN, Rabs.
    destruct (Rcase_abs (100000000000000000 - 0)); lra.
Defined.

(** With neither forward nor backward held a car only loses speed to
    friction: when the step returns, the speed is 0.98 times what it
    was, or the cap if that is lower.  The step returns whenever the
    car is not steered by mouse. *)
Theorem updateCar_coasting (car : CarState.t) (input : PlayerInput.t) :
  let cap :=
    if PlayerInput.boost input
    then CarState.boostSpeed car else CarState.maxSpeed car in
  PlayerInput.forward input = false ->
  PlayerInput.backward input = false ->
  0 <= cap ->
  (forall car',
      PhysicsSystem.updateCar car input = Some car' ->
      PhysicsSystem.getSpeed car'
      = Rmin cap (CAR_FRICTION * PhysicsSystem.getSpeed car))
  /\ (PlayerInput.useMouseControl input = false ->
      exists car', PhysicsSystem.updateCar car input = Some car').
Proof.
  intros cap Hf Hb Hcap. split.
  - intros car' Hupd. unfold PhysicsSystem.updateCar in Hupd.
    destruct (PhysicsSystem.applyRotation car input) as [c1|] eqn:Hrot;
      [|discriminate].
    cbv zeta in Hupd. injection Hupd as <-.
    assert (Hc2 : PhysicsSystem.applyAcceleration c1 input = c1).
    { unfold PhysicsSystem.applyAcceleration. now rewrite Hf, Hb. }
    rewrite Hc2.
    set (c3 := PhysicsSystem.applyFriction c1).
    destruct (applyRotation_keeps car input c1 Hrot) as (_ & T1 & V1).
    assert (T3 : tuning c3 = tuning car) by (rewrite <- T1; reflexivity).
    apply tuning_caps in T3 as [Hmax Hboost].
    change (PhysicsSystem.getSpeed
              (PhysicsSystem.constrainToBounds
                 (PhysicsSystem.updatePosition
                    (PhysicsSystem.limitSpeed c3 (PlayerInput.boost input)))))
      with (PhysicsSystem.getSpeed
              (PhysicsSystem.limitSpeed c3 (PlayerInput.boost input))).
    rewrite limitSpeed_capped by (rewrite Hmax, Hboost; exact Hcap).
    rewrite Hmax, Hboost. fold cap. unfold c3. rewrite getSpeed_friction.
    f_equal. f_equal. unfold PhysicsSystem.getSpeed.
    injection V1 as _ _ -> ->. reflexivity.
  - intros Hm.
    destruct (PhysicsSystem.updateCar car input) as [car'|] eqn:Hupd;
      [exists car'; reflexivity|].
    exfalso. unfold PhysicsSystem.updateCar in Hupd.
    destruct (PhysicsSystem.applyRotation car input) eqn:Hrot;
      [discriminate|].
    apply (proj1 (applyRotation_returns car input)) in Hrot.
    destruct Hrot as (t & Ht & _). congruence.
Qed.

(** A car drifting at speed 5 with nothing held comes out of the
    step at speed 4.9. *)
Lemma updateCar_coasting_witness :
  exists car',
    PhysicsSystem.updateCar (CarState.with_velocityX 5 carP1)
      createDefaultInput = Some car'
    /\ PhysicsSystem.getSpeed car'
       = Rmin 8 (CAR_FRICTION
                 * PhysicsSystem.getSpeed (CarState.with_velocityX 5 carP1)).
Proof.
  destruct (updateCar_coasting (CarState.with_velocityX 5 carP1)
              createDefaultInput eq_refl eq_refl ltac:(cbn; lra))
    as [Hspeed Hreturns].
  destruct (Hreturns eq_refl) as [car' Hupd].
  exists car'. split; [exact Hupd|]. exact (Hspeed car' Hupd).
Defined.

(** The relative speed of two cars does not depend on their order, is
    0 exactly when they move alike, and is at most the sum of their
    speeds; so collision damage is the same whichever car is named
    first. *)
Theorem getRelativeSpeed_symmetric (car1 car2 : CarState.t) :
  PhysicsSystem.getRelativeSpeed car1 car2
  = PhysicsSystem.getRelativeSpeed car2 car1
  /\ (PhysicsSystem.getRelativeSpeed car1 car2 = 0
      <-> CarState.velocityX car1 = CarState.velocityX car2
          /\ CarState.velocityY car1 = CarState.velocityY car2)
  /\ PhysicsSystem.getRelativeSpeed car1 car2
     <= PhysicsSystem.getSpeed car1 + PhysicsSystem.getSpeed car2
  /\ CollisionResult.damage
       (snd (CollisionSystem.checkCarCollision car1 car2))
     = CollisionResult.damage
         (snd (CollisionSystem.checkCarCollision car2 car1)).
Proof.
  assert (Hsym : forall a b,
    PhysicsSystem.getRelativeSpeed a b = PhysicsSystem.getRelativeSpeed b a).
  { intros a b. unfold PhysicsSystem.getRelativeSpeed. cbv zeta.
    f_equal. ring. }
  split; [apply Hsym|]. split; [|split].
  - unfold PhysicsSystem.getRelativeSpeed. cbv zeta.
    set (dx := CarState.velocityX car1 - CarState.velocityX car2).
    set (dy := CarState.velocityY car1 - CarState.velocityY car2).
    split.
    + intros Hz. apply sqrt_eq_0 in Hz; [|nra].
      assert (dx = 0) by nra. assert (dy = 0) by nra.
      unfold dx, dy in *. lra.
    + intros [Hx Hy]. replace dx with 0 by (unfold dx; lra).
      replace dy with 0 by (unfold dy; lra).
      replace (0 ^ 2 + 0 ^ 2) with 0 by ring. apply sqrt_0.
  - pose proof (triangle (CarState.velocityX car1) (CarState.velocityY car1)
                  (CarState.velocityX car2) (CarState.velocityY car2) 0 0)
      as Ht.
    unfold dist_euc, Rsqr in Ht.
    unfold PhysicsSystem.getRelativeSpeed, PhysicsSystem.getSpeed. cbv zeta.
    replace ((CarState.velocityX car1 - CarState.velocityX car2) ^ 2
             + (CarState.velocityY car1 - CarState.velocityY car2) ^ 2)
      with ((CarState.velocityX car1 - CarState.velocityX car2)
            * (CarState.velocityX car1 - CarState.velocityX car2)
            + (CarState.velocityY car1 - CarState.velocityY car2)
              * (CarState.velocityY car1 - CarState.velocityY car2)) by ring.
    replace (CarState.velocityX car1 ^ 2 + CarState.velocityY car1 ^ 2)
      with ((CarState.velocityX car1 - 0) * (CarState.velocityX car1 - 0)
            + (CarState.velocityY car1 - 0) * (CarState.velocityY car1 - 0))
      by ring.
    replace (CarState.velocityX car2 ^ 2 + CarState.velocityY car2 ^ 2)
      with ((0 - CarState.velocityX car2) * (0 - CarState.velocityX car2)
            + (0 - CarState.velocityY car2) * (0 - CarState.velocityY car2))
      by ring.
    exact Ht.
  - unfold CollisionSystem.checkCarCollision. cbv zeta.
    replace (sqrt ((CarState.x car2 - CarState.x car1)
                   * (CarState.x car2 - CarState.x car1)
                   + (CarState.y car2 - CarState.y car1)
                     * (CarState.y car2 - CarState.y car1)))
      with (sqrt ((CarState.x car1 - CarState.x car2)
                  * (CarState.x car1 - CarState.x car2)
                  + (CarState.y car1 - CarState.y car2)
                    * (CarState.y car1 - CarState.y car2)))
      by (f_equal; ring).
    match goal with
    | |- context [Rgeb ?a ?b] => destruct (Rgeb a b); [reflexivity|]
    end.
    match goal with
    | |- context [Rgtb (PhysicsSystem.getRelativeSpeed ?a ?b) _] =>
        change (PhysicsSystem.getRelativeSpeed a b)
          with (PhysicsSystem.getRelativeSpeed car1 car2)
    end.
    match goal with
    | |- context [Rgtb (PhysicsSystem.getRelativeSpeed ?a ?b)
                    COLLISION_DAMAGE_THRESHOLD] =>
        lazymatch a with
        | car1 => fail
        | _ => change (PhysicsSystem.getRelativeSpeed a b)
                 with (PhysicsSystem.getRelativeSpeed car2 car1)
        end
    end.
    rewrite (Hsym car2 car1).
    destruct (Rgtb (PhysicsSystem.getRelativeSpeed car1 car2)
                COLLISION_DAMAGE_THRESHOLD); reflexivity.
Qed.
(** ** More on insertion-ordered maps *)

Section OrderedMapMore.
Context {K V : Type} `{EqDecision K}.
Implicit Types (m : list (K * V)) (k : K) (v : V).

Lemma mset_length k v m :
  length (mset k v m) = if mhas k m then length m else S (length m).
Proof.
  unfold mhas. induction m as [|[k0 v0] m IH]; cbn; [reflexivity|].
  destruct (decide (k = k0)); cbn; [reflexivity|].
  rewrite IH. destruct (mget k m); reflexivity.
Qed.

Lemma mget_mdelete_ne k k' m : k <> k' -> mget k' (mdelete k m) = mget k' m.
Proof.
  intros Hne. induction m as [|[k0 v0] m IH]; cbn; [reflexivity|].
  destruct (decide (k = k0)) as [->|Hk]; cbn.
  - destruct (decide (k' = k0)); [congruence|reflexivity].
  - destruct (decide (k' = k0)); [reflexivity|exact IH].
Qed.

Lemma mget_mdelete_eq k m :
  List.NoDup (mkeys m) -> mget k (mdelete k m) = None.
Proof.
  intros Hnd. apply mget_None_keys. intros Hin.
  apply (mdelete_keys k m k Hnd) in Hin. tauto.
Qed.

Lemma mdelete_length k m :
  length (mdelete k m) = if mhas k m then pred (length m) else length m.
Proof.
  unfold mhas. induction m as [|[k0 v0] m IH]; cbn; [reflexivity|].
  destruct (decide (k = k0)); cbn; [reflexivity|].
  rewrite IH. destruct (mget k m) eqn:Hg; [|reflexivity].
  destruct m; [discriminate|reflexivity].
Qed.

End OrderedMapMore.

(** ** PlayerManager *)

(** [addPlayer] refuses to go beyond [MAX_PLAYERS]: a full manager is
    left as it is and nothing is drawn from the clock or the random
    numbers.  Otherwise the new player gets a number between 1 and
    [MAX_PLAYERS] that no present player has, so that its spawn
    position exists, the default input and the tier asked for, and can
    be looked up by its id; the manager grows by one player at most. *)
Theorem addPlayer_number (gliderTier : nat) (players : PlayerManager.t)
    (w : World.t) :
  exists r players' w',
    PlayerManager.addPlayer gliderTier players w = Some ((r, players'), w')
    /\ ((MAX_PLAYERS <= length players)%nat ->
        r = None /\ players' = players /\ w' = w)
    /\ ((length players < MAX_PLAYERS)%nat ->
        exists data,
          r = Some data
          /\ (1 <= PlayerData.playerNumber data <= MAX_PLAYERS)%nat
          /\ (forall k p, In (k, p) players ->
                PlayerData.playerNumber p <> PlayerData.playerNumber data)
          /\ (PlayerData.input data, PlayerData.lastShootTime data,
              PlayerData.gliderTier data)
             = (createDefaultInput, 0%Z, gliderTier)
          /\ PlayerManager.getPlayer (PlayerData.id data) players' = Some data
          /\ (length players' <= MAX_PLAYERS)%nat).
Proof.
  unfold PlayerManager.addPlayer, PlayerManager.canAddPlayer.
  destruct (Nat.ltb_spec (length players) MAX_PLAYERS) as [Hlt|Hge].
  - cbn [negb]. unfold bind, generatePlayerId.
    destruct (generateId_total "player" w) as [id Hid]. rewrite Hid.
    unfold ret. eexists _, _, _. split; [reflexivity|].
    split; [intros; lia|]. intros _. eexists. split; [reflexivity|].
    cbn [PlayerData.playerNumber PlayerData.input PlayerData.lastShootTime
         PlayerData.gliderTier PlayerData.id].
    assert (Hnum :
      (1 <= PlayerManager.getNextPlayerNumber players <= MAX_PLAYERS)%nat
      /\ forall k p, In (k, p) players ->
           PlayerData.playerNumber p
           <> PlayerManager.getNextPlayerNumber players).
    { unfold MAX_PLAYERS in *.
      destruct players as [|[k0 p0] [|? ?]]; [| |cbn in Hlt; lia].
      - cbn. split; [lia|]. intros k p [].
      - unfold PlayerManager.getNextPlayerNumber, MAX_PLAYERS. cbn.
        destruct (PlayerData.playerNumber p0) as [|[|n]] eqn:Hn; cbn.
        + split; [lia|]. intros k p [[= _ <-]|[]]. lia.
        + split; [lia|]. intros k p [[= _ <-]|[]]. lia.
        + split; [lia|]. intros k p [[= _ <-]|[]]. lia. }
    destruct Hnum as [Hrange Hfree].
    split; [exact Hrange|]. split; [exact Hfree|].
    split; [reflexivity|]. split; [apply mget_mset_eq|].
    rewrite mset_length. destruct (mhas id players); lia.
  - cbn [negb]. unfold ret. eexists _, _, _. split; [reflexivity|].
    split; [auto|]. intros; lia.
Qed.

Lemma reassignFrom_spec (num : nat) (players : PlayerManager.t) :
  mkeys (PlayerManager.reassignPlayerNumbersFrom num players) = mkeys players
  /\ map PlayerData.playerNumber
       (mvalues (PlayerManager.reassignPlayerNumbersFrom num players))
     = seq num (length players)
  /\ map (PlayerData.with_playerNumber 0)
       (mvalues (PlayerManager.reassignPlayerNumbersFrom num players))
     = map (PlayerData.with_playerNumber 0) (mvalues players).
Proof.
  revert num. unfold mkeys, mvalues.
  induction players as [|[k p] players IH]; intros num; cbn;
    [repeat split|].
  destruct (IH (S num)) as (H1 & H2 & H3).
  rewrite H1, H2, H3. repeat split.
Qed.

(** [reassignPlayerNumbers] numbers the players 1, 2, ... in the order
    they joined in and changes nothing else about them; done after a
    player has been removed, it leaves the remaining ones with the
    numbers 1 to their count. *)
Theorem reassignPlayerNumbers_sequence (players : PlayerManager.t)
    (playerId : string) :
  let players' := PlayerManager.reassignPlayerNumbers players in
  let remaining :=
    PlayerManager.reassignPlayerNumbers
      (snd (PlayerManager.removePlayer playerId players)) in
  mkeys players' = mkeys players
  /\ map PlayerData.playerNumber (PlayerManager.getAllPlayers players')
     = seq 1 (length players)
  /\ map (PlayerData.with_playerNumber 0) (PlayerManager.getAllPlayers players')
     = map (PlayerData.with_playerNumber 0)
         (PlayerManager.getAllPlayers players)
  /\ map PlayerData.playerNumber (PlayerManager.getAllPlayers remaining)
     = seq 1 (PlayerManager.getPlayerCount remaining)
  /\ PlayerManager.getPlayerCount remaining
     = (if fst (PlayerManager.removePlayer playerId players)
        then pred (PlayerManager.getPlayerCount players)
        else PlayerManager.getPlayerCount players).
Proof.
  cbv zeta. unfold PlayerManager.reassignPlayerNumbers,
    PlayerManager.getAllPlayers, PlayerManager.getPlayerCount,
    PlayerManager.removePlayer. cbn [fst snd].
  destruct (reassignFrom_spec 1 players) as (H1 & H2 & H3).
  destruct (reassignFrom_spec 1 (mdelete playerId players)) as (D1 & D2 & _).
  assert (Hlen : forall ps : PlayerManager.t,
            length (PlayerManager.reassignPlayerNumbersFrom 1 ps) = length ps).
  { intros ps. destruct (reassignFrom_spec 1 ps) as (Hk & _).
    apply (f_equal (@length _)) in Hk. unfold mkeys in Hk.
    now rewrite !length_map in Hk. }
  split; [exact H1|]. split; [exact H2|]. split; [exact H3|].
  split; [rewrite Hlen; exact D2|]. rewrite Hlen. apply mdelete_length.
Qed.

(** The setters of [PlayerManager] change one field of the player they
    name and nothing of any other player; for an id that the manager
    does not know they do nothing. *)
Theorem updateInput_lookup (playerId : string) (input : PlayerInput.t)
    (time : Z) (tier : nat) (players : PlayerManager.t) (k : string) :
  PlayerManager.getPlayer k (PlayerManager.updateInput playerId input players)
  = (if decide (k = playerId)
     then PlayerData.with_input input <$> PlayerManager.getPlayer k players
     else PlayerManager.getPlayer k players)
  /\ PlayerManager.getPlayer k
       (PlayerManager.updateShootTime playerId time players)
     = (if decide (k = playerId)
        then PlayerData.with_lastShootTime time
             <$> PlayerManager.getPlayer k players
        else PlayerManager.getPlayer k players)
  /\ PlayerManager.getPlayer k (PlayerManager.setGliderTier playerId tier players)
     = (if decide (k = playerId)
        then PlayerData.with_gliderTier tier
             <$> PlayerManager.getPlayer k players
        else PlayerManager.getPlayer k players)
  /\ PlayerManager.resetShootTime playerId players
     = PlayerManager.updateShootTime playerId 0 players
  /\ (PlayerManager.getPlayer playerId players = None ->
      PlayerManager.updateInput playerId input players = players
      /\ PlayerManager.updateShootTime playerId time players = players
      /\ PlayerManager.setGliderTier playerId tier players = players).
Proof.
  assert (Hgen : forall f,
    mget k (PlayerManager.updatePlayer playerId f players)
    = if decide (k = playerId) then f <$> mget k players
      else mget k players).
  { intros f. unfold PlayerManager.updatePlayer.
    destruct (decide (k = playerId)) as [->|Hne].
    - destruct (mget playerId players) eqn:Hg; cbn;
        [apply mget_mset_eq|exact Hg].
    - destruct (mget playerId players); [|reflexivity].
      apply mget_mset_ne. congruence. }
  unfold PlayerManager.getPlayer, PlayerManager.updateInput,
    PlayerManager.updateShootTime, PlayerManager.setGliderTier,
    PlayerManager.resetShootTime.
  rewrite !Hgen. repeat split; try reflexivity;
    unfold PlayerManager.updatePlayer; rewrite H; reflexivity.
Qed.
(** ** Power-ups *)

Lemma pickupLoop_spec (car : CarState.t) (boons : list Boon.t) :
  match BoonManager.pickupLoop car boons with
  | Some (boon, rest) =>
      exists pre post,
        boons = pre ++ boon :: post
        /\ rest = pre ++ post
        /\ inReach car boon
        /\ forall b, In b pre -> ~ inReach car b
  | None => forall b, In b boons -> ~ inReach car b
  end.
Proof.
  induction boons as [|boon boons IH]; cbn [BoonManager.pickupLoop].
  - intros b [].
  - cbv zeta.
    match goal with
    | |- context [Rltb ?a ?b] => destruct (Rltb a b) eqn:E
    end.
    + apply Rltb_true_iff in E. exists [], boons. cbn.
      repeat split; [exact E|]. intros b [].
    + apply Rltb_false_iff in E.
      destruct (BoonManager.pickupLoop car boons) as [[found rest]|].
      * destruct IH as (pre & post & -> & -> & Hreach & Hpre).
        exists (boon :: pre), post. cbn. repeat split; [exact Hreach|].
        intros b [<-|Hin]; [unfold inReach; lra|now apply Hpre].
      * intros b [<-|Hin]; [unfold inReach; lra|now apply IH].
Qed.

(** [checkPickup] gives nothing to a car at health 0 or below.  A
    living car picks up the first boon, in list order, that is within
    its reach, and only that one: the boon leaves the list, the others
    keep their order, and the event names the car and the effect value
    of the boon's type.  With no boon within reach nothing changes. *)
Theorem checkPickup_first (self : BoonManager.t) (car : CarState.t) :
  (CarState.health car <= 0 ->
   BoonManager.checkPickup self car = (None, self))
  /\ (forall event self',
        BoonManager.checkPickup self car = (Some event, self') ->
        0 < CarState.health car
        /\ exists pre post,
             BoonManager.boons self = pre ++ BoonPickupEvent.boon event :: post
             /\ BoonManager.boons self' = pre ++ post
             /\ inReach car (BoonPickupEvent.boon event)
             /\ (forall b, In b pre -> ~ inReach car b)
             /\ BoonPickupEvent.playerId event = CarState.id car
             /\ BoonPickupEvent.effectValue event
                = BOON_EFFECTS (Boon.type (BoonPickupEvent.boon event))
             /\ (BoonManager.lastSpawnTime self', BoonManager.spawnInterval self')
                = (BoonManager.lastSpawnTime self, BoonManager.spawnInterval self))
  /\ (forall self',
        BoonManager.checkPickup self car = (None, self') ->
        self' = self
        /\ (0 < CarState.health car ->
            forall b, In b (BoonManager.boons self) -> ~ inReach car b)).
Proof.
  unfold BoonManager.checkPickup.
  pose proof (pickupLoop_spec car (BoonManager.boons self)) as Hloop.
  destruct (Rleb (CarState.health car) 0) eqn:Eh;
    [apply Rleb_true_iff in Eh|apply Rleb_false_iff in Eh].
  - split; [reflexivity|]. split; [discriminate|].
    intros self' [= <-]. split; [reflexivity|]. intros; lra.
  - split; [intros; lra|].
    destruct (BoonManager.pickupLoop car (BoonManager.boons self))
      as [[boon rest]|].
    + destruct Hloop as (pre & post & Hb & -> & Hreach & Hpre).
      split; [|discriminate].
      intros event self' [= <- <-]. split; [lra|].
      exists pre, post. cbn. repeat split; assumption.
    + split; [discriminate|]. intros self' [= <-]. auto.
Qed.

(** A power-up never lowers the health or the shield of a car that is
    within its maxima and never raises them above: a health boon adds
    up to 40 health, a shield boon up to 30 shield, the other three up
    to 10 health; the id, the maxima and the score stay as they are. *)
Theorem applyBoonEffect_bounds (car : CarState.t) (boon : Boon.t) :
  let car' := BoonManager.applyBoonEffect car boon in
  (CarState.health car <= CarState.maxHealth car ->
   CarState.health car <= CarState.health car' <= CarState.maxHealth car
   /\ CarState.health car' <= CarState.health car + 40)
  /\ (CarState.shield car <= CarState.maxShield car ->
      CarState.shield car <= CarState.shield car' <= CarState.maxShield car
      /\ CarState.shield car' <= CarState.shield car + 30)
  /\ (Boon.type boon = BoonType.shield ->
      CarState.health car' = CarState.health car)
  /\ (Boon.type boon <> BoonType.shield ->
      CarState.shield car' = CarState.shield car)
  /\ (CarState.id car', CarState.maxHealth car', CarState.maxShield car',
      CarState.score car')
     = (CarState.id car, CarState.maxHealth car, CarState.maxShield car,
        CarState.score car).
Proof.
  cbv zeta. unfold BoonManager.applyBoonEffect, BOON_EFFECTS.
  destruct (Boon.type boon); cbn;
    repeat split; intros; try congruence; try reflexivity; rcases; lra.
Qed.

Lemma existsb_false_forall {A : Type} (f : A -> bool) (l : list A) :
  existsb f l = false <-> forall a, In a l -> f a = false.
Proof.
  induction l as [|x l IH]; cbn; [tauto|].
  rewrite orb_false_iff, IH. split.
  - intros [Hx Hl] a [<-|Hin]; auto.
  - intros H. split; [apply H; now left|]. intros a Hin. apply H. now right.
Qed.

Lemma isValidSpawnLocation_true (self : BoonManager.t) (x y : R)
    (walls : list Wall.t) :
  BoonManager.isValidSpawnLocation self x y walls = true ->
  (forall spawn, In spawn PLAYER_SPAWN_POSITIONS ->
     BOON_SPAWN_MARGIN <= pointDistance x y (fst spawn) (snd spawn))
  /\ (forall boon, In boon (BoonManager.boons self) ->
        BOON_PICKUP_RADIUS * 2 <= pointDistance x y (Boon.x boon) (Boon.y boon))
  /\ (forall wall, In wall walls ->
        ~ (Wall.x wall - Wall.width wall / 2 - BOON_SPAWN_MARGIN / 2 <= x
           <= Wall.x wall + Wall.width wall / 2 + BOON_SPAWN_MARGIN / 2
           /\ Wall.y wall - Wall.height wall / 2 - BOON_SPAWN_MARGIN / 2 <= y
              <= Wall.y wall + Wall.height wall / 2 + BOON_SPAWN_MARGIN / 2)).
Proof.
  unfold BoonManager.isValidSpawnLocation.
  destruct (existsb _ PLAYER_SPAWN_POSITIONS) eqn:E1; [discriminate|].
  destruct (existsb _ (BoonManager.boons self)) eqn:E2; [discriminate|].
  destruct (existsb _ walls) eqn:E3; [discriminate|]. intros _.
  rewrite existsb_false_forall in E1. rewrite existsb_false_forall in E2.
  rewrite existsb_false_forall in E3. split; [|split].
  - intros spawn Hin. specialize (E1 spawn Hin). cbv zeta in E1.
    apply Rltb_false_iff in E1. exact E1.
  - intros boon Hin. specialize (E2 boon Hin). cbv zeta in E2.
    apply Rltb_false_iff in E2. exact E2.
  - intros wall Hin [[Hx1 Hx2] [Hy1 Hy2]]. specialize (E3 wall Hin).
    cbv zeta in E3. rewrite !andb_false_iff in E3.
    destruct E3 as [[[E|E]|E]|E];
      [apply Rgeb_false_iff in E|apply Rleb_false_iff in E
      |apply Rgeb_false_iff in E|apply Rleb_false_iff in E]; lra.
Qed.

Lemma trySpawnBoonFrom_valid (attempts : nat) (self : BoonManager.t)
    (walls : list Wall.t) (w : World.t) (boon : Boon.t) (w' : World.t) :
  BoonManager.trySpawnBoonFrom attempts self walls w = Some (Some boon, w') ->
  BoonManager.isValidSpawnLocation self (Boon.x boon) (Boon.y boon) walls
  = true
  /\ Boon.lifetime boon = BOON_LIFETIME
  /\ (fairWorld w ->
      BOON_SPAWN_MARGIN <= Boon.x boon <= GAME_WIDTH - BOON_SPAWN_MARGIN
      /\ BOON_SPAWN_MARGIN <= Boon.y boon <= GAME_HEIGHT - BOON_SPAWN_MARGIN).
Proof.
  revert w. induction attempts as [|n IH]; intros w; [discriminate|].
  cbn [BoonManager.trySpawnBoonFrom].
  cbv beta iota zeta delta [bind Math_random ret generateId Date_now
                             Number_toString36 BoonManager.selectRandomBoonType
                             BoonManager.createBoon].
  set (rx := World.random w (World.randomCalls w)).
  set (ry := World.random (World.afterRandom w) _).
  match goal with
  | |- context [BoonManager.isValidSpawnLocation self ?x ?y walls] =>
      set (X := x); set (Y := y)
  end.
  destruct (BoonManager.isValidSpawnLocation self X Y walls) eqn:Hvalid.
  - intros [= <- _]. cbn [Boon.x Boon.y Boon.lifetime].
    split; [exact Hvalid|]. split; [reflexivity|].
    intros Hf. assert (Hx : 0 <= rx < 1) by apply Hf.
    assert (Hy : 0 <= ry < 1) by apply Hf.
    unfold X, Y, BOON_SPAWN_MARGIN, GAME_WIDTH, GAME_HEIGHT. lra.
  - intros H. destruct (IH _ H) as (Hv & Hl & Hin).
    split; [exact Hv|]. split; [exact Hl|].
    intros Hf. apply Hin. intros k. apply Hf.
Qed.

(** [trySpawnBoon] always returns, and a boon that it returns passed
    the location test: it is at least 100 from both spawn points, at
    least two pickup radii from every boon already there, and outside
    every wall enlarged by 50 on all sides; it lives for
    [BOON_LIFETIME], and with random numbers in [[0, 1)] it lies at
    least 100 inside the arena. *)
Theorem trySpawnBoon_valid (self : BoonManager.t) (walls : list Wall.t)
    (w : World.t) :
  exists r w',
    BoonManager.trySpawnBoon self walls w = Some (r, w')
    /\ forall boon, r = Some boon ->
         Boon.lifetime boon = BOON_LIFETIME
         /\ (forall spawn, In spawn PLAYER_SPAWN_POSITIONS ->
               BOON_SPAWN_MARGIN
               <= pointDistance (Boon.x boon) (Boon.y boon)
                    (fst spawn) (snd spawn))
         /\ (forall other, In other (BoonManager.boons self) ->
               BOON_PICKUP_RADIUS * 2
               <= pointDistance (Boon.x boon) (Boon.y boon)
                    (Boon.x other) (Boon.y other))
         /\ (forall wall, In wall walls ->
               ~ (Wall.x wall - Wall.width wall / 2 - BOON_SPAWN_MARGIN / 2
                  <= Boon.x boon
                  <= Wall.x wall + Wall.width wall / 2 + BOON_SPAWN_MARGIN / 2
                  /\ Wall.y wall - Wall.height wall / 2 - BOON_SPAWN_MARGIN / 2
                     <= Boon.y boon
                     <= Wall.y wall + Wall.height wall / 2
                        + BOON_SPAWN_MARGIN / 2))
         /\ (fairWorld w ->
             BOON_SPAWN_MARGIN <= Boon.x boon <= GAME_WIDTH - BOON_SPAWN_MARGIN
             /\ BOON_SPAWN_MARGIN <= Boon.y boon
                <= GAME_HEIGHT - BOON_SPAWN_MARGIN).
Proof.
  unfold BoonManager.trySpawnBoon.
  destruct (trySpawnBoonFrom_total 20 self walls w) as (r & w' & Hr & _).
  exists r, w'. split; [exact Hr|]. intros boon ->.
  destruct (trySpawnBoonFrom_valid _ _ _ _ _ _ Hr) as (Hv & Hl & Hin).
  destruct (isValidSpawnLocation_true _ _ _ _ Hv) as (H1 & H2 & H3).
  auto.
Qed.
(** ** Rooms *)

Lemma plainCode_upper (s : string) :
  plainCode s = true -> toUpperCase s = s.
Proof.
  induction s as [|c s IH]; cbn; [reflexivity|]. intros Hp.
  apply andb_true_iff in Hp as [Hp Hs].
  apply andb_true_iff in Hp as [_ Hc].
  apply Ascii.eqb_eq in Hc. rewrite Hc, IH; auto.
Qed.

(** A room that [createRoom] makes gets a code that no room had
    before, so no room is ever overwritten; afterwards the room is
    found under its code, the host is found in it with the socket it
    came on, as the room's only player; every other room, every other
    player's room and the matchmaking queue are as before. *)
Theorem createRoom_registers (fuel : nat) (hostWs : WebSocket)
    (self : RoomManager.t) (w : World.t) (r : option (string * string))
    (self' : RoomManager.t) (w' : World.t) :
  RoomManager.createRoom fuel hostWs self w = Some ((r, self'), w') ->
  exists roomCode hostId room,
    r = Some (roomCode, hostId)
    /\ RoomManager.getRoom roomCode self = None
    /\ RoomManager.getRoom roomCode self' = Some room
    /\ RoomManager.getPlayerRoom hostId self' = Some roomCode
    /\ RoomManager.getPlayerSocket hostId self' = Some hostWs
    /\ PlayerManager.getPlayerCount (GameRoom.playerManager room) = 1%nat
    /\ (forall other, other <> roomCode ->
          RoomManager.rooms self' !! other = RoomManager.rooms self !! other)
    /\ (forall other, other <> hostId ->
          RoomManager.getPlayerRoom other self'
          = RoomManager.getPlayerRoom other self)
    /\ RoomManager.matchmakingQueue self' = RoomManager.matchmakingQueue self.
Proof.
  intros Hc.
  destruct (createRoom_spec _ _ _ _ _ _ _ Hc)
    as (roomCode & hostId & room & -> & Hfresh & Hconn & Hlen & ->).
  pose proof (createRoom_plain _ _ _ _ _ _ _ _ Hc) as Hp.
  exists roomCode, hostId, room.
  unfold RoomManager.getRoom, RoomManager.getPlayerRoom,
    RoomManager.getPlayerSocket, PlayerManager.getPlayerCount.
  rewrite (plainCode_upper _ Hp). cbn.
  rewrite !lookup_insert_eq, Hconn. cbn.
  destruct (decide (hostId = hostId)); [|congruence].
  repeat split; try assumption.
  - intros other Hne. apply lookup_insert_ne. congruence.
  - intros other Hne. apply lookup_insert_ne. congruence.
Qed.

(** The first room of a registry that has none. *)
Lemma createRoom_registers_witness :
  exists r self' w' roomCode hostId,
    RoomManager.createRoom 0 7%nat waitingManager tickingWorld
    = Some ((r, self'), w')
    /\ r = Some (roomCode, hostId)
    /\ RoomManager.getPlayerSocket hostId self' = Some 7%nat.
Proof.
  destruct (createRoom_returns 0 7%nat waitingManager tickingWorld eq_refl)
    as (r & self' & w' & Hc).
  destruct (createRoom_registers _ _ _ _ _ _ _ Hc)
    as (roomCode & hostId & room & Hr & _ & _ & _ & Hs & _).
  exists r, self', w', roomCode, hostId. auto.
Defined.

(** [joinRoom] fails, without changing the registry or drawing from
    the clock or the random numbers, exactly when no room has the
    normalised code or the room is full.  When it succeeds the room had
    a free place, the new player is found in it with the joining
    socket, and the count it reports is the room's new player count,
    at most [MAX_PLAYERS]; so no room ever holds more players than
    that. *)
Theorem joinRoom_capacity (ws : WebSocket) (roomCode : string)
    (self : RoomManager.t) (w : World.t) (r : option (string * nat))
    (self' : RoomManager.t) (w' : World.t) :
  RoomManager.joinRoom ws roomCode self w = Some ((r, self'), w') ->
  let code := trim (toUpperCase roomCode) in
  (r = None <->
   RoomManager.rooms self !! code = None
   \/ exists room,
        RoomManager.rooms self !! code = Some room
        /\ (MAX_PLAYERS
            <= PlayerManager.getPlayerCount (GameRoom.playerManager room))%nat)
  /\ (r = None -> self' = self /\ w' = w)
  /\ (forall playerId n,
        r = Some (playerId, n) ->
        exists room,
          RoomManager.rooms self' !! code = Some room
          /\ RoomManager.getPlayerRoom playerId self' = Some code
          /\ RoomManager.getPlayerSocket playerId self' = Some ws
          /\ n = PlayerManager.getPlayerCount (GameRoom.playerManager room)
          /\ (n <= MAX_PLAYERS)%nat)
  /\ ((forall c room,
         RoomManager.rooms self !! c = Some room ->
         (PlayerManager.getPlayerCount (GameRoom.playerManager room)
          <= MAX_PLAYERS)%nat) ->
      forall c room,
        RoomManager.rooms self' !! c = Some room ->
        (PlayerManager.getPlayerCount (GameRoom.playerManager room)
         <= MAX_PLAYERS)%nat).
Proof.
  unfold RoomManager.joinRoom. cbv zeta.
  set (code := trim (toUpperCase roomCode)).
  unfold PlayerManager.getPlayerCount.
  destruct (RoomManager.rooms self !! code) as [room0|] eqn:Hl.
  2:{ intros [= <- <- <-]. split; [split; auto|].
      split; [auto|]. split; [discriminate|auto]. }
  unfold PlayerManager.canAddPlayer.
  destruct (Nat.ltb_spec (length (GameRoom.playerManager room0)) MAX_PLAYERS)
    as [Hlt|Hge]; cbn [negb].
  2:{ intros [= <- <- <-]. split; [split; [|auto]|].
      - intros _. right. exists room0. auto.
      - split; [auto|]. split; [discriminate|auto]. }
  unfold bind, PlayerManager.addPlayer, PlayerManager.canAddPlayer.
  replace (length (GameRoom.playerManager room0) <? MAX_PLAYERS)%nat
    with true by (symmetry; now apply Nat.ltb_lt).
  cbn [negb]. unfold bind, generatePlayerId.
  destruct (generateId_total "player" w) as [id Hid]. rewrite Hid.
  unfold ret. cbn [PlayerData.id].
  set (data := PlayerData.mk id _ _ _ _).
  set (players := mset id data (GameRoom.playerManager room0)).
  assert (Hplayers : (length players <= MAX_PLAYERS)%nat).
  { unfold players. rewrite mset_length.
    destruct (mhas id (GameRoom.playerManager room0)); lia. }
  intros [= <- <- <-]. split; [|split; [discriminate|split]].
  - split; [discriminate|]. intros [Hn|(room & Hr & Hfull)]; [discriminate|].
    injection Hr as <-. lia.
  - intros playerId n [= <- <-]. eexists.
    unfold RoomManager.getPlayerRoom, RoomManager.getPlayerSocket.
    destruct (mget (GameRoom.hostPlayerId room0)
                (mset id ws (GameRoom.connections room0)));
      cbn; rewrite !lookup_insert_eq; cbn; rewrite mget_mset_eq;
      repeat split; exact Hplayers.
  - intros Hall c room Hc.
    assert (Hrooms :
      <[code := GameRoom.mk (GameRoom.code room0)
                  (GameRoom.hostPlayerId room0) players
                  (mset id ws (GameRoom.connections room0))
                  (GameRoom.createdAt room0)]> (RoomManager.rooms self) !! c
      = Some room).
    { destruct (mget (GameRoom.hostPlayerId room0)
                  (mset id ws (GameRoom.connections room0))); exact Hc. }
    destruct (decide (c = code)) as [->|Hne].
    + rewrite lookup_insert_eq in Hrooms. injection Hrooms as <-.
      exact Hplayers.
    + rewrite lookup_insert_ne in Hrooms by congruence.
      now apply (Hall c).
Qed.

(** Socket 9 joins the room that socket 7 has just made. *)
Lemma joinRoom_capacity_witness :
  exists created w2 roomCode hostId joined w3 playerId n,
    RoomManager.createRoom 0 7%nat waitingManager tickingWorld
    = Some ((Some (roomCode, hostId), created), w2)
    /\ RoomManager.joinRoom 9%nat roomCode created w2
       = Some ((Some (playerId, n), joined), w3)
    /\ RoomManager.getPlayerSocket playerId joined = Some 9%nat
    /\ (n <= MAX_PLAYERS)%nat.
Proof.
  destruct (createRoom_returns 0 7%nat waitingManager tickingWorld eq_refl)
    as (r & created & w2 & Hc).
  destruct (createRoom_spec _ _ _ _ _ _ _ Hc)
    as (roomCode & hostId & room & -> & _ & _ & Hlen & Hcreated).
  pose proof (createRoom_plain _ _ _ _ _ _ _ _ Hc) as Hp.
  destruct (joinRoom_admits 9%nat roomCode created w2 room)
    as (playerId & n & joined & w3 & Hj).
  - rewrite (plainCode_normal _ Hp), Hcreated. cbn. apply lookup_insert_eq.
  - rewrite Hlen. unfold MAX_PLAYERS. lia.
  - exists created, w2, roomCode, hostId, joined, w3, playerId, n.
    split; [exact Hc|]. split; [exact Hj|].
    destruct (joinRoom_capacity _ _ _ _ _ _ _ Hj) as (_ & _ & Hok & _).
    destruct (Hok playerId n eq_refl) as (room' & _ & _ & Hs & _ & Hn).
    split; [exact Hs|exact Hn].
Defined.

(** [leaveMatchmaking] takes the socket out of the queue, tells it so
    with one "cancelled" message, and leaves the other sockets queued
    in their order; for a socket that is not queued it does nothing at
    all.  It never touches the rooms. *)
Theorem leaveMatchmaking_removes (ws : WebSocket) (self : RoomManager.t) :
  List.NoDup (mkeys (RoomManager.matchmakingQueue self)) ->
  let self' := RoomManager.leaveMatchmaking ws self in
  RoomManager.isInMatchmaking ws self' = false
  /\ (forall other, other <> ws ->
        RoomManager.isInMatchmaking other self'
        = RoomManager.isInMatchmaking other self)
  /\ List.NoDup (mkeys (RoomManager.matchmakingQueue self'))
  /\ (RoomManager.isInMatchmaking ws self = false -> self' = self)
  /\ (RoomManager.isInMatchmaking ws self = true ->
      RoomManager.sent self'
      = RoomManager.sent self ++ [(ws, matchmakingStatus "cancelled" None)]
      /\ length (RoomManager.matchmakingQueue self')
         = pred (length (RoomManager.matchmakingQueue self)))
  /\ (RoomManager.rooms self', RoomManager.playerToRoom self')
     = (RoomManager.rooms self, RoomManager.playerToRoom self).
Proof.
  intros Hnd. cbv zeta.
  unfold RoomManager.leaveMatchmaking, RoomManager.isInMatchmaking.
  destruct (mhas ws (RoomManager.matchmakingQueue self)) eqn:Hh.
  - cbn. unfold mhas.
    rewrite (mget_mdelete_eq ws _ Hnd).
    split; [reflexivity|]. split.
    { intros other Hne. rewrite mget_mdelete_ne by congruence. reflexivity. }
    split; [now apply mdelete_NoDup|]. split; [discriminate|].
    split; [|reflexivity]. intros _. split; [reflexivity|].
    rewrite mdelete_length, Hh. reflexivity.
  - split; [exact Hh|]. split; [reflexivity|]. split; [exact Hnd|].
    split; [reflexivity|]. split; [discriminate|reflexivity].
Qed.

(** Socket 7 leaves the queue it was waiting in alone. *)
Lemma leaveMatchmaking_removes_witness :
  RoomManager.isInMatchmaking 7%nat
    (RoomManager.leaveMatchmaking 7%nat waitingManager) = false.
Proof.
  apply (leaveMatchmaking_removes 7%nat waitingManager).
  cbn. constructor; [intros []|constructor].
Defined.

Lemma string_length_append (a b : string) :
  String.length (a +:+ b) = (String.length a + String.length b)%nat.
Proof.
  induction a as [|c a IH]; [reflexivity|].
  change (String.length (String c a +:+ b)) with (S (String.length (a +:+ b))).
  rewrite IH. reflexivity.
Qed.

Lemma charAt_one (i : Z) :
  (0 <= i < 32)%Z -> String.length (charAt roomCodeChars i) = 1%nat.
Proof.
  intros Hi. unfold charAt.
  destruct (Z.ltb_spec i 0) as [Hneg|_]; [lia|].
  assert (Hn : (Z.to_nat i < 32)%nat) by lia.
  revert Hn. generalize (Z.to_nat i). intros n Hn.
  do 32 (destruct n as [|n]; [reflexivity|]). lia.
Qed.

Lemma generateRoomCodeFrom_format (n : nat) (code : string) (w : World.t) :
  fairWorld w ->
  exists code' w',
    generateRoomCodeFrom n code w = Some (code', w')
    /\ String.length code' = (String.length code + n)%nat
    /\ World.random w' = World.random w.
Proof.
  intros Hf. revert code w Hf.
  induction n as [|n IH]; intros code w Hf; cbn [generateRoomCodeFrom].
  - exists code, w. unfold ret. repeat split. lia.
  - unfold bind, Math_random.
    set (r := World.random w (World.randomCalls w)).
    assert (Hr : 0 <= r < 1) by apply Hf.
    destruct (IH (code +:+ charAt roomCodeChars
                              (Zfloor (r * INR (String.length roomCodeChars))))
                (World.afterRandom w))
      as (code' & w' & Hg & Hlen & Hw); [intros k; apply Hf|].
    exists code', w'. split; [exact Hg|]. split; [|exact Hw].
    rewrite Hlen, string_length_append, charAt_one; [lia|].
    replace (INR (String.length roomCodeChars)) with 32 by (cbn; lra).
    split.
    + apply Zfloor_lub. cbn. lra.
    + apply lt_IZR. apply Rle_lt_trans with (r * 32);
        [apply Zfloor_bound|lra].
Qed.

(** With random numbers in [[0, 1)], a room code is six characters
    long and made of capitals and digits only, so that normalising it
    (upper case, trimmed) gives the same code back. *)
Theorem generateRoomCode_format (w : World.t) :
  fairWorld w ->
  exists code w',
    generateRoomCode w = Some (code, w')
    /\ String.length code = 6%nat
    /\ plainCode code = true
    /\ trim (toUpperCase code) = code.
Proof.
  intros Hf. unfold generateRoomCode.
  destruct (generateRoomCodeFrom_format 6 EmptyString w Hf)
    as (code & w' & Hg & Hlen & _).
  exists code, w'. split; [exact Hg|]. split; [exact Hlen|].
  assert (Hp : plainCode code = true)
    by now apply (generateRoomCodeFrom_plain 6 EmptyString w code w').
  split; [exact Hp|]. now apply plainCode_normal.
Qed.

(** All random numbers 0: the code is six characters long. *)
Lemma generateRoomCode_format_witness :
  exists code w',
    generateRoomCode stillWorld = Some (code, w')
    /\ String.length code = 6%nat
    /\ plainCode code = true
    /\ trim (toUpperCase code) = code.
Proof.
  apply (generateRoomCode_format stillWorld).
  intros n. cbn. lra.
Defined.
